(** * Level-set distance function of FiPy: [DistanceVariable]

    A shallow embedding of
    [fipy/models/levelSet/distanceFunction/distanceVariable.py]:
    the interface locator, the trial value solver [_calcTrialValue] and the
    fast-marching loop of [_calcDistanceFunction], with [extendVariable] and
    [calcDistanceFunction] on top.

    Numbers are IEEE binary64 values (Rocq's primitive floats), as the
    [Numeric] arrays of typecode ['d'] and the Python floats of the source.
    The source is Python 2: [/] between integers is the floor of the
    quotient, and [x ** 2] on floats is the C library's [pow].
    Python exceptions are results of the error monad [result]. *)

From Stdlib Require Import List Bool Arith Lia PeanoNat ZArith.
From Stdlib Require Import Floats.
Import ListNotations.

Set Implicit Arguments.
Set Warnings "-inexact-float".

(** ** Python exceptions as an error monad *)

Module Py.

(** The exceptions the modelled code can raise.  [Error] is the source's
    [raise Error]; [IndexError] is an index out of range of a sequence;
    [ZeroDivisionError] is a Python float divided by zero; [OverflowError] is
    a power of a Python float that is out of range; [ValueError] is an
    operation on arrays whose shapes do not agree; [MAError] is [MA]'s
    refusal to hand an array with masked elements to [Numeric]. *)
Inductive exn : Type :=
| Error
| IndexError
| ZeroDivisionError
| OverflowError
| ValueError
| MAError.

Inductive result (A : Type) : Type :=
| Ok (a : A)
| Raise (e : exn).

Arguments Ok {A} a.
Arguments Raise {A} e.

Definition bind {A B : Type} (m : result A) (k : A -> result B) : result B :=
  match m with
  | Ok a => k a
  | Raise e => Raise e
  end.

Definition returns {A : Type} (m : result A) : Prop := exists a, m = Ok a.

Definition raises {A : Type} (m : result A) : Prop := exists e, m = Raise e.

(** [l[i]] for a non-negative index. *)
Definition getitem {A : Type} (l : list A) (i : nat) : result A :=
  match nth_error l i with
  | Some a => Ok a
  | None => Raise IndexError
  end.

(** [l[i] = v] for a non-negative index. *)
Fixpoint setitem {A : Type} (l : list A) (i : nat) (v : A) : result (list A) :=
  match l, i with
  | [], _ => Raise IndexError
  | _ :: t, O => Ok (v :: t)
  | h :: t, S j => bind (setitem t j v) (fun t' => Ok (h :: t'))
  end.

(** [Numeric.take(l, ids)]. *)
Fixpoint take {A : Type} (l : list A) (ids : list nat) : result (list A) :=
  match ids with
  | [] => Ok []
  | i :: rest =>
      bind (getitem l i) (fun a =>
      bind (take l rest) (fun r => Ok (a :: r)))
  end.

End Py.

Import Py.

(** ** The C library's power

    [x ** 2] on Python floats and on [Numeric] arrays is the C library's
    [pow(x, 2.0)].  The C language does not fix its rounding: the result can
    differ from the rounded product [x * x] in the last bit.  The model takes
    the function from the platform. *)
Class Libm : Type := { pow2 : float -> float }.

Declare Scope py_scope.
Delimit Scope py_scope with py.
Notation "x <- m ;; k" := (bind m (fun x => k))
  (at level 61, m at next level, right associativity) : py_scope.
Notation "' pat <- m ;; k" := (bind m (fun x => match x with pat => k end))
  (at level 61, pat pattern, m at next level, right associativity) : py_scope.
Open Scope py_scope.

(** ** Floating-point helpers *)

Module Num.

Local Open Scope float_scope.

(** Python's [x > 0] and [x < 0]. *)
Definition gt0 (x : float) : bool := 0 <? x.
Definition lt0 (x : float) : bool := x <? 0.

(** [(x > 0) * 2 - 1]. *)
Definition sign_of (x : float) : float := if gt0 x then 1 else -1.

(** Python's builtin [max(x, 0)] and [min(x, 0)]: the second argument
    replaces the first only when it compares strictly beyond it. *)
Definition pymax0 (x : float) : float := if x <? 0 then 0 else x.
Definition pymin0 (x : float) : float := if 0 <? x then 0 else x.

Section Power.

Context {libm : Libm}.

(** [x ** 2] on Python floats, the [float_pow] of Python 2.7: a
    not-a-number, an infinity, a zero and a one are answered without the C
    library; any other [x] goes to [pow] by its absolute value, and an
    infinite result is an [OverflowError]. *)
Definition pypow2 (x : float) : result float :=
  if is_nan x then Ok x
  else if is_infinity x then Ok infinity
  else if x =? 0 then Ok 0
  else if abs x =? 1 then Ok 1
  else
    let ix := pow2 (abs x) in
    if is_infinity ix then Raise OverflowError else Ok ix.

End Power.

(** A Python number: the narrow-band width is given by the caller, as an
    integer or as a float. *)
Inductive number : Type :=
| PyInt (n : Z)
| PyFloat (x : float).

(** [w / 2] in Python 2: the floor of the quotient for an integer. *)
Definition half (w : number) : number :=
  match w with
  | PyInt n => PyInt (n / 2)%Z
  | PyFloat x => PyFloat (x / 2)
  end.

(** [x > n] for a float [x] and an integer [n]: Python compares the two as
    numbers, without rounding [n] to a float. *)
Definition gtInt (x : float) (n : Z) : bool :=
  match Prim2SF x with
  | S754_nan => false
  | S754_infinity s => negb s
  | S754_zero _ => (n <? 0)%Z
  | S754_finite s m e =>
      let num := if s then Z.neg m else Z.pos m in
      if (0 <=? e)%Z then (n <? num * 2 ^ e)%Z else (n * 2 ^ (- e) <? num)%Z
  end.

(** [x > h] for a float [x] and a number [h]. *)
Definition gtNumber (x : float) (h : number) : bool :=
  match h with
  | PyInt n => gtInt x n
  | PyFloat y => y <? x
  end.

(** Division of Python floats. *)
Definition pydiv (x y : float) : result float :=
  if y =? 0 then Raise ZeroDivisionError else Ok (x / y).

(** [Numeric.dot] of two vectors. *)
Fixpoint products (a b : list float) : list float :=
  match a, b with
  | x :: a', y :: b' => x * y :: products a' b'
  | _, _ => []
  end.

Definition dot (a b : list float) : float :=
  match products a b with
  | [] => 0
  | p :: ps => fold_left add ps p
  end.

(** [Numeric.sum] of a flag array. *)
Definition count (fl : list bool) : nat := length (filter (fun b => b) fl).

(** [Numeric.where(flag, a, c)] with a scalar [c]. *)
Fixpoint where_ (flag : list bool) (a : list float) (c : float) : list float :=
  match flag, a with
  | f :: flag', x :: a' => (if f then x else c) :: where_ flag' a' c
  | _, _ => []
  end.

(** [Numeric.argsort]: the indices that sort the keys in ascending order.
    The sort is an insertion sort that keeps equal keys in index order. *)
Fixpoint insert (x : nat * float) (l : list (nat * float)) : list (nat * float) :=
  match l with
  | [] => [x]
  | y :: t => if snd x <=? snd y then x :: l else y :: insert x t
  end.

Definition argsort (keys : list float) : list nat :=
  map fst (fold_right insert [] (combine (seq 0 (length keys)) keys)).

(** [Numeric.argmin]: the first index of a least key. *)
Fixpoint argmin_from (best : nat) (bestkey : float) (i : nat) (keys : list float) : nat :=
  match keys with
  | [] => best
  | k :: rest =>
      if k <? bestkey then argmin_from i k (S i) rest
      else argmin_from best bestkey (S i) rest
  end.

Definition argmin (keys : list float) : nat :=
  match keys with
  | [] => O
  | k :: rest => argmin_from O k 1%nat rest
  end.

End Num.

(** ** Masked arrays

    An element of a [MA] array is [None] when it is masked.  The operations
    below are [MA]'s elementwise ones. *)

Module MA.

Local Open Scope float_scope.

Definition lift2 (f : float -> float -> float) (a b : option float) : option float :=
  match a, b with
  | Some x, Some y => Some (f x y)
  | _, _ => None
  end.

Definition mul := lift2 PrimFloat.mul.
Definition sub := lift2 PrimFloat.sub.
Definition add := lift2 PrimFloat.add.

(** [a ** 2]: [Numeric.power] is the C library's [pow], element by element;
    a masked element stays masked. *)
Definition power2 {libm : Libm} (a : option float) : option float :=
  option_map pow2 a.

Definition absolute (a : option float) : option float := option_map abs a.

(** [MA.divide] masks the quotient where [abs(a) * 1e-35 >= abs(b)]. *)
Definition divide (a b : option float) : option float :=
  match a, b with
  | Some x, Some y => if abs y <=? abs x * 1e-35 then None else Some (x / y)
  | _, _ => None
  end.

(** [MA.sqrt] masks the root of a negative number. *)
Definition sqrt (a : option float) : option float :=
  match a with
  | Some x => if x <? 0 then None else Some (PrimFloat.sqrt x)
  | None => None
  end.

(** [a.filled()] with the default fill value of a float array. *)
Definition filled (a : option float) : float :=
  match a with Some x => x | None => 1e20 end.

(** [Numeric.sum(Numeric.logical_not(a.mask()), 1)] on one row. *)
Definition unmasked {A : Type} (row : list (option A)) : nat :=
  length (filter (fun o => match o with Some _ => true | None => false end) row).

End MA.

Import Num.

(** ** The mesh and the arrays cached by [DistanceVariable.__init__] *)

(** What the code reads of its mesh.  A masked slot of a [MA] array is [None]. *)
Record Mesh : Type := {
  getDim : nat;
  getNumberOfCells : nat;
  _getCellToCellIDs : list (list (option nat));
  _getCellToCellIDsFilled : list (list nat);
  _getCellToCellDistances : list (list (option float));
  _getCellNormals : list (list (option (list float)));
  _getCellAreas : list (list (option float))
}.

(** [MA.array(a).filled(0)]. *)
Definition filled0 (a : list (list (option float))) : list (list float) :=
  map (map (fun x => match x with Some v => v | None => 0%float end)) a.

Section WithMesh.

Context {libm : Libm}.

Variable mesh : Mesh.

Definition cellToCellDistances : list (list float) :=
  filled0 (_getCellToCellDistances mesh).

Definition cellNormals : list (list (list float)) :=
  map (map (fun x => match x with
                     | Some n => n
                     | None => repeat 0%float (getDim mesh)
                     end)) (_getCellNormals mesh).

Definition cellAreas : list (list float) := filled0 (_getCellAreas mesh).

Definition cellToCellIDs : list (list nat) := _getCellToCellIDsFilled mesh.

(** [a[i, j]]. *)
Definition getitem2 {A : Type} (a : list (list A)) (i j : nat) : result A :=
  row <- getitem a i ;; getitem row j.

(** ** The trial value solver *)

Local Open Scope float_scope.

(** What [_calcTrialValue] reads before it branches on [N]. *)
Record Gathered : Type := {
  adjIDs : list nat;
  sign : float;
  d0 : float;
  v0 : float;
  e0 : float;
  N : nat;
  index0 : nat;
  index1 : nat;
  index2 : nat
}.

Definition gather (value : list float) (id : nat)
    (evaluatedFlag : list bool) (extensionVariable : list float)
    : result Gathered :=
  adjIDs <- getitem cellToCellIDs id ;;
  adjEvaluatedFlag <- take evaluatedFlag adjIDs ;;
  adjValues <- take value adjIDs ;;
  let adjValues := where_ adjEvaluatedFlag adjValues 1e10 in
  let indices := argsort (map abs adjValues) in
  vid <- getitem value id ;;
  index0 <- getitem indices 0 ;;
  d0 <- getitem2 cellToCellDistances id index0 ;;
  a0id <- getitem adjIDs index0 ;;
  v0 <- getitem value a0id ;;
  e0 <- getitem extensionVariable a0id ;;
  index1 <- getitem indices 1 ;;
  index2 <- getitem indices (getDim mesh) ;;
  Ok {| adjIDs := adjIDs; sign := sign_of vid; d0 := d0; v0 := v0; e0 := e0;
        N := count adjEvaluatedFlag;
        index0 := index0; index1 := index1; index2 := index2 |}.

(** [n0[0] * n1[1] - n0[1] * n1[0]]. *)
Definition cross2 (n0 n1 : list float) : result float :=
  n00 <- getitem n0 0 ;; n11 <- getitem n1 1 ;;
  n01 <- getitem n0 1 ;; n10 <- getitem n1 0 ;;
  Ok (n00 * n11 - n01 * n10).

(** The cross product of the normals towards the two nearest neighbours, as
    the block under [if N > 1] computes it. *)
Definition crossNormals (id : nat) (g : Gathered) : result float :=
  n0 <- getitem2 cellNormals id (index0 g) ;;
  n1 <- getitem2 cellNormals id (index1 g) ;;
  if (getDim mesh =? 2)%nat then cross2 n0 n1 else Ok 0.

(** The block under [if N > 1]: it may lower [N] to 1 or move [index1].
    The result is the new [N] and the new [index1]. *)
Definition degenerate (id : nat) (g : Gathered) : result (nat * nat) :=
  if (1 <? N g)%nat then
    cross <- crossNormals id g ;;
    if abs cross <? 0.1 then
      if (N g =? 2)%nat then Ok (1%nat, index1 g)
      else if (N g =? 3)%nat then Ok (N g, index2 g)
      else Ok (N g, index1 g)
    else Ok (N g, index1 g)
  else Ok (N g, index1 g).

(** The two-neighbour solve: the branch under the last [else]. *)
Definition twoNeighbours (value : list float) (id : nat)
    (extensionVariable : list float) (g : Gathered) (index1 : nat)
    : result (float * float) :=
  let d0 := d0 g in
  let v0 := v0 g in
  d1 <- getitem2 cellToCellDistances id index1 ;;
  n0 <- getitem2 cellNormals id (index0 g) ;;
  n1 <- getitem2 cellNormals id index1 ;;
  a1id <- getitem (adjIDs g) index1 ;;
  v1 <- getitem value a1id ;;
  c <- cross2 n0 n1 ;;
  let crossProd := d0 * d1 * c in
  let dotProd := d0 * d1 * dot n0 n1 in
  d0sq <- pypow2 d0 ;;
  d1sq <- pypow2 d1 ;;
  let dsq := d0sq + d1sq - 2 * dotProd in
  let top := - v0 * (dotProd - d1sq) - v1 * (dotProd - d0sq) in
  crossSq <- pypow2 crossProd ;;
  diffSq <- pypow2 (v0 - v1) ;;
  let sqrt := crossSq * (dsq - diffSq) in
  let sqrt := PrimFloat.sqrt (pymax0 sqrt) in
  dis <- pydiv (top + sign g * sqrt) dsq ;;
  e1 <- getitem extensionVariable a1id ;;
  a0 <- getitem2 cellAreas id (index0 g) ;;
  a1 <- getitem2 cellAreas id index1 ;;
  vid <- getitem value id ;;
  let phi := if gt0 vid then pymax0 dis else pymin0 dis in
  n0grad <- pydiv (a0 * abs (v0 - phi)) d0 ;;
  n1grad <- pydiv (a1 * abs (v1 - phi)) d1 ;;
  ext <- pydiv (e0 g * n0grad + e1 * n1grad) (n0grad + n1grad) ;;
  Ok (dis, ext).

Definition _calcTrialValue (value : list float) (id : nat)
    (evaluatedFlag : list bool) (extensionVariable : list float)
    : result (float * float) :=
  g <- gather value id evaluatedFlag extensionVariable ;;
  r <- degenerate id g ;;
  match fst r with
  | 0%nat => Raise Error
  | 1%nat => Ok (v0 g + sign g * d0 g, e0 g)
  | _ => twoNeighbours value id extensionVariable g (snd r)
  end.

(** *** The quantities of the two-neighbour solve, for the statements

    [readTwo] gathers what the two-neighbour branch reads; the definitions
    after it follow the wording of the specification. *)

Record Second : Type := {
  d1 : float;
  n0 : list float;
  n1 : list float;
  v1 : float;
  crossN : float;
  e1 : float;
  a0 : float;
  a1 : float;
  vid : float
}.

Definition readTwo (value : list float) (id : nat)
    (extensionVariable : list float) (g : Gathered) (index1 : nat)
    : result Second :=
  d1 <- getitem2 cellToCellDistances id index1 ;;
  n0 <- getitem2 cellNormals id (index0 g) ;;
  n1 <- getitem2 cellNormals id index1 ;;
  a1id <- getitem (adjIDs g) index1 ;;
  v1 <- getitem value a1id ;;
  c <- cross2 n0 n1 ;;
  e1 <- getitem extensionVariable a1id ;;
  a0 <- getitem2 cellAreas id (index0 g) ;;
  a1 <- getitem2 cellAreas id index1 ;;
  vid <- getitem value id ;;
  Ok {| d1 := d1; n0 := n0; n1 := n1; v1 := v1; crossN := c;
        e1 := e1; a0 := a0; a1 := a1; vid := vid |}.

(** ** The interface locator *)

(** [numerix.MAtake(a, ids)] on one row of masked cell IDs. *)
Fixpoint MAtake {A : Type} (a : list A) (ids : list (option nat))
    : result (list (option A)) :=
  match ids with
  | [] => Ok []
  | None :: rest => r <- MAtake a rest ;; Ok (None :: r)
  | Some k :: rest => x <- getitem a k ;; r <- MAtake a rest ;; Ok (Some x :: r)
  end.

(** [f] on every cell ID below [n], in order. *)
Fixpoint forCells {A : Type} (f : nat -> result A) (ids : list nat) : result (list A) :=
  match ids with
  | [] => Ok []
  | i :: rest => x <- f i ;; r <- forCells f rest ;; Ok (x :: r)
  end.

(** The whole-array expressions need [value], the cell-to-cell IDs and the
    cell-to-cell distances to have one shape. *)
Definition sameShape (value : list float) : bool :=
  let ids := _getCellToCellIDs mesh in
  let dAP := _getCellToCellDistances mesh in
  match ids with
  | [] => false
  | row0 :: _ =>
      (length value =? length ids)%nat && (length dAP =? length ids)%nat
      && forallb (fun r => (length r =? length row0)%nat) ids
      && forallb (fun r => (length r =? length row0)%nat) dAP
  end.

(** One row of [adjInterfaceValues]: the neighbours' values, masked where the
    slot is masked or where [adjVals * value > 0]. *)
Definition adjInterfaceValues (value : list float) (i : nat)
    : result (list (option float)) :=
  v <- getitem value i ;;
  ids <- getitem (_getCellToCellIDs mesh) i ;;
  adjVals <- MAtake value ids ;;
  Ok (map (fun a => match a with
                    | Some x => if 0 <? x * v then None else Some x
                    | None => None
                    end) adjVals).

(** The [deleteIslands] pass on one cell. *)
Definition deleteIsland (value : list float) (i : nat) : result float :=
  v <- getitem value i ;;
  adj <- adjInterfaceValues value i ;;
  Ok (if (MA.unmasked adj =? 4)%nat && gt0 v then -1 else v).

(** One row of [distances]. *)
Definition distancesRow (value : list float) (i : nat)
    : result (list (option float)) :=
  v <- getitem value i ;;
  adj <- adjInterfaceValues value i ;;
  dAP <- getitem (_getCellToCellDistances mesh) i ;;
  Ok (map (fun da => MA.absolute
                       (MA.divide (MA.mul (Some v) (fst da))
                                  (MA.sub (Some v) (snd da))))
          (combine dAP adj)).

(** [sign * s * t / MA.sqrt(s**2 + t**2)]. *)
Definition combineTwo (sign : float) (s t : option float) : option float :=
  MA.divide (MA.mul (MA.mul (Some sign) s) t)
            (MA.sqrt (MA.add (MA.power2 s) (MA.power2 t))).

(** One element of [signedDistance]. *)
Definition signedDistance (value : list float) (i : nat) : result (option float) :=
  v <- getitem value i ;;
  distances <- distancesRow value i ;;
  let indices := argsort (map MA.filled distances) in
  let sign := sign_of v in
  i0 <- getitem indices 0 ;;
  s <- getitem distances i0 ;;
  if (getDim mesh =? 2)%nat then
    i1 <- getitem indices 1 ;;
    t <- getitem distances i1 ;;
    i2 <- getitem indices 2 ;;
    u <- getitem distances i2 ;;
    ns <- getitem2 cellNormals i i0 ;;
    nt <- getitem2 cellNormals i i1 ;;
    Ok (match s with
        | None => Some v
        | Some _ =>
            match t with
            | None => MA.mul (Some sign) s
            | Some _ =>
                if abs (dot ns nt) <? 0.9 then combineTwo sign s t
                else match u with
                     | None => MA.mul (Some sign) s
                     | Some _ => combineTwo sign s u
                     end
            end
        end)
  else
    Ok (match s with
        | None => Some v
        | Some _ => MA.mul (Some sign) s
        end).

(** What [signedDistance] reads on a 2-D mesh, for the statements: the value
    of the cell, the three nearest candidates [s], [t], [u] and the normals
    [ns], [nt] that go with the first two. *)
Record Candidates : Type := {
  cellValue : float;
  s : option float;
  t : option float;
  u : option float;
  ns : list float;
  nt : list float
}.

Definition readCandidates (value : list float) (i : nat) : result Candidates :=
  v <- getitem value i ;;
  distances <- distancesRow value i ;;
  let indices := argsort (map MA.filled distances) in
  i0 <- getitem indices 0 ;;
  s <- getitem distances i0 ;;
  i1 <- getitem indices 1 ;;
  t <- getitem distances i1 ;;
  i2 <- getitem indices 2 ;;
  u <- getitem distances i2 ;;
  ns <- getitem2 cellNormals i i0 ;;
  nt <- getitem2 cellNormals i i1 ;;
  Ok {| cellValue := v; s := s; t := t; u := u; ns := ns; nt := nt |}.

(** One element of [interfaceFlag]. *)
Definition interfaceFlagCell (value : list float) (i : nat) : result bool :=
  distances <- distancesRow value i ;;
  Ok (0 <? MA.unmasked distances)%nat.

(** [Numeric.where] hands [self.value] to [Numeric]: a masked element is an
    error. *)
Fixpoint unmaskedArray (a : list (option float)) : result (list float) :=
  match a with
  | [] => Ok []
  | None :: _ => Raise MAError
  | Some x :: rest => r <- unmaskedArray rest ;; Ok (x :: r)
  end.

(** ** The narrow-band propagator *)

(** [Numeric.nonzero] of a flag array. *)
Fixpoint nonzero_from (i : nat) (fl : list bool) : list nat :=
  match fl with
  | [] => []
  | b :: rest => if b then i :: nonzero_from (S i) rest else nonzero_from (S i) rest
  end.

Definition nonzero (fl : list bool) : list nat := nonzero_from 0 fl.

(** [Numeric.where(cond, flag, 0)] on flag arrays. *)
Definition whereFlag (cond : float -> bool) (value : list float) (fl : list bool)
    : list bool :=
  map (fun vf => if cond (fst vf) then snd vf else false) (combine value fl).

(** [for id in negativeInterfaceIDs]: only the extension value is kept. *)
Fixpoint negativeInterface (value : list float) (positiveInterfaceFlag : list bool)
    (ids : list nat) (extensionVariable : list float) : result (list float) :=
  match ids with
  | [] => Ok extensionVariable
  | id :: rest =>
      r <- _calcTrialValue value id positiveInterfaceFlag extensionVariable ;;
      ext <- setitem extensionVariable id (snd r) ;;
      negativeInterface value positiveInterfaceFlag rest ext
  end.

(** One element of [hasAdjInterface]. *)
Definition hasAdjInterface (interfaceFlag : list bool) (i : nat) : result bool :=
  ids <- getitem (_getCellToCellIDs mesh) i ;;
  adj <- MAtake interfaceFlag ids ;;
  Ok (existsb (fun o => match o with Some b => b | None => false end) adj).

(** The arrays and the list the marching loop works on. *)
Record Marching : Type := {
  value : list float;
  extensionVariable : list float;
  evaluatedFlag : list bool;
  trialIDs : list nat
}.

(** [self.value[id], extensionVariable[id] = self._calcTrialValue(id, ...)]. *)
Definition assignTrial (st : Marching) (id : nat) : result Marching :=
  r <- _calcTrialValue (value st) id (evaluatedFlag st) (extensionVariable st) ;;
  val <- setitem (value st) id (fst r) ;;
  ext <- setitem (extensionVariable st) id (snd r) ;;
  Ok {| value := val; extensionVariable := ext;
        evaluatedFlag := evaluatedFlag st; trialIDs := trialIDs st |}.

(** [for id in trialIDs]: the first trial values. *)
Fixpoint seedTrials (ids : list nat) (st : Marching) : result Marching :=
  match ids with
  | [] => Ok st
  | id :: rest => st' <- assignTrial st id ;; seedTrials rest st'
  end.

(** [adjID in trialIDs]. *)
Definition inList (x : nat) (l : list nat) : bool := existsb (Nat.eqb x) l.

(** [trialIDs.remove(id)]: the first occurrence goes. *)
Fixpoint remove (x : nat) (l : list nat) : list nat :=
  match l with
  | [] => []
  | y :: t => if (x =? y)%nat then t else y :: remove x t
  end.

(** [for adjID in cellToCellIDs[id].filled(fill_value = -1)]. *)
Fixpoint relax (adjIDs : list (option nat)) (st : Marching) : result Marching :=
  match adjIDs with
  | [] => Ok st
  | None :: rest => relax rest st
  | Some adjID :: rest =>
      ev <- getitem (evaluatedFlag st) adjID ;;
      if ev then relax rest st
      else
        st' <- assignTrial st adjID ;;
        relax rest
          (if inList adjID (trialIDs st') then st'
           else {| value := value st'; extensionVariable := extensionVariable st';
                   evaluatedFlag := evaluatedFlag st';
                   trialIDs := trialIDs st' ++ [adjID] |})
  end.

(** [trialIDs[Numeric.argmin(abs(Numeric.take(self.value, trialIDs)))]]:
    the trial cell that is accepted. *)
Definition accept (st : Marching) : result nat :=
  keys <- take (value st) (trialIDs st) ;;
  getitem (trialIDs st) (argmin (map abs keys)).

(** The body of the loop after the choice of [id], up to the test of the
    narrow band: [id] leaves [trialIDs], is flagged as evaluated, and its
    neighbours are relaxed. *)
Definition pass (st : Marching) (id : nat) : result Marching :=
  ev <- setitem (evaluatedFlag st) id true ;;
  adjIDs <- getitem (_getCellToCellIDs mesh) id ;;
  relax adjIDs {| value := value st; extensionVariable := extensionVariable st;
                  evaluatedFlag := ev; trialIDs := remove id (trialIDs st) |}.

(** [abs(self.value[id]) > narrowBandWidth / 2]. *)
Definition beyondBand (narrowBandWidth : number) (st : Marching) (id : nat)
    : result bool :=
  v <- getitem (value st) id ;; Ok (gtNumber (abs v) (half narrowBandWidth)).

(** [while len(trialIDs)], with a bound on the number of passes: [None]
    when the bound is reached before the loop ends. *)
Fixpoint marching (fuel : nat) (narrowBandWidth : number) (st : Marching)
    : option (result Marching) :=
  match trialIDs st with
  | [] => Some (Ok st)
  | _ :: _ =>
      match fuel with
      | O => None
      | S fuel' =>
          match accept st with
          | Raise e => Some (Raise e)
          | Ok id =>
              match pass st id with
              | Raise e => Some (Raise e)
              | Ok st' =>
                  match beyondBand narrowBandWidth st' id with
                  | Raise e => Some (Raise e)
                  | Ok true => Some (Ok st')
                  | Ok false => marching fuel' narrowBandWidth st'
                  end
              end
          end
      end
  end.

(** *** The loop as a relation, for the statements

    [assigned st id] are the cells that get a trial value when [id] is
    accepted in [st]: its unmasked neighbours that are not evaluated.
    [Run w st touched st'] is a complete run of the loop from [st] to [st']:
    it goes on while [trialIDs] is not empty and the absolute value of the
    accepted cell is not above [w / 2], and it ends when [trialIDs] is empty
    or that value is above [w / 2]; [touched] lists the cells accepted or
    assigned a trial value on the way.  The quotient [w / 2] is Python 2's
    ([half]). *)
(** The unmasked cells of a row of neighbours that are not evaluated. *)
Definition unevaluatedOf (ev : list bool) (adjIDs : list (option nat)) : list nat :=
  filter (fun k => negb (nth k ev true))
         (flat_map (fun o => match o with Some k => [k] | None => [] end) adjIDs).

Definition assigned (st : Marching) (id : nat) : list nat :=
  filter (fun k => negb (k =? id)%nat && negb (nth k (evaluatedFlag st) true))
         (flat_map (fun o => match o with Some k => [k] | None => [] end)
                   (nth id (_getCellToCellIDs mesh) [])).

Inductive Run (w : number) : Marching -> list nat -> Marching -> Prop :=
| Run_empty (st : Marching) :
    trialIDs st = [] ->
    Run w st [] st
| Run_beyond (st st' : Marching) (id : nat) (v : float) :
    trialIDs st <> [] ->
    accept st = Ok id ->
    pass st id = Ok st' ->
    nth_error (value st') id = Some v ->
    gtNumber (abs v) (half w) = true ->
    Run w st (id :: assigned st id) st'
| Run_within (st st' st'' : Marching) (id : nat) (v : float) (touched : list nat) :
    trialIDs st <> [] ->
    accept st = Ok id ->
    pass st id = Ok st' ->
    nth_error (value st') id = Some v ->
    gtNumber (abs v) (half w) = false ->
    Run w st' touched st'' ->
    Run w st (id :: assigned st id ++ touched) st''.

(** The number of cells that are not evaluated. *)
Definition unevaluated (ev : list bool) : nat := length (filter negb ev).

(** The trial cells are distinct and not evaluated. *)
Definition Scheduled (st : Marching) : Prop :=
  NoDup (trialIDs st)
  /\ forall id, In id (trialIDs st) -> nth_error (evaluatedFlag st) id = Some false.

Fixpoint distinct (l : list nat) : bool :=
  match l with
  | [] => true
  | x :: t => negb (inList x t) && distinct t
  end.

Definition scheduled (st : Marching) : bool :=
  distinct (trialIDs st)
  && forallb (fun id => match nth_error (evaluatedFlag st) id with
                        | Some false => true
                        | _ => false
                        end) (trialIDs st).

(** ** [_calcDistanceFunction], [calcDistanceFunction] and [extendVariable] *)

(** The attributes of a [DistanceVariable] that the code reads and writes. *)
Record DistanceVariable : Type := {
  self_value : list float;
  self_tmpValue : list float;
  self_narrowBandWidth : number
}.

(** [_calcDistanceFunction] up to the [while] loop: the state the loop
    starts in.  Arrays that are not of one shape are refused at the start,
    as a [ValueError]; the source raises at the first whole-array expression
    that meets them, which is an [IndexError] when that expression is a
    take. *)
Definition beforeLoop (self : DistanceVariable) (extension : option (list float))
    (deleteIslands : bool) : result Marching :=
  if negb (sameShape (self_value self)) then Raise ValueError
  else
    let cells := seq 0 (length (self_value self)) in
    value1 <- (if deleteIslands then forCells (deleteIsland (self_value self)) cells
               else Ok (self_value self)) ;;
    signed <- forCells (signedDistance value1) cells ;;
    interfaceFlag <- forCells (interfaceFlagCell value1) cells ;;
    value2 <- unmaskedArray signed ;;
    let ext0 := match extension with
                | Some e => e
                | None => repeat 0 (getNumberOfCells mesh)
                end in
    let positiveInterfaceFlag := whereFlag gt0 value2 interfaceFlag in
    let negativeInterfaceIDs := nonzero (whereFlag lt0 value2 interfaceFlag) in
    ext1 <- negativeInterface value2 positiveInterfaceFlag negativeInterfaceIDs ext0 ;;
    let value3 := match extension with
                  | Some _ => self_tmpValue self
                  | None => value2
                  end in
    hasAdj <- forCells (hasAdjInterface interfaceFlag) cells ;;
    let trialFlag := map (fun fh => negb (fst fh) && snd fh) (combine interfaceFlag hasAdj) in
    seedTrials (nonzero trialFlag)
      {| value := value3; extensionVariable := ext1;
         evaluatedFlag := interfaceFlag; trialIDs := nonzero trialFlag |}.

(** The result is the object after the call and the extension array. *)
Definition _calcDistanceFunction (self : DistanceVariable)
    (extension : option (list float)) (narrowBandWidth : option number)
    (deleteIslands : bool) : option (result (DistanceVariable * list float)) :=
  let narrowBandWidth := match narrowBandWidth with
                         | None => self_narrowBandWidth self
                         | Some w => w
                         end in
  match beforeLoop self extension deleteIslands with
  | Raise e => Some (Raise e)
  | Ok st =>
      match marching (S (length (evaluatedFlag st))) narrowBandWidth st with
      | None => None
      | Some (Raise e) => Some (Raise e)
      | Some (Ok st') =>
          Some (Ok ({| self_value := value st';
                       self_tmpValue := self_tmpValue self;
                       self_narrowBandWidth := self_narrowBandWidth self |},
                    extensionVariable st'))
      end
  end.

Definition calcDistanceFunction (self : DistanceVariable)
    (narrowBandWidth : option number) (deleteIslands : bool)
    : option (result DistanceVariable) :=
  match _calcDistanceFunction self None narrowBandWidth deleteIslands with
  | None => None
  | Some (Raise e) => Some (Raise e)
  | Some (Ok r) => Some (Ok (fst r))
  end.

(** The result is the object after the call and the caller's
    [extensionVariable]. *)
Definition extendVariable (self : DistanceVariable) (extension : list float)
    (deleteIslands : bool) : option (result (DistanceVariable * list float)) :=
  let self1 := {| self_value := self_value self;
                  self_tmpValue := self_value self;
                  self_narrowBandWidth := self_narrowBandWidth self |} in
  match _calcDistanceFunction self1 (Some extension) None deleteIslands with
  | None => None
  | Some (Raise e) => Some (Raise e)
  | Some (Ok r) =>
      Some (Ok ({| self_value := self_tmpValue (fst r);
                   self_tmpValue := self_tmpValue (fst r);
                   self_narrowBandWidth := self_narrowBandWidth (fst r) |},
                snd r))
  end.

(** ** The arrays as objects

    [extendVariable] works on array objects that the caller can see: the
    array bound to [self.value] and the caller's [extensionVariable].  A
    store holds the arrays; a reference is a position in the store.  The
    functions above give the contents; the ones below say which object is
    bound, copied or written. *)

Definition Store : Type := list (list float).

(** A new array object. *)
Definition alloc (h : Store) (a : list float) : Store * nat := (h ++ [a], length h).

(** The contents of an array object. *)
Definition contents (h : Store) (r : nat) : list float := nth r h [].

(** An array object written in place. *)
Fixpoint write (h : Store) (r : nat) (a : list float) : Store :=
  match h, r with
  | [], _ => []
  | _ :: t, O => a :: t
  | x :: t, S r' => x :: write t r' a
  end.

(** The attributes of the object: [self.value] and [self.tmpValue] are
    references. *)
Record Object : Type := {
  obj_value : nat;
  obj_tmpValue : option nat;
  obj_narrowBandWidth : number
}.

(** [_calcDistanceFunction] on objects.  [self.value] is bound to arrays made
    by the call ([signedDistance], [self.tmpValue.copy()],
    [Numeric.array(self.value)]), and [self.value[id] = ...] writes to those;
    the array passed as [extensionVariable] is written in place. *)
Definition _calcDistanceFunction_obj (h : Store) (self : Object)
    (extension : option nat) (narrowBandWidth : option number)
    (deleteIslands : bool) : option (result (Store * Object)) :=
  let self0 := {| self_value := contents h (obj_value self);
                  self_tmpValue := match obj_tmpValue self with
                                   | Some t => contents h t
                                   | None => []
                                   end;
                  self_narrowBandWidth := obj_narrowBandWidth self |} in
  match _calcDistanceFunction self0 (option_map (contents h) extension)
          narrowBandWidth deleteIslands with
  | None => None
  | Some (Raise e) => Some (Raise e)
  | Some (Ok r) =>
      let h1 := match extension with
                | Some x => write h x (snd r)
                | None => h
                end in
      let hv := alloc h1 (self_value (fst r)) in
      Some (Ok (fst hv, {| obj_value := snd hv;
                           obj_tmpValue := obj_tmpValue self;
                           obj_narrowBandWidth := obj_narrowBandWidth self |}))
  end.

(** [extendVariable] on objects. *)
Definition extendVariable_obj (h : Store) (self : Object)
    (extensionVariable : nat) (deleteIslands : bool)
    : option (result (Store * Object)) :=
  (* self.tmpValue = self.value.copy() *)
  let ht := alloc h (contents h (obj_value self)) in
  let self1 := {| obj_value := obj_value self;
                  obj_tmpValue := Some (snd ht);
                  obj_narrowBandWidth := obj_narrowBandWidth self |} in
  (* numericExtensionVariable = Numeric.array(extensionVariable) *)
  let hn := alloc (fst ht) (contents (fst ht) extensionVariable) in
  match _calcDistanceFunction_obj (fst hn) self1 (Some (snd hn)) None deleteIslands with
  | None => None
  | Some (Raise e) => Some (Raise e)
  | Some (Ok r) =>
      let numeric := contents (fst r) (snd hn) in
      if (length numeric =? length (contents (fst r) extensionVariable))%nat then
        (* extensionVariable[:] = numericExtensionVariable *)
        let h' := write (fst r) extensionVariable numeric in
        (* self.value = self.tmpValue *)
        Some (Ok (h', {| obj_value := snd ht;
                         obj_tmpValue := Some (snd ht);
                         obj_narrowBandWidth := obj_narrowBandWidth self |}))
      else Some (Raise ValueError)
  end.

End WithMesh.

(** ** The formulas of the specification *)

Module Spec.

Local Open Scope float_scope.

Section Formulas.

Context {libm : Libm}.

(** [x^2] is Python's [x ** 2]; [inRange x] says that it is not an
    [OverflowError], in place of which [sq x] is the infinity. *)
Definition inRange (x : float) : bool :=
  match pypow2 x with Ok _ => true | Raise _ => false end.

Definition sq (x : float) : float :=
  match pypow2 x with Ok y => y | Raise _ => infinity end.

(** [dotProd = d0 * d1 * cos(theta)] and [crossProd = d0 * d1 * sin(theta)]. *)
Definition dotProd (g : Gathered) (r : Second) : float :=
  d0 g * d1 r * dot (n0 r) (n1 r).

Definition crossProd (g : Gathered) (r : Second) : float :=
  d0 g * d1 r * crossN r.

(** [dsq = d0^2 + d1^2 - 2 * d0 * d1 * cos(theta)]. *)
Definition dsq (g : Gathered) (r : Second) : float :=
  sq (d0 g) + sq (d1 r) - 2 * dotProd g r.

(** [top = -v0 * (dotProd - d1^2) - v1 * (dotProd - d0^2)]. *)
Definition top (g : Gathered) (r : Second) : float :=
  - v0 g * (dotProd g r - sq (d1 r)) - v1 r * (dotProd g r - sq (d0 g)).

(** [disc = crossProd^2 * (dsq - (v0 - v1)^2)]. *)
Definition disc (g : Gathered) (r : Second) : float :=
  sq (crossProd g r) * (dsq g r - sq (v0 g - v1 r)).

(** [dis = (top + sign * sqrt(max(disc, 0))) / dsq]. *)
Definition dis (g : Gathered) (r : Second) : float :=
  (top g r + sign g * PrimFloat.sqrt (pymax0 (disc g r))) / dsq g r.

(** The weight [area * |v - x| / d] of a neighbour, for a distance [x]. *)
Definition weight (area v x d : float) : float := area * abs (v - x) / d.

(** [(e0 * w0 + e1 * w1) / (w0 + w1)]. *)
Definition blend (e0 w0 e1 w1 : float) : float := (e0 * w0 + e1 * w1) / (w0 + w1).

(** The extension estimate with the weights taken at a distance [x]. *)
Definition extensionAt (g : Gathered) (r : Second) (x : float) : float :=
  blend (e0 g) (weight (a0 r) (v0 g) x (d0 g))
        (e1 r) (weight (a1 r) (v1 r) x (d1 r)).

(** [dis] clamped to the side of the cell: [max(dis, 0)] for a positive cell,
    [min(dis, 0)] otherwise. *)
Definition phi (r : Second) (x : float) : float :=
  if gt0 (vid r) then pymax0 x else pymin0 x.

(** The one-neighbour estimate [v0 + sign * d0]. *)
Definition oneNeighbour (g : Gathered) : float := v0 g + sign g * d0 g.

(** The two-neighbour solve is defined: none of its four powers [d0^2],
    [d1^2], [crossProd^2] and [(v0 - v1)^2] is out of range, and none of its
    divisors [dsq], [d0], [d1] and [w0 + w1] is zero, the weights being taken
    at the clamped distance. *)
Definition defined (g : Gathered) (r : Second) : bool :=
  inRange (d0 g) && inRange (d1 r) && inRange (crossProd g r)
  && inRange (v0 g - v1 r)
  && negb (dsq g r =? 0) && negb (d0 g =? 0) && negb (d1 r =? 0)
  && negb (weight (a0 r) (v0 g) (phi r (dis g r)) (d0 g)
           + weight (a1 r) (v1 r) (phi r (dis g r)) (d1 r) =? 0).

(** [s * t / sqrt(s^2 + t^2)] with a sign, the quotient and the root being
    those of [MA] and the powers those of [Numeric]. *)
Definition combined (sign s t : float) : option float :=
  MA.divide (Some (sign * s * t)) (MA.sqrt (Some (pow2 s + pow2 t))).

End Formulas.

(** Every neighbour slot of a cell of [n] cells holds a cell ID below [n]. *)
Definition neighboursInRange (mesh : Mesh) (n : nat) : bool :=
  (length (_getCellToCellIDs mesh) =? n)%nat
  && forallb (forallb (fun o => match o with
                               | Some k => (k <? n)%nat
                               | None => true
                               end)) (_getCellToCellIDs mesh).

(** The unmasked neighbours of cell [i]. *)
Definition neighbours (mesh : Mesh) (i : nat) : list nat :=
  flat_map (fun o => match o with Some k => [k] | None => [] end)
           (nth i (_getCellToCellIDs mesh) []).

(** A positive cell whose every unmasked neighbour is negative. *)
Definition isolatedPositive (mesh : Mesh) (value : list float) (i : nat) : bool :=
  gt0 (nth i value 0)
  && forallb (fun k => lt0 (nth k value 0)) (neighbours mesh i).

(** The number of unmasked neighbours of cell [i] whose value times [v] is
    not positive. *)
Definition notSameSign (mesh : Mesh) (value : list float) (i : nat) (v : float) : nat :=
  length (filter (fun k => negb (0 <? nth k value 0 * v)) (neighbours mesh i)).

End Spec.


(** ** Signs of floating-point values *)

Module Sign.

(** The sign bit of a value is [b], or the value is not a number. *)
Definition signIs (b : bool) (x : spec_float) : Prop :=
  match x with
  | S754_nan => True
  | S754_zero s | S754_infinity s | S754_finite s _ _ => s = b
  end.

Definition hasSign (b : bool) (x : float) : Prop := signIs b (Prim2SF x).

(** [x] is not on the other side of zero than [v]: not negative when [v] is
    positive, not positive otherwise. *)
Definition kept (v x : float) : Prop :=
  (gt0 v = true -> lt0 x = false) /\ (gt0 v = false -> gt0 x = false).

End Sign.

(** ** The meshes of the docstring's tests *)

Module Grid1D.

Local Open Scope float_scope.

(** The neighbours of cell [i] of [nx] cells: the left one, then the right one. *)
Definition ids (nx i : nat) : list (option nat) :=
  [ if (i =? 0)%nat then None else Some (i - 1)%nat ;
    if (S i =? nx)%nat then None else Some (S i) ].

Definition slots {A : Type} (nx : nat) (x : nat -> A) (i : nat) : list (option A) :=
  map (option_map x) (ids nx i).

(** Modelled from the spec: the uniform 1-D mesh of the scenarios, [nx] cells
    of spacing [dx]; the mesh class itself is not part of the sources at
    hand. *)
Definition mesh (dx : float) (nx : nat) : Mesh :=
  let cells := seq 0 nx in
  {| getDim := 1;
     getNumberOfCells := nx;
     _getCellToCellIDs := map (ids nx) cells;
     _getCellToCellIDsFilled :=
       map (fun i => map (fun o => match o with Some k => k | None => i end) (ids nx i)) cells;
     _getCellToCellDistances := map (slots nx (fun _ => dx)) cells;
     _getCellNormals :=
       map (fun i => [ if (i =? 0)%nat then None else Some [-1] ;
                       if (S i =? nx)%nat then None else Some [1] ]) cells;
     _getCellAreas := map (slots nx (fun _ => 1)) cells |}.

End Grid1D.

Module Grid2D.

Local Open Scope float_scope.

(** The neighbours of cell [i] of an [nx] by [ny] grid, in the order of the
    faces of a cell: bottom, right, top, left. *)
Definition ids (nx ny i : nat) : list (option nat) :=
  let x := Nat.modulo i nx in
  let y := Nat.div i nx in
  [ if (y =? 0)%nat then None else Some (i - nx)%nat ;
    if (S x =? nx)%nat then None else Some (S i) ;
    if (S y =? ny)%nat then None else Some (i + nx)%nat ;
    if (x =? 0)%nat then None else Some (i - 1)%nat ].

Definition slots {A : Type} (nx ny : nat) (perFace : list A) (i : nat)
    : list (option A) :=
  map (fun ov => match fst ov with Some _ => Some (snd ov) | None => None end)
      (combine (ids nx ny i) perFace).

(** Modelled from the spec: the uniform 2-D grid of the scenarios, [nx] by
    [ny] cells of size [dx] by [dy]; the mesh class itself is not part of
    the sources at hand. *)
Definition mesh (dx dy : float) (nx ny : nat) : Mesh :=
  let cells := seq 0 (nx * ny) in
  {| getDim := 2;
     getNumberOfCells := nx * ny;
     _getCellToCellIDs := map (ids nx ny) cells;
     _getCellToCellIDsFilled :=
       map (fun i => map (fun o => match o with Some k => k | None => i end)
                         (ids nx ny i)) cells;
     _getCellToCellDistances := map (slots nx ny [dy; dx; dy; dx]) cells;
     _getCellNormals := map (slots nx ny [[0; -1]; [1; 0]; [0; 1]; [-1; 0]]) cells;
     _getCellAreas := map (slots nx ny [dx; dy; dx; dy]) cells |}.

End Grid2D.

(** A variable with the default narrow-band width. *)
Definition newVariable (v : list float) : DistanceVariable :=
  {| self_value := v; self_tmpValue := []; self_narrowBandWidth := PyFloat 1e10 |}.

(** The field of a call that returned. *)
Definition fieldOf (r : option (result DistanceVariable)) : option (list float) :=
  match r with
  | Some (Ok s) => Some (self_value s)
  | _ => None
  end.

(** ** Concrete inputs of the statements *)

Module Inputs.

Local Open Scope float_scope.

(** The power of the scenarios: the rounded square.  The square of a number
    such as 0.25, 9.5 or 10 is itself a binary64 number, which a [pow] that
    is within one unit in the last place returns.  The scenarios take other
    squares only in the extension of the docstring, for the interface value
    of a cell of which the run keeps no more than the sign. *)
Definition rounded : Libm := {| pow2 := fun x => x * x |}.

#[local] Existing Instance rounded.

Definition noGathered : Gathered :=
  {| adjIDs := []; sign := 0; d0 := 0; v0 := 0; e0 := 0; N := 0;
     index0 := 0; index1 := 0; index2 := 0 |}.

Definition noSecond : Second :=
  {| d1 := 0; n0 := []; n1 := []; v1 := 0; crossN := 0; e1 := 0;
     a0 := 0; a1 := 0; vid := 0 |}.

(** The value of a computation that returns, [d] otherwise. *)
Definition unwrap {A : Type} (d : A) (r : result A) : A :=
  match r with Ok a => a | Raise _ => d end.

(** The top right cell of a 2 by 2 grid, its lower and left neighbours
    evaluated. *)
Definition mesh22 : Mesh := Grid2D.mesh 1 1 2 2.
Definition value22 : list float := [-0.5; 0.5; 0.5; 1].
Definition flag22 : list bool := [true; true; true; false].
Definition ext22 : list float := [1; 0.5; 2; 0].
Definition g22 : Gathered := unwrap noGathered (gather mesh22 value22 3 flag22 ext22).
Definition r22 : Second :=
  unwrap noSecond (readTwo mesh22 value22 3 ext22 g22 (index1 g22)).

(** The same cell on a grid of cells of size 1e200. *)
Definition meshHuge : Mesh := Grid2D.mesh 1e200 1e200 2 2.
Definition gHuge : Gathered :=
  unwrap noGathered (gather meshHuge value22 3 flag22 ext22).
Definition rHuge : Second :=
  unwrap noSecond (readTwo meshHuge value22 3 ext22 gHuge (index1 gHuge)).

(** The centre of a 3 by 3 grid of cells of size 1, far from the interface:
    its four neighbours are evaluated, the lower and the right one at the
    value 1e17, the upper and the left one at 2e17. *)
Definition meshFar : Mesh := Grid2D.mesh 1 1 3 3.
Definition valueFar : list float := [0; 1e17; 0; 2e17; 3e17; 1e17; 0; 2e17; 0].
Definition flagFar : list bool :=
  [false; true; false; true; false; true; false; true; false].
Definition extFar : list float := repeat 0 9.
Definition gFar : Gathered :=
  unwrap noGathered (gather meshFar valueFar 4 flagFar extFar).

(** The negative lower left cell of the same grid, with positive evaluated
    neighbours: the two-neighbour distance comes out positive. *)
Definition valueNeg : list float := [-1; 0.5; 2; 1].
Definition flagNeg : list bool := [false; true; true; false].
Definition extNeg : list float := [0; 1; 0; 0].
Definition gNeg : Gathered := unwrap noGathered (gather mesh22 valueNeg 0 flagNeg extNeg).
Definition rNeg : Second :=
  unwrap noSecond (readTwo mesh22 valueNeg 0 extNeg gNeg (index1 gNeg)).

(** A cell of a 1-D mesh with one evaluated neighbour, and one with two. *)
Definition mesh8 : Mesh := Grid1D.mesh 0.5 8.
Definition value8 : list float := [-1; -1; -1; -0.25; 0.25; 1; 1; 1].
Definition flag8 : list bool := [false; false; false; true; true; false; false; false].
Definition ext8 : list float := repeat 0 8.
Definition g8 : Gathered := unwrap noGathered (gather mesh8 value8 5 flag8 ext8).

Definition mesh3 : Mesh := Grid1D.mesh 1 3.
Definition value3 : list float := [-0.5; 1; -0.5].
Definition flag3 : list bool := [true; false; true].
Definition ext3 : list float := repeat 0 3.
Definition g3 : Gathered := unwrap noGathered (gather mesh3 value3 1 flag3 ext3).

(** Seven unit cubes: cell 0 and its six neighbours, towards -x, +x, -y, +y,
    -z and +z in the order of the slots.  The neighbours towards -x, +x, -y
    and +y are evaluated. *)
Definition directions : list (list float) :=
  [ [-1; 0; 0]; [1; 0; 0]; [0; -1; 0]; [0; 1; 0]; [0; 0; -1]; [0; 0; 1] ].
Definition opposite (k : nat) : nat := if Nat.even k then S k else Nat.pred k.
Definition towards {A : Type} (k : nat) (x : A) : list (option A) :=
  map (fun j => if (j =? k)%nat then Some x else None) (seq 0 6).
Definition mesh3D : Mesh :=
  let outer := seq 0 6 in
  {| getDim := 3;
     getNumberOfCells := 7;
     _getCellToCellIDs :=
       map (fun k => Some (S k)) outer
       :: map (fun k => towards (opposite k) 0%nat) outer;
     _getCellToCellIDsFilled :=
       map S outer
       :: map (fun k => map (fun j => if (j =? opposite k)%nat then 0%nat else S k)
                            (seq 0 6)) outer;
     _getCellToCellDistances :=
       repeat (Some 1) 6 :: map (fun k => towards (opposite k) 1) outer;
     _getCellNormals :=
       map Some directions
       :: map (fun k => towards (opposite k) (nth (opposite k) directions [])) outer;
     _getCellAreas :=
       repeat (Some 1) 6 :: map (fun k => towards (opposite k) 1) outer |}.
Definition value3D : list float := [10; 0.5; 0.75; 0.625; 0.875; 1; 1].
Definition flag3D : list bool := [false; true; true; true; true; false; false].
Definition ext3D : list float := [0; 1; 2; 3; 4; 0; 0].
Definition g3D : Gathered := unwrap noGathered (gather mesh3D value3D 0 flag3D ext3D).

(** A positive cell between two negative ones, on a 1-D mesh. *)
Definition field3 : list float := [-1; 1; -1].

(** The centre of a 3 by 3 grid of cells 2 wide and 1 high: the cells below,
    above and to the left of it are negative. *)
Definition mesh33 : Mesh := Grid2D.mesh 2 1 3 3.
Definition field33 : list float := [1; -1; 1; -1; 1; 1; 1; -1; 1].
Definition noCandidates : Candidates :=
  {| cellValue := 0; s := None; t := None; u := None; ns := []; nt := [] |}.
Definition c33 : Candidates := unwrap noCandidates (readCandidates mesh33 field33 4).

(** A 3 by 5 grid with a positive band of three rows between two negative
    rows, and the state of the marching loop when the middle cell of the band
    is reached from both sides. *)
Definition mesh35 : Mesh := Grid2D.mesh 1 1 3 5.
Definition field35 : list float :=
  [-3; -1; -3; 1; 1; 1; 1; 1; 1; 1; 1; 1; -3; -1; -3].
Definition value35 : list float :=
  [-0.75; -0.5; -0.75; 0.25; 0.5; 0.25; 1.25; 1.5; 1.25; 0.25; 0.5; 0.25;
   -0.75; -0.5; -0.75].
Definition flag35 : list bool :=
  [true; true; true; true; true; true; true; false; true; true; true; true;
   true; true; true].
Definition ext35 : list float := repeat 0 15.
Definition g35 : Gathered := unwrap noGathered (gather mesh35 value35 7 flag35 ext35).

(** The state in which the loop starts for the 1-D scenario. *)
Definition field8 : list float := [-1; -1; -1; -1; 1; 1; 1; 1].
Definition noMarching : Marching :=
  {| value := []; extensionVariable := []; evaluatedFlag := []; trialIDs := [] |}.
Definition loop8 : Marching :=
  unwrap noMarching (beforeLoop mesh8 (newVariable field8) None false).


(** The 2 by 2 scenario of the docstring as objects: the distance field is
    array 0 of the store, the extension variable is array 1. *)
Definition store22 : Store :=
  [ [-0.35355339059327373; 0.5; 0.5; 1.2071067811865475]; [-1; 0.5; 2; -1] ].
Definition self22 : Object :=
  {| obj_value := 0; obj_tmpValue := None; obj_narrowBandWidth := PyFloat 1e10 |}.

(** A mesh of five cells of unequal size.  Cell 0 has the neighbours 1, at
    distance 1, and 2, at distance 10, with normals 37 degrees apart; cells 3
    and 4 lie behind cells 1 and 2, at distances 1 and 20. *)
Definition meshSkew : Mesh :=
  {| getDim := 2;
     getNumberOfCells := 5;
     _getCellToCellIDs :=
       [ [Some 1; Some 2; None]; [Some 0; Some 3; None]; [Some 0; Some 4; None];
         [Some 1; None; None]; [Some 2; None; None] ]%nat;
     _getCellToCellIDsFilled :=
       [ [1; 2; 0]; [0; 3; 1]; [0; 4; 2]; [1; 3; 3]; [2; 4; 4] ]%nat;
     _getCellToCellDistances :=
       [ [Some 1; Some 10; None]; [Some 1; Some 1; None]; [Some 10; Some 20; None];
         [Some 1; None; None]; [Some 20; None; None] ];
     _getCellNormals :=
       [ [Some [1; 0]; Some [0.8; 0.6]; None];
         [Some [-1; 0]; Some [1; 0]; None];
         [Some [-0.8; -0.6]; Some [0.8; 0.6]; None];
         [Some [-1; 0]; None; None];
         [Some [-0.8; -0.6]; None; None] ];
     _getCellAreas :=
       [ [Some 1; Some 1; None]; [Some 1; Some 1; None]; [Some 1; Some 1; None];
         [Some 1; None; None]; [Some 1; None; None] ] |}.
Definition fieldSkew : list float := [1; 1; 1; -1; -1].
Definition finalSkew : DistanceVariable :=
  match calcDistanceFunction meshSkew (newVariable fieldSkew) None false with
  | Some (Ok final) => final
  | _ => newVariable []
  end.

End Inputs.

(** ** The interface geometry queries

    [getCellInterfaceAreas] and the functions it rests on.  They read the
    faces of the mesh, which the distance function does not. *)

Module Arrays.

(** [f] on every element, in order. *)
Fixpoint forEach {A B : Type} (f : A -> result B) (l : list A) : result (list B) :=
  match l with
  | [] => Ok []
  | a :: rest => x <- f a ;; r <- forEach f rest ;; Ok (x :: r)
  end.

(** An operation on the elements of two arrays along one axis.  The axes
    have the same length, or one of them has length 1 and its element goes
    with every element of the other; anything else is a [ValueError]. *)
Definition elementwise {A B C : Type} (f : A -> B -> result C)
    (a : list A) (b : list B) : result (list C) :=
  if (length a =? length b)%nat then forEach (fun ab => f (fst ab) (snd ab)) (combine a b)
  else
    match a, b with
    | [x], _ => forEach (f x) b
    | _, [y] => forEach (fun x => f x y) a
    | _, _ => Raise ValueError
    end.

(** [Numeric.repeat(a, n)]: every element of [a] (every row, for an array of
    rows) [n] times. *)
Definition repeatEach {A : Type} (a : list A) (n : nat) : list A :=
  flat_map (fun x => repeat x n) a.

(** [Numeric.resize(a, shape)] on the flat data: the elements of [a], taken
    again from the start as often as needed; zeros when [a] is empty. *)
Definition resize {A : Type} (zero : A) (flat : list A) (size : nat) : list A :=
  match flat with
  | [] => repeat zero size
  | _ :: _ => map (fun i => nth (i mod length flat) flat zero) (seq 0 size)
  end.

(** The flat data as [n] rows of [m] elements. *)
Fixpoint rows {A : Type} (n m : nat) (flat : list A) : list (list A) :=
  match n with
  | O => []
  | S n' => firstn m flat :: rows n' m (skipn m flat)
  end.

(** [Numeric.reshape(a, (n, m))]. *)
Definition reshape {A : Type} (flat : list A) (n m : nat) : result (list (list A)) :=
  if (length flat =? n * m)%nat then Ok (rows n m flat) else Raise ValueError.

(** [Numeric.sum] of floats along one axis. *)
Definition sum (l : list float) : float :=
  match l with
  | [] => 0%float
  | x :: rest => fold_left PrimFloat.add rest x
  end.

(** [Numeric.put(a, indices, zeros)] on the flat data of [a]. *)
Fixpoint putZeros (flat : list float) (indices : list nat) : result (list float) :=
  match indices with
  | [] => Ok flat
  | i :: rest => flat' <- setitem flat i 0%float ;; putZeros flat' rest
  end.

End Arrays.

Import Arrays.

(** What the queries read of the faces of the mesh. *)
Record FaceMesh : Type := {
  _getNumberOfFaces : nat;
  _getMaxFacesPerCell : nat;
  _getAdjacentCellIDs : list nat * list nat;
  _getCellFaceIDs : list (list (option nat));
  _getCellAreaProjections : list (list (list (option float)));
  getExteriorFaceIDs : list nat;
  getExteriorFaces : list nat
}.

Section Queries.

Variable mesh : Mesh.
Variable faces : FaceMesh.

Local Open Scope float_scope.

(** [_getInterfaceFlag]: 1 for the faces between two cells whose values have
    a negative product. *)
Definition _getInterfaceFlag (value : list float) : result (list bool) :=
  val0 <- take value (fst (_getAdjacentCellIDs faces)) ;;
  val1 <- take value (snd (_getAdjacentCellIDs faces)) ;;
  elementwise (fun v1 v0 => Ok (v1 * v0 <? 0)) val1 val0.

(** [Numeric.sum(flag, axis = 1)] on one row of flags taken at the faces of a
    cell, the masked slots filled with 0. *)
Definition countFlags (row : list (option bool)) : nat :=
  length (filter (fun o => match o with Some b => b | None => false end) row).

(** [numerix.MAtake(a, ids)] on one row of masked face IDs.  The masked IDs
    are filled with 0 before the elements are taken, so that a masked slot
    reads element 0 and masks it. *)
Definition MAtakeFilled {A : Type} (a : list A) (ids : list (option nat))
    : result (list (option A)) :=
  forEach (fun o => match o with
                    | None => x <- getitem a 0 ;; Ok None
                    | Some k => x <- getitem a k ;; Ok (Some x)
                    end) ids.

(** [_getCellInterfaceFlag]: 1 for the positive cells with a flagged face. *)
Definition _getCellInterfaceFlag (value : list float) : result (list bool) :=
  interfaceFlag <- _getInterfaceFlag value ;;
  flag <- forEach (fun ids => r <- MAtakeFilled interfaceFlag ids ;; Ok (countFlags r))
            (_getCellFaceIDs faces) ;;
  elementwise (fun v f => Ok (gt0 v && (0 <? f)%nat)) value flag.

(** [_getCellValueOverFaces]: the value of each cell, once per face. *)
Definition _getCellValueOverFaces (value : list float) : result (list (list float)) :=
  reshape (repeatEach value (_getMaxFacesPerCell faces))
          (getNumberOfCells mesh) (_getMaxFacesPerCell faces).

(** [_getLevelSetNormals].  [faceGrad] is
    [self.getGrad().getArithmeticFaceValue()], one row per face, and
    [faceGradMag] is its [getMag()]; both come from the variable's
    gradient. *)
Definition _getLevelSetNormals (faceGrad : list (list float)) (faceGradMag : list float)
    : result (list (list float)) :=
  let faceGradMag := map (fun m => if 1e-10 <? m then m else 1e-10) faceGradMag in
  let dim := getDim mesh in
  exteriorFaces <-
    elementwise (fun id ks => Ok (map (fun k => (id * dim + k)%nat) ks))
      (getExteriorFaceIDs faces)
      (rows (length (getExteriorFaces faces)) dim
            (resize O (seq 0 dim) (length (getExteriorFaces faces) * dim))) ;;
  flat <- putZeros (concat faceGrad) (concat exteriorFaces) ;;
  let faceGrad := rows (length faceGrad) (length (hd [] faceGrad)) flat in
  elementwise (fun g m => elementwise (fun x y => Ok (x / y)) g [m]) faceGrad faceGradMag.

(** [_getInterfaceNormals]: the level-set normals on the flagged faces, zero
    on the others. *)
Definition _getInterfaceNormals (value : list float)
    (faceGrad : list (list float)) (faceGradMag : list float)
    : result (list (list float)) :=
  let N := _getNumberOfFaces faces in
  let M := getDim mesh in
  flag <- _getInterfaceFlag value ;;
  let interfaceFlag := rows N M (resize false (repeatEach flag M) (N * M)) in
  normals <- _getLevelSetNormals faceGrad faceGradMag ;;
  elementwise (elementwise (fun (f : bool) x => Ok (if f then x else 0)))
    interfaceFlag normals.

(** [numerix.MAtake] of an array of rows at the masked face IDs of one cell:
    a masked slot reads row 0 and masks its elements. *)
Definition MAtakeRows (a : list (list float)) (ids : list (option nat))
    : result (list (list (option float))) :=
  forEach (fun o => match o with
                    | None => row <- getitem a 0 ;; Ok (map (fun _ => None) row)
                    | Some k => row <- getitem a k ;; Ok (map Some row)
                    end) ids.

(** [_getCellInterfaceNormals]: the interface normals at the faces of each
    cell, zero for the cells of negative value. *)
Definition _getCellInterfaceNormals (value : list float)
    (faceGrad : list (list float)) (faceGradMag : list float)
    : result (list (list (list (option float)))) :=
  let N := getNumberOfCells mesh in
  let M := _getMaxFacesPerCell faces in
  let dim := getDim mesh in
  overFaces <- _getCellValueOverFaces value ;;
  let valueOverFaces :=
    map (rows M dim)
        (rows N (M * dim)
              (resize 0 (concat (repeatEach overFaces dim)) (N * M * dim))) in
  normals <- _getInterfaceNormals value faceGrad faceGradMag ;;
  interfaceNormals <- forEach (MAtakeRows normals) (_getCellFaceIDs faces) ;;
  elementwise
    (elementwise
       (elementwise (fun v n => Ok (if v <? 0 then Some 0 else n))))
    valueOverFaces interfaceNormals.

(** [a.filled(fill_value = 0)] on an array of rows of rows. *)
Definition filled3 (a : list (list (list (option float)))) : list (list (list float)) :=
  map (map (map (fun x => match x with Some v => v | None => 0 end))) a.

(** [getCellInterfaceAreas]: for each cell, the sum over its faces of
    [abs(dot(normal, area projection))]. *)
Definition getCellInterfaceAreas (value : list float)
    (faceGrad : list (list float)) (faceGradMag : list float)
    : result (list float) :=
  cellNormals <- _getCellInterfaceNormals value faceGrad faceGradMag ;;
  let normals := filled3 cellNormals in
  let areas := filled3 (_getCellAreaProjections faces) in
  products <- elementwise (elementwise (elementwise (fun n a => Ok (n * a))))
                normals areas ;;
  Ok (map (fun cell => Arrays.sum (map (fun face => abs (Arrays.sum face)) cell))
          products).

End Queries.

(** ** The mask of the constraints

    [_ConstraintMaskVariable._calcValue] of constraintMask.py.  The variable
    has rank 0, so that its shape is one length, and the [where] of each
    constraint is an array of booleans along that axis. *)

Module ConstraintMask.

(** The loop over [self.var.constraints], from the mask so far. *)
Fixpoint constraintsLoop (returnMask : list bool) (constraints : list (list bool))
    : result (list bool) :=
  match constraints with
  | [] => Ok returnMask
  | where_ :: rest =>
      returnMask <- elementwise (fun a b => Ok (a || b)) returnMask where_ ;;
      constraintsLoop returnMask rest
  end.

Definition _calcValue (shape : nat) (constraints : list (list bool)) : result (list bool) :=
  constraintsLoop (repeat false shape) constraints.

End ConstraintMask.

(** ** Further concrete inputs *)

Module MoreInputs.

Import Inputs.

#[local] Existing Instance rounded.

Local Open Scope float_scope.

(** The first cell of the 1-D mesh, none of whose neighbours is evaluated. *)
Definition gNone : Gathered := unwrap noGathered (gather mesh8 value8 0 flag8 ext8).

(** The 1-D scenario after the pass, and a field without a sign change. *)
Definition final8 : DistanceVariable :=
  match calcDistanceFunction mesh8 (newVariable field8) None false with
  | Some (Ok final) => final
  | _ => newVariable []
  end.
Definition fieldFlat : list float := [1; 1; 1; 1; 1; 1; 1; 1].
Definition finalFlat : DistanceVariable :=
  match calcDistanceFunction mesh8 (newVariable fieldFlat) None false with
  | Some (Ok final) => final
  | _ => newVariable []
  end.

(** The state in which the loop of the 1-D scenario ends. *)
Definition loopEnd8 : Marching :=
  match marching mesh8 9 (PyFloat 1e10) loop8 with
  | Some (Ok st) => st
  | _ => noMarching
  end.

(** The extension of the docstring on the 2 by 2 grid. *)
Definition self22v : DistanceVariable :=
  newVariable [-0.35355339059327373; 0.5; 0.5; 1.2071067811865475].
Definition extension22 : list float := [-1; 0.5; 2; -1].
Definition extended22 : DistanceVariable * list float :=
  match extendVariable mesh22 self22v extension22 false with
  | Some (Ok r) => r
  | _ => (newVariable [], [])
  end.

End MoreInputs.

(** The inputs of the docstrings of the interface queries: the 2 by 2 grid of
    spacing 0.5, its faces, and the face gradient of the value
    (-0.5, 0.5, 0.5, 1.5). *)

Module QueryInputs.

Import Inputs.

Local Open Scope float_scope.

Definition meshQ : Mesh := Grid2D.mesh 0.5 0.5 2 2.

(** The horizontal faces 0 to 5 from the bottom row up, then the vertical
    faces 6 to 11; the faces of a cell are its bottom, right, top and left
    one. *)
Definition faces22 : FaceMesh :=
  {| _getNumberOfFaces := 12;
     _getMaxFacesPerCell := 4;
     _getAdjacentCellIDs :=
       ([0; 1; 0; 1; 2; 3; 0; 0; 1; 2; 2; 3], [0; 1; 2; 3; 2; 3; 0; 1; 1; 2; 3; 3])%nat;
     _getCellFaceIDs :=
       [ [Some 0; Some 7; Some 2; Some 6]; [Some 1; Some 8; Some 3; Some 7];
         [Some 2; Some 10; Some 4; Some 9]; [Some 3; Some 11; Some 5; Some 10] ]%nat;
     _getCellAreaProjections :=
       repeat [ [Some 0; Some (-0.5)]; [Some 0.5; Some 0];
                [Some 0; Some 0.5]; [Some (-0.5); Some 0] ] 4;
     getExteriorFaceIDs := [0; 1; 4; 5; 6; 8; 9; 11]%nat;
     getExteriorFaces := [0; 1; 4; 5; 6; 8; 9; 11]%nat |}.

Definition valueQ : list float := [-0.5; 0.5; 0.5; 1.5].
Definition faceGradQ : list (list float) := repeat [1; 1] 12.
Definition faceGradMagQ : list float := repeat (sqrt 2) 12.

Definition flagQ : list bool := unwrap [] (_getInterfaceFlag faces22 valueQ).
Definition cellFlagQ : list bool := unwrap [] (_getCellInterfaceFlag faces22 valueQ).
Definition levelSetNormalsQ : list (list float) :=
  unwrap [] (_getLevelSetNormals meshQ faces22 faceGradQ faceGradMagQ).
Definition interfaceNormalsQ : list (list float) :=
  unwrap [] (_getInterfaceNormals meshQ faces22 valueQ faceGradQ faceGradMagQ).
Definition cellNormalsQ : list (list (list (option float))) :=
  unwrap [] (_getCellInterfaceNormals meshQ faces22 valueQ faceGradQ faceGradMagQ).
Definition areasQ : list float :=
  unwrap [] (getCellInterfaceAreas meshQ faces22 valueQ faceGradQ faceGradMagQ).

(** A face list that names a cell the value does not have. *)
Definition facesBeyond : FaceMesh :=
  {| _getNumberOfFaces := 2;
     _getMaxFacesPerCell := 2;
     _getAdjacentCellIDs := ([0; 1], [1; 4])%nat;
     _getCellFaceIDs := [];
     _getCellAreaProjections := [];
     getExteriorFaceIDs := [];
     getExteriorFaces := [] |}.

(** Two constraints on a variable of four cells, and one of another
    shape. *)
Definition constraints4 : list (list bool) :=
  [ [true; false; false; false]; [false; false; true; false] ].
Definition constraintsShape : list (list bool) :=
  [ [true; false; false; false]; [false; true; false] ].

End QueryInputs.

(** * Properties *)

Unset Implicit Arguments.

(** ** Tactics for the error monad *)

Lemma bind_Ok_inv (A B : Type) (m : result A) (k : A -> result B) (b : B) :
  bind m k = Ok b -> exists a, m = Ok a /\ k a = Ok b.
Proof.
  destruct m as [a | e]; simpl; intro H; [ exists a; auto | discriminate ].
Qed.

Ltac inv_binds H :=
  repeat match type of H with
         | bind ?m _ = Ok _ =>
             let E := fresh "E" in
             destruct m eqn:E; cbn [bind] in H; [ | discriminate H ]
         end.

(** Runs the binds of the goal whose outcome is a hypothesis, and the
    divisions whose divisor is known not to be zero. *)
Ltac run_binds :=
  repeat (cbn [bind];
          match goal with
          | H : ?m = Ok _ |- context [bind ?m _] => rewrite H
          | H : (?y =? 0)%float = false |- context [pydiv _ ?y] =>
              unfold pydiv at 1; rewrite H
          end);
  cbn [bind].

(** What raises [Error] is the solver's own [raise]: neither an index nor a
    division does. *)
Lemma bind_no_Error (A B : Type) (m : result A) (k : A -> result B) :
  m <> Raise Error -> (forall a, k a <> Raise Error) -> bind m k <> Raise Error.
Proof.
  intros Hm Hk. destruct m as [a | e]; cbn; [ apply Hk | ].
  intro H. apply Hm. injection H as ->. reflexivity.
Qed.

Lemma getitem_no_Error (A : Type) (l : list A) (i : nat) :
  getitem l i <> Raise Error.
Proof. unfold getitem. destruct (nth_error l i); discriminate. Qed.

Lemma pydiv_no_Error (x y : float) : pydiv x y <> Raise Error.
Proof. unfold pydiv. destruct (y =? 0)%float; discriminate. Qed.

(** A power raises nothing but [OverflowError]. *)
Lemma pypow2_Raise {libm : Libm} (x : float) (e : exn) :
  pypow2 x = Raise e -> e = OverflowError.
Proof.
  unfold pypow2.
  repeat match goal with
         | |- context [if ?c then _ else _] => destruct c
         end; intro H; try discriminate; injection H as <-; reflexivity.
Qed.

Lemma pypow2_no_Error {libm : Libm} (x : float) : pypow2 x <> Raise Error.
Proof. intro H. apply pypow2_Raise in H. discriminate. Qed.

Lemma inRange_true {libm : Libm} (x : float) :
  Spec.inRange x = true -> pypow2 x = Ok (Spec.sq x).
Proof.
  unfold Spec.inRange, Spec.sq. destruct (pypow2 x); [ reflexivity | discriminate ].
Qed.

Lemma inRange_false {libm : Libm} (x : float) :
  Spec.inRange x = false -> pypow2 x = Raise OverflowError.
Proof.
  unfold Spec.inRange. destruct (pypow2 x) as [y | e] eqn:E; [ discriminate | ].
  intros _. rewrite (pypow2_Raise _ _ E). reflexivity.
Qed.

Ltac no_Error :=
  repeat first
    [ apply getitem_no_Error
    | apply pydiv_no_Error
    | apply pypow2_no_Error
    | apply bind_no_Error; [ | intro ]
    | discriminate ].

(** ** Loops over cells *)

Lemma forCells_Forall2 (A : Type) (f : nat -> result A) (ids : list nat) (l : list A) :
  forCells f ids = Ok l -> Forall2 (fun i x => f i = Ok x) ids l.
Proof.
  revert l. induction ids as [ | i ids IH ]; intros l H; cbn in H.
  - injection H as <-. constructor.
  - inv_binds H. injection H as <-. constructor; auto.
Qed.

Lemma forCells_returns (A : Type) (f : nat -> result A) (ids : list nat) :
  Forall (fun i => returns (f i)) ids -> returns (forCells f ids).
Proof.
  induction 1 as [ | i ids [x Hx] _ [l Hl] ]; cbn.
  - exists []. reflexivity.
  - rewrite Hx. cbn. rewrite Hl. cbn. eexists. reflexivity.
Qed.

Lemma Forall2_nth_error (A B : Type) (P : A -> B -> Prop) (l1 : list A) (l2 : list B) :
  Forall2 P l1 l2 ->
  forall i x, nth_error l2 i = Some x -> exists a, nth_error l1 i = Some a /\ P a x.
Proof.
  induction 1 as [ | a b l1 l2 Hab _ IH ]; intros [ | i ] x Hx; cbn in *;
    try discriminate.
  - injection Hx as <-. exists a. auto.
  - apply IH. exact Hx.
Qed.

Lemma nth_error_seq_Some (a n i k : nat) :
  nth_error (seq a n) i = Some k -> k = (a + i)%nat /\ (i < n)%nat.
Proof.
  revert a i. induction n as [ | n IH ]; intros a [ | i ] H; cbn in *;
    try discriminate.
  - injection H as <-. lia.
  - apply IH in H. lia.
Qed.

Lemma forCells_seq (A : Type) (f : nat -> result A) (n : nat) (l : list A) :
  forCells f (seq 0 n) = Ok l ->
  length l = n /\ forall i x, nth_error l i = Some x -> f i = Ok x.
Proof.
  intro H. apply forCells_Forall2 in H. split.
  - rewrite <- (Forall2_length H). apply length_seq.
  - intros i x Hx.
    destruct (Forall2_nth_error _ _ _ _ _ H _ _ Hx) as (k & Hk & Hf).
    apply nth_error_seq_Some in Hk. destruct Hk as [-> _]. exact Hf.
Qed.

Lemma getitem_Ok (A : Type) (l : list A) (i : nat) (x : A) :
  getitem l i = Ok x <-> nth_error l i = Some x.
Proof.
  unfold getitem. destruct (nth_error l i); split; intro H;
    try discriminate; injection H as <-; reflexivity.
Qed.

Lemma getitem_lt (A : Type) (l : list A) (i : nat) :
  (i < length l)%nat -> exists x, getitem l i = Ok x.
Proof.
  intro H. unfold getitem. destruct (nth_error l i) eqn:E.
  - eexists. reflexivity.
  - apply nth_error_None in E. lia.
Qed.

(** ** The trial value solver *)

Section TrialValue.

Context {libm : Libm}.

Variable mesh : Mesh.
Variables (value : list float) (id : nat).
Variables (evaluatedFlag : list bool) (extensionVariable : list float).

Local Open Scope float_scope.

Local Notation "'solve'" :=
  (_calcTrialValue mesh value id evaluatedFlag extensionVariable).
Local Notation "'gathered'" :=
  (gather mesh value id evaluatedFlag extensionVariable).

Lemma solve_gathered (g : Gathered) :
  gathered = Ok g ->
  solve = (r <- degenerate mesh id g ;;
           match fst r with
           | 0%nat => Raise Error
           | 1%nat => Ok (v0 g + sign g * d0 g, e0 g)
           | _ => twoNeighbours mesh value id extensionVariable g (snd r)
           end).
Proof. intro Hg. unfold _calcTrialValue. rewrite Hg. reflexivity. Qed.

(** The two-neighbour branch returns the distance of the specification and
    the blend weighted at the clamped distance, when it is defined: when no
    power is out of range and no divisor is zero. *)
Lemma twoNeighbours_readTwo (g : Gathered) (i1 : nat) (r : Second) :
  readTwo mesh value id extensionVariable g i1 = Ok r ->
  Spec.defined g r = true ->
  twoNeighbours mesh value id extensionVariable g i1
  = Ok (Spec.dis g r, Spec.extensionAt g r (Spec.phi r (Spec.dis g r))).
Proof.
  intros Hr Hdef. unfold Spec.defined in Hdef.
  repeat (apply andb_prop in Hdef; destruct Hdef as [Hdef ?]).
  repeat match goal with
         | H : negb _ = true |- _ => apply negb_true_iff in H
         | H : Spec.inRange _ = true |- _ => apply inRange_true in H
         end.
  unfold readTwo in Hr. inv_binds Hr. injection Hr as <-.
  unfold Spec.dis, Spec.top, Spec.disc, Spec.dsq, Spec.crossProd, Spec.dotProd,
    Spec.extensionAt, Spec.blend, Spec.weight, Spec.phi in *.
  cbn [d1 n0 n1 v1 crossN e1 a0 a1 vid] in *.
  unfold twoNeighbours. cbv zeta. run_binds. reflexivity.
Qed.

(** Otherwise it raises: [OverflowError] at the first power that is out of
    range, [ZeroDivisionError] at the first divisor that is zero. *)
Lemma twoNeighbours_undefined (g : Gathered) (i1 : nat) (r : Second) :
  readTwo mesh value id extensionVariable g i1 = Ok r ->
  Spec.defined g r = false ->
  twoNeighbours mesh value id extensionVariable g i1 = Raise OverflowError
  \/ twoNeighbours mesh value id extensionVariable g i1 = Raise ZeroDivisionError.
Proof.
  intros Hr Hdef.
  enough (match twoNeighbours mesh value id extensionVariable g i1 with
          | Ok _ => False
          | Raise e => e = OverflowError \/ e = ZeroDivisionError
          end) as H.
  { destruct (twoNeighbours mesh value id extensionVariable g i1) as [ x | e ];
      [ contradiction | ].
    destruct H as [-> | ->]; [ left | right ]; reflexivity. }
  unfold readTwo in Hr. inv_binds Hr. injection Hr as <-.
  unfold Spec.defined, Spec.dis, Spec.top, Spec.disc, Spec.dsq, Spec.crossProd,
    Spec.dotProd, Spec.weight, Spec.phi in Hdef.
  cbn [d1 n0 n1 v1 crossN e1 a0 a1 vid] in Hdef.
  unfold twoNeighbours. cbv zeta. run_binds.
  repeat match goal with
         | |- context [pypow2 ?x] =>
             destruct (Spec.inRange x) eqn:?;
             [ rewrite (inRange_true x) by assumption; cbn [bind]
             | rewrite (inRange_false x) by assumption; left; reflexivity ]
         end.
  repeat match goal with
         | |- context [pydiv _ ?y] =>
             unfold pydiv at 1; destruct (y =? 0) eqn:?; cbn [bind];
             [ right; reflexivity | run_binds ]
         end.
  repeat match goal with
         | H : Spec.inRange _ = true |- _ => rewrite H in Hdef; clear H
         | H : (_ =? 0) = false |- _ => rewrite H in Hdef; clear H
         end.
  discriminate Hdef.
Qed.

Lemma twoNeighbours_no_Error (g : Gathered) (i1 : nat) :
  twoNeighbours mesh value id extensionVariable g i1 <> Raise Error.
Proof. unfold twoNeighbours, getitem2, cross2. cbv zeta. no_Error. Qed.

Lemma degenerate_keeps (g : Gathered) (c : float) :
  (2 <= N g)%nat ->
  crossNormals mesh id g = Ok c ->
  (abs c <? 0.1) = false ->
  degenerate mesh id g = Ok (N g, index1 g).
Proof.
  intros HN Hc Hnd. unfold degenerate.
  destruct (Nat.ltb_spec 1 (N g)) as [_ | H]; [ | lia ].
  rewrite Hc. cbn [bind]. rewrite Hnd. reflexivity.
Qed.

Lemma degenerate_two (g : Gathered) (c : float) :
  N g = 2%nat ->
  crossNormals mesh id g = Ok c ->
  (abs c <? 0.1) = true ->
  degenerate mesh id g = Ok (1%nat, index1 g).
Proof.
  intros HN Hc Hd. unfold degenerate. rewrite HN, Hc. cbn. rewrite Hd. reflexivity.
Qed.

Lemma degenerate_one (g : Gathered) :
  (N g <= 1)%nat -> degenerate mesh id g = Ok (N g, index1 g).
Proof.
  intro HN. unfold degenerate.
  destruct (Nat.ltb_spec 1 (N g)) as [H | _]; [ lia | reflexivity ].
Qed.

(** C2, as amended: with at least two evaluated neighbours and
    non-degenerate normals of the two nearest ones (2-D, the magnitude of the
    cross product not below 0.1), the solver returns
    [dis = (top + sign * sqrt(max(disc, 0))) / dsq] when the solve is defined:
    when none of the powers [d0^2], [d1^2], [crossProd^2], [(v0 - v1)^2] is
    out of range and none of the divisors [dsq], [d0], [d1], [w0 + w1] is
    zero.  When it is not defined the solver raises [OverflowError] or
    [ZeroDivisionError].  With exactly one evaluated neighbour, or exactly two
    with degenerate normals, it returns the one-neighbour estimate
    [v0 + sign * d0]. *)
Theorem trial_value_distance (g : Gathered) :
  gathered = Ok g ->
  (forall (c : float) (r : Second),
      (2 <= N g)%nat ->
      getDim mesh = 2%nat ->
      crossNormals mesh id g = Ok c ->
      (abs c <? 0.1) = false ->
      readTwo mesh value id extensionVariable g (index1 g) = Ok r ->
      (Spec.defined g r = true -> exists ext, solve = Ok (Spec.dis g r, ext))
      /\ (Spec.defined g r = false ->
          solve = Raise OverflowError \/ solve = Raise ZeroDivisionError))
  /\ (N g = 1%nat -> exists ext, solve = Ok (Spec.oneNeighbour g, ext))
  /\ (forall c : float,
        N g = 2%nat ->
        crossNormals mesh id g = Ok c ->
        (abs c <? 0.1) = true ->
        exists ext, solve = Ok (Spec.oneNeighbour g, ext)).
Proof.
  intro Hg. rewrite (solve_gathered g Hg). split; [ | split ].
  - intros c r HN _ Hc Hnd Hr.
    rewrite (@degenerate_keeps g c HN Hc Hnd). cbn [bind fst snd].
    destruct (N g) as [ | [ | n ] ]; [ lia | lia | ]. split; intro Hdef.
    + rewrite (@twoNeighbours_readTwo g (index1 g) r Hr Hdef).
      eexists. reflexivity.
    + exact (@twoNeighbours_undefined g (index1 g) r Hr Hdef).
  - intro HN. rewrite degenerate_one by lia. cbn [bind fst]. rewrite HN.
    eexists. reflexivity.
  - intros c HN Hc Hd. rewrite (@degenerate_two g c HN Hc Hd). cbn [bind fst].
    eexists. reflexivity.
Qed.

Lemma take_length (A : Type) (l : list A) (ids : list nat) (r : list A) :
  take l ids = Ok r -> length r = length ids.
Proof.
  revert r. induction ids as [ | i ids IH ]; intros r H; cbn in H.
  - injection H as <-. reflexivity.
  - inv_binds H. injection H as <-. cbn. f_equal. apply IH. reflexivity.
Qed.

Lemma count_le_length (fl : list bool) : (count fl <= length fl)%nat.
Proof. unfold count. apply filter_length_le. Qed.

Lemma gathered_N_le (g : Gathered) :
  gathered = Ok g -> (N g <= length (adjIDs g))%nat.
Proof.
  intro Hg. unfold gather in Hg. inv_binds Hg. injection Hg as <-. cbn [N adjIDs].
  match goal with
  | H : take evaluatedFlag _ = Ok ?fl |- _ =>
      rewrite <- (take_length _ _ _ _ H); apply count_le_length
  end.
Qed.

(** The solver raises [Error] exactly when no neighbour is evaluated. *)
Lemma raise_Error_iff (g : Gathered) (c : float) :
  gathered = Ok g ->
  crossNormals mesh id g = Ok c ->
  (solve = Raise Error <-> N g = 0%nat).
Proof.
  intros Hg Hc. rewrite (solve_gathered g Hg). unfold degenerate. rewrite Hc.
  cbn [bind]. split.
  - destruct (N g) as [ | [ | [ | [ | n ] ] ] ]; cbn; try reflexivity;
      destruct (abs c <? 0.1); cbn; try discriminate;
      intro H; exfalso; revert H; apply twoNeighbours_no_Error.
  - intros ->. reflexivity.
Qed.

(** C9, as amended: when the solver uses two neighbours it returns exactly
    when the solve is defined (no power out of range, no divisor zero), and
    the extension estimate it returns is [(e0 * w0 + e1 * w1) / (w0 + w1)]
    with the weights [w_i = area_i * |v_i - phi| / d_i] taken at [phi], the
    two-neighbour distance clamped to the side of the cell ([max(dis, 0)] for
    a positive cell, [min(dis, 0)] otherwise); when one neighbour
    contributes, it is that neighbour's extension value [e0]. *)
Theorem trial_value_extension (g : Gathered) (n i1 : nat) :
  gathered = Ok g ->
  degenerate mesh id g = Ok (n, i1) ->
  (forall r : Second,
      (2 <= n)%nat ->
      readTwo mesh value id extensionVariable g i1 = Ok r ->
      (Spec.defined g r = true ->
       exists dis,
         solve = Ok (dis, Spec.extensionAt g r (Spec.phi r (Spec.dis g r))))
      /\ (forall dis ext,
            solve = Ok (dis, ext) ->
            Spec.defined g r = true
            /\ ext = Spec.extensionAt g r (Spec.phi r (Spec.dis g r))))
  /\ (n = 1%nat -> exists dis, solve = Ok (dis, e0 g)).
Proof.
  intros Hg Hd. rewrite (solve_gathered g Hg), Hd. cbn [bind fst snd]. split.
  - intros r Hn Hr.
    destruct n as [ | [ | n ] ]; [ lia | lia | ]. split.
    + intro Hdef. rewrite (@twoNeighbours_readTwo g i1 r Hr Hdef).
      eexists. reflexivity.
    + intros dis ext Hsolve. destruct (Spec.defined g r) eqn:Hdef.
      * rewrite (@twoNeighbours_readTwo g i1 r Hr Hdef) in Hsolve.
        injection Hsolve as _ <-. split; reflexivity.
      * destruct (@twoNeighbours_undefined g i1 r Hr Hdef) as [H | H];
          rewrite H in Hsolve; discriminate.
  - intros ->. eexists. reflexivity.
Qed.

(** C10, as amended: on a mesh whose dimension is not 2 the cross product
    is 0.0, below the threshold 0.1.  A cell with one or two evaluated
    neighbours gets the one-neighbour estimate [v0 + sign * d0] and the
    extension value [e0]; so does every cell with at most two neighbour slots
    and an evaluated neighbour, as on a 1-D mesh.  With three evaluated
    neighbours the two-neighbour solve runs on the nearest one and the one
    at [indices[dim]]; with four or more it runs on the two nearest ones. *)
Theorem trial_value_not_2D (g : Gathered) (c : float) :
  getDim mesh <> 2%nat ->
  gathered = Ok g ->
  crossNormals mesh id g = Ok c ->
  c = 0 /\ (abs c <? 0.1) = true
  /\ (N g = 1%nat \/ N g = 2%nat -> solve = Ok (Spec.oneNeighbour g, e0 g))
  /\ ((length (adjIDs g) <= 2)%nat -> (1 <= N g)%nat ->
      solve = Ok (Spec.oneNeighbour g, e0 g))
  /\ (N g = 3%nat ->
      solve = twoNeighbours mesh value id extensionVariable g (index2 g))
  /\ ((4 <= N g)%nat ->
      solve = twoNeighbours mesh value id extensionVariable g (index1 g)).
Proof.
  intros Hdim Hg Hc.
  assert (c = 0) as ->.
  { unfold crossNormals in Hc. inv_binds Hc.
    destruct (Nat.eqb_spec (getDim mesh) 2) as [H | _]; [ contradiction | ].
    injection Hc as <-. reflexivity. }
  split; [ reflexivity | ]. split; [ reflexivity | ].
  pose proof (gathered_N_le g Hg) as Hle.
  rewrite (solve_gathered g Hg).
  match goal with
  | |- (_ -> ?m = _) /\ _ =>
      assert (N g = 1%nat \/ N g = 2%nat -> m = Ok (Spec.oneNeighbour g, e0 g))
        as Hsmall
  end.
  { intros [H1 | H2].
    - rewrite degenerate_one by lia. cbn [bind fst]. rewrite H1. reflexivity.
    - rewrite (@degenerate_two g 0 H2 Hc) by reflexivity. reflexivity. }
  split; [ exact Hsmall | ]. split; [ intros; apply Hsmall; lia | ].
  unfold degenerate. rewrite Hc. cbn [bind]. split.
  - intros ->. reflexivity.
  - intro HN. destruct (N g) as [ | [ | [ | [ | n ] ] ] ]; try lia. reflexivity.
Qed.

End TrialValue.

Import Inputs.

Local Open Scope float_scope.

Section DocstringScenario.

Context {libm : Libm}.

(** C1: the 1-D scenario of the docstring.  Eight cells of spacing 0.5 and
    the field (-1, -1, -1, -1, 1, 1, 1, 1): [calcDistanceFunction] with the
    default narrow-band width and without [deleteIslands] turns the field
    into (-1.75, -1.25, -0.75, -0.25, 0.25, 0.75, 1.25, 1.75). *)
Theorem distance_1D_8_cells :
  fieldOf (calcDistanceFunction (Grid1D.mesh 0.5 8)
             (newVariable [-1; -1; -1; -1; 1; 1; 1; 1]) None false)
  = Some [-1.75; -1.25; -0.75; -0.25; 0.25; 0.75; 1.25; 1.75].
Proof. vm_compute. reflexivity. Qed.

End DocstringScenario.

Section TrialValueScenarios.

#[local] Existing Instance rounded.

Lemma trial_value_distance_witness :
  (exists ext, _calcTrialValue mesh22 value22 3 flag22 ext22 = Ok (Spec.dis g22 r22, ext))
  /\ (_calcTrialValue meshHuge value22 3 flag22 ext22 = Raise OverflowError
      \/ _calcTrialValue meshHuge value22 3 flag22 ext22 = Raise ZeroDivisionError)
  /\ (exists ext, _calcTrialValue mesh8 value8 5 flag8 ext8 = Ok (Spec.oneNeighbour g8, ext))
  /\ (exists ext, _calcTrialValue mesh3 value3 1 flag3 ext3 = Ok (Spec.oneNeighbour g3, ext)).
Proof.
  split; [ | split; [ | split ] ].
  - assert (gather mesh22 value22 3 flag22 ext22 = Ok g22) as Hg
      by (vm_compute; reflexivity).
    apply (proj1 (proj1 (@trial_value_distance _ _ _ _ _ _ _ Hg) (-1) r22
                        ltac:(vm_compute; lia) ltac:(reflexivity)
                        ltac:(vm_compute; reflexivity) ltac:(vm_compute; reflexivity)
                        ltac:(vm_compute; reflexivity))).
    vm_compute. reflexivity.
  - assert (gather meshHuge value22 3 flag22 ext22 = Ok gHuge) as Hg
      by (vm_compute; reflexivity).
    apply (proj2 (proj1 (@trial_value_distance _ _ _ _ _ _ _ Hg) (-1) rHuge
                        ltac:(vm_compute; lia) ltac:(reflexivity)
                        ltac:(vm_compute; reflexivity) ltac:(vm_compute; reflexivity)
                        ltac:(vm_compute; reflexivity))).
    vm_compute. reflexivity.
  - assert (gather mesh8 value8 5 flag8 ext8 = Ok g8) as Hg
      by (vm_compute; reflexivity).
    apply (proj1 (proj2 (@trial_value_distance _ _ _ _ _ _ _ Hg))). vm_compute. reflexivity.
  - assert (gather mesh3 value3 1 flag3 ext3 = Ok g3) as Hg
      by (vm_compute; reflexivity).
    apply (proj2 (proj2 (@trial_value_distance _ _ _ _ _ _ _ Hg)) 0); vm_compute; reflexivity.
Defined.

(** C2, as stated, fails: on a 2 by 2 grid of cells of size 1e200 the top
    right cell has two evaluated neighbours with perpendicular normals, and
    the solver returns no distance: [d0 ** 2] is an [OverflowError].  At the
    centre of a 3 by 3 grid of cells of size 1, with the two nearest
    neighbours at the value 1e17, the distance [(2e17 + sqrt 2) / 2] is 1e17
    again, both weights of the extension value are zero, and the solver
    raises [ZeroDivisionError]. *)
Lemma trial_value_undefined_counterexample :
  (gather meshHuge value22 3 flag22 ext22 = Ok gHuge
   /\ N gHuge = 2%nat
   /\ getDim meshHuge = 2%nat
   /\ crossNormals meshHuge 3 gHuge = Ok (-1)
   /\ (abs (-1) <? 0.1) = false
   /\ d0 gHuge = 1e200
   /\ pypow2 (d0 gHuge) = Raise OverflowError
   /\ _calcTrialValue meshHuge value22 3 flag22 ext22 = Raise OverflowError)
  /\ (gather meshFar valueFar 4 flagFar extFar = Ok gFar
      /\ N gFar = 4%nat
      /\ getDim meshFar = 2%nat
      /\ crossNormals meshFar 4 gFar = Ok 1
      /\ (abs 1 <? 0.1) = false
      /\ _calcTrialValue meshFar valueFar 4 flagFar extFar = Raise ZeroDivisionError).
Proof. repeat split; vm_compute; reflexivity. Qed.

(** Two floats that a comparison tells apart are different. *)
Lemma float_neq (x y z : float) : (x <? z) = true -> (y <? z) = false -> x <> y.
Proof. intros Hx Hy ->. rewrite Hx in Hy. discriminate. Qed.

(** C9, as stated, fails: for a negative cell whose two evaluated neighbours
    are positive, the two-neighbour distance 1.25 is clamped to 0 before the
    weights are taken, and the solver returns 0.2 where the weights at the
    unclamped distance give 0.5. *)
Lemma extension_unclamped_counterexample :
  gather mesh22 valueNeg 0 flagNeg extNeg = Ok gNeg
  /\ degenerate mesh22 0 gNeg = Ok (2%nat, index1 gNeg)
  /\ readTwo mesh22 valueNeg 0 extNeg gNeg (index1 gNeg) = Ok rNeg
  /\ Spec.dis gNeg rNeg = 1.25
  /\ exists ext,
       _calcTrialValue mesh22 valueNeg 0 flagNeg extNeg = Ok (Spec.dis gNeg rNeg, ext)
       /\ ext <> Spec.extensionAt gNeg rNeg (Spec.dis gNeg rNeg).
Proof.
  repeat split; try (vm_compute; reflexivity).
  eexists. split; [ vm_compute; reflexivity | ].
  apply float_neq with (z := 0.3); vm_compute; reflexivity.
Qed.

Lemma trial_value_extension_witness :
  (exists dis,
      _calcTrialValue mesh22 valueNeg 0 flagNeg extNeg
      = Ok (dis, Spec.extensionAt gNeg rNeg (Spec.phi rNeg (Spec.dis gNeg rNeg))))
  /\ (exists dis, _calcTrialValue mesh8 value8 5 flag8 ext8 = Ok (dis, e0 g8)).
Proof.
  split.
  - assert (gather mesh22 valueNeg 0 flagNeg extNeg = Ok gNeg) as Hg
      by (vm_compute; reflexivity).
    assert (degenerate mesh22 0 gNeg = Ok (2%nat, index1 gNeg)) as Hd
      by (vm_compute; reflexivity).
    apply (proj1 (proj1 (@trial_value_extension _ _ _ _ _ _ _ _ _ Hg Hd) rNeg
                        ltac:(lia) ltac:(vm_compute; reflexivity))).
    vm_compute. reflexivity.
  - assert (gather mesh8 value8 5 flag8 ext8 = Ok g8) as Hg
      by (vm_compute; reflexivity).
    assert (degenerate mesh8 5 g8 = Ok (1%nat, index1 g8)) as Hd
      by (vm_compute; reflexivity).
    apply (proj2 (@trial_value_extension _ _ _ _ _ _ _ _ _ Hg Hd)). reflexivity.
Defined.

Lemma trial_value_not_2D_witness :
  ((0 : float) = 0
   /\ (abs 0 <? 0.1) = true
   /\ (N g3 = 1%nat \/ N g3 = 2%nat ->
       _calcTrialValue mesh3 value3 1 flag3 ext3 = Ok (Spec.oneNeighbour g3, e0 g3))
   /\ ((length (adjIDs g3) <= 2)%nat -> (1 <= N g3)%nat ->
       _calcTrialValue mesh3 value3 1 flag3 ext3 = Ok (Spec.oneNeighbour g3, e0 g3))
   /\ (N g3 = 3%nat ->
       _calcTrialValue mesh3 value3 1 flag3 ext3
       = twoNeighbours mesh3 value3 1 ext3 g3 (index2 g3))
   /\ ((4 <= N g3)%nat ->
       _calcTrialValue mesh3 value3 1 flag3 ext3
       = twoNeighbours mesh3 value3 1 ext3 g3 (index1 g3)))
  /\ _calcTrialValue mesh3 value3 1 flag3 ext3 = Ok (Spec.oneNeighbour g3, e0 g3)
  /\ _calcTrialValue mesh3D value3D 0 flag3D ext3D
     = twoNeighbours mesh3D value3D 0 ext3D g3D (index1 g3D).
Proof.
  assert (getDim mesh3 <> 2%nat) as Hdim by (vm_compute; discriminate).
  assert (gather mesh3 value3 1 flag3 ext3 = Ok g3) as Hg by (vm_compute; reflexivity).
  assert (crossNormals mesh3 1 g3 = Ok 0) as Hc by (vm_compute; reflexivity).
  assert (getDim mesh3D <> 2%nat) as Hdim' by (vm_compute; discriminate).
  assert (gather mesh3D value3D 0 flag3D ext3D = Ok g3D) as Hg'
    by (vm_compute; reflexivity).
  assert (crossNormals mesh3D 0 g3D = Ok 0) as Hc' by (vm_compute; reflexivity).
  split; [ | split ].
  - exact (@trial_value_not_2D rounded mesh3 value3 1 flag3 ext3 g3 0 Hdim Hg Hc).
  - apply (proj1 (proj2 (proj2 (@trial_value_not_2D rounded mesh3 value3 1 flag3 ext3
                                   g3 0 Hdim Hg Hc)))).
    right. vm_compute. reflexivity.
  - apply (proj2 (proj2 (proj2 (proj2 (@trial_value_not_2D rounded mesh3D value3D 0
                                          flag3D ext3D g3D 0 Hdim' Hg' Hc'))))).
    vm_compute. lia.
Defined.

(** C10, as stated, fails: in a 3-D mesh a cell with four evaluated
    neighbours, the two nearest ones towards -x and -y at the values 0.5 and
    0.625, gets the two-neighbour distance 1.266... where the one-neighbour
    estimate is 1.5. *)
Lemma trial_value_3D_counterexample :
  getDim mesh3D = 3%nat
  /\ gather mesh3D value3D 0 flag3D ext3D = Ok g3D
  /\ N g3D = 4%nat
  /\ crossNormals mesh3D 0 g3D = Ok 0
  /\ Spec.oneNeighbour g3D = 1.5
  /\ _calcTrialValue mesh3D value3D 0 flag3D ext3D
     = Ok (1.2668392293490403, 1.9112643490583887).
Proof. repeat split; vm_compute; reflexivity. Qed.

(** C3 fails on the code: on a 3 by 5 grid with a positive band of three
    rows, the middle cell of the band is reached with all four neighbours
    evaluated, the two nearest ones opposite each other.  The weights of the
    extension value are both zero and the solver raises [ZeroDivisionError],
    which ends [calcDistanceFunction]. *)
Theorem trial_value_zero_division :
  gather mesh35 value35 7 flag35 ext35 = Ok g35
  /\ N g35 = 4%nat
  /\ _calcTrialValue mesh35 value35 7 flag35 ext35 = Raise ZeroDivisionError
  /\ calcDistanceFunction mesh35 (newVariable field35) None false
     = Some (Raise ZeroDivisionError).
Proof. repeat split; vm_compute; reflexivity. Qed.

End TrialValueScenarios.

(** ** The interface locator *)

Section Locator.

Context {libm : Libm}.

Variable mesh : Mesh.

Lemma MAtake_map (A : Type) (a : list A) (ids : list (option nat)) (r : list (option A)) :
  MAtake a ids = Ok r ->
  r = map (fun o => match o with Some k => nth_error a k | None => None end) ids.
Proof.
  revert r. induction ids as [ | [k | ] ids IH ]; intros r H; cbn in H.
  - injection H as <-. reflexivity.
  - inv_binds H. injection H as <-. cbn. apply getitem_Ok in E.
    rewrite E. f_equal. apply IH. reflexivity.
  - inv_binds H. injection H as <-. cbn. f_equal. apply IH. reflexivity.
Qed.

Lemma MAtake_returns (A : Type) (a : list A) (ids : list (option nat)) :
  forallb (fun o => match o with Some k => (k <? length a)%nat | None => true end) ids
  = true ->
  returns (MAtake a ids).
Proof.
  induction ids as [ | [k | ] ids IH ]; cbn; intro H.
  - exists []. reflexivity.
  - apply andb_prop in H. destruct H as [Hk H]. apply Nat.ltb_lt in Hk.
    destruct (getitem_lt _ a k Hk) as [x ->]. destruct (IH H) as [r ->].
    cbn. eexists. reflexivity.
  - destruct (IH H) as [r ->]. cbn. eexists. reflexivity.
Qed.

(** The count of [masksum], on the unmasked neighbours. *)
Lemma unmasked_notSameSign (value : list float) (v : float) (ids : list (option nat)) :
  MA.unmasked
    (map (fun a => match a with
                   | Some x => if 0 <? x * v then None else Some x
                   | None => None
                   end)
         (map (fun o => match o with Some k => nth_error value k | None => None end) ids))
  = length (filter (fun k => negb (0 <? nth k value 0 * v))
              (flat_map (fun o => match o with Some k => [k] | None => [] end)
                 (filter (fun o => match o with
                                   | Some k => (k <? length value)%nat
                                   | None => true
                                   end) ids))).
Proof.
  unfold MA.unmasked.
  induction ids as [ | [k | ] ids IH ]; cbn [map filter]; [ reflexivity | | exact IH ].
  destruct (Nat.ltb_spec k (length value)) as [Hk | Hk].
  - destruct (nth_error value k) as [x | ] eqn:E.
    + cbn [flat_map app filter]. rewrite (nth_error_nth _ _ 0 E).
      destruct (0 <? x * v); cbn [negb length]; rewrite IH; reflexivity.
    + apply nth_error_None in E. lia.
  - apply nth_error_None in Hk. rewrite Hk. exact IH.
Qed.

Lemma filter_all (A : Type) (f : A -> bool) (l : list A) :
  forallb f l = true -> filter f l = l.
Proof.
  induction l as [ | a l IH ]; cbn; intro H; [ reflexivity | ].
  apply andb_prop in H. destruct H as [-> H]. f_equal. auto.
Qed.

Lemma neighboursInRange_row (n i : nat) (row : list (option nat)) :
  Spec.neighboursInRange mesh n = true ->
  nth_error (_getCellToCellIDs mesh) i = Some row ->
  forallb (fun o => match o with Some k => (k <? n)%nat | None => true end) row = true.
Proof.
  unfold Spec.neighboursInRange. intros H Hrow.
  apply andb_prop in H. destruct H as [_ H].
  rewrite forallb_forall in H. apply H. eapply nth_error_In. exact Hrow.
Qed.

Lemma deleteIsland_value (value : list float) (i : nat) (v : float) :
  Spec.neighboursInRange mesh (length value) = true ->
  nth_error value i = Some v ->
  deleteIsland mesh value i
  = Ok (if (Spec.notSameSign mesh value i v =? 4)%nat && gt0 v then (-1)%float else v).
Proof.
  intros Hwf Hv. unfold deleteIsland, adjInterfaceValues.
  rewrite (proj2 (getitem_Ok _ _ _ _) Hv). cbn [bind].
  assert (i < length (_getCellToCellIDs mesh))%nat as Hi.
  { unfold Spec.neighboursInRange in Hwf. apply andb_prop in Hwf.
    destruct Hwf as [Hlen _]. apply Nat.eqb_eq in Hlen. rewrite Hlen.
    apply nth_error_Some. rewrite Hv. discriminate. }
  destruct (nth_error (_getCellToCellIDs mesh) i) as [row | ] eqn:Hrow;
    [ | apply nth_error_None in Hrow; lia ].
  rewrite (proj2 (getitem_Ok _ _ _ _) Hrow). cbn [bind].
  pose proof (neighboursInRange_row _ _ _ Hwf Hrow) as Hrange.
  destruct (MAtake_returns _ value row Hrange) as [adj Hadj].
  rewrite Hadj. cbn [bind]. rewrite (MAtake_map _ _ _ _ Hadj).
  rewrite unmasked_notSameSign, (filter_all _ _ _ Hrange).
  unfold Spec.notSameSign, Spec.neighbours.
  rewrite (nth_error_nth _ _ [] Hrow). reflexivity.
Qed.

Lemma sameShape_length (value value' : list float) :
  length value' = length value -> sameShape mesh value' = sameShape mesh value.
Proof. intro H. unfold sameShape. rewrite H. reflexivity. Qed.

(** C8, as amended: with [deleteIslands], the pass before the interface
    values replaces by -1 the value of every positive cell that has exactly
    four unmasked neighbours whose value times the cell's value is not
    positive, and leaves every other value as it is; the interface values
    are computed from the field after the pass. *)
Theorem delete_islands_pass (value : list float) :
  Spec.neighboursInRange mesh (length value) = true ->
  exists value' : list float,
    forCells (deleteIsland mesh value) (seq 0 (length value)) = Ok value'
    /\ length value' = length value
    /\ (forall i v,
          nth_error value i = Some v ->
          nth_error value' i
          = Some (if (Spec.notSameSign mesh value i v =? 4)%nat && gt0 v
                  then (-1)%float else v))
    /\ (forall tmp width extension,
          beforeLoop mesh {| self_value := value; self_tmpValue := tmp;
                             self_narrowBandWidth := width |} extension true
          = beforeLoop mesh {| self_value := value'; self_tmpValue := tmp;
                               self_narrowBandWidth := width |} extension false).
Proof.
  intro Hwf.
  destruct (@forCells_returns _ (deleteIsland mesh value) (seq 0 (length value)))
    as [value' Hpass].
  { apply Forall_forall. intros i Hi. apply in_seq in Hi.
    destruct (nth_error value i) as [v | ] eqn:Hv.
    - eexists. apply (deleteIsland_value _ _ _ Hwf Hv).
    - apply nth_error_None in Hv. lia. }
  exists value'. destruct (forCells_seq _ _ _ _ Hpass) as [Hlen Hcells].
  repeat split; auto.
  - intros i v Hv.
    destruct (nth_error value' i) as [x | ] eqn:Hx.
    + specialize (Hcells _ _ Hx).
      rewrite (deleteIsland_value _ _ _ Hwf Hv) in Hcells.
      injection Hcells as <-. reflexivity.
    + apply nth_error_None in Hx.
      assert (i < length value)%nat by (apply nth_error_Some; rewrite Hv; discriminate).
      lia.
  - intros tmp width extension. unfold beforeLoop. cbn [self_value self_tmpValue].
    rewrite (sameShape_length _ _ Hlen), Hpass, Hlen. reflexivity.
Qed.

(** C7, as amended: on a 2-D mesh, a cell whose two nearest candidates [s]
    and [t] exist gets [sign * s * t / sqrt(s^2 + t^2)] when the dot product
    of their normals is below 0.9 in absolute value; otherwise it gets
    [sign * s] when there is no third candidate [u], and
    [sign * s * u / sqrt(s^2 + u^2)] when there is one; a cell with one
    candidate gets [sign * s], and a cell with none keeps its value.  The
    quotient and the root are those of [MA], the powers those of the C
    library. *)
Theorem interface_value_2D (value : list float) (i : nat) (c : Candidates) :
  getDim mesh = 2%nat ->
  readCandidates mesh value i = Ok c ->
  let sign := sign_of (cellValue c) in
  signedDistance mesh value i
  = Ok match s c, t c, u c with
       | None, _, _ => Some (cellValue c)
       | Some s, None, _ => Some (sign * s)
       | Some s, Some t, u =>
           if abs (dot (ns c) (nt c)) <? 0.9 then Spec.combined sign s t
           else
             match u with
             | None => Some (sign * s)
             | Some u => Spec.combined sign s u
             end
       end.
Proof.
  intros Hdim Hc sign. unfold readCandidates in Hc. inv_binds Hc.
  injection Hc as <-. cbn [cellValue s t u ns nt] in *.
  unfold signedDistance. rewrite Hdim. cbv zeta. run_binds.
  cbn [Nat.eqb]. run_binds. unfold combineTwo, Spec.combined.
  repeat match goal with
         | |- context [match ?x with Some _ => _ | None => _ end] => destruct x
         end; reflexivity.
Qed.

End Locator.

Section LocatorScenarios.

#[local] Existing Instance rounded.

(** C8, as stated, fails: the positive middle cell of the 1-D field
    (-1, 1, -1) has only negative neighbours, yet the pass leaves it at 1,
    as the cell has two neighbours and not four. *)
Lemma delete_islands_counterexample :
  Spec.isolatedPositive mesh3 field3 1 = true
  /\ forCells (deleteIsland mesh3 field3) (seq 0 (length field3)) = Ok field3
  /\ nth_error field3 1 = Some 1.
Proof. repeat split; vm_compute; reflexivity. Qed.

Lemma delete_islands_pass_witness :
  exists value' : list float,
    forCells (deleteIsland mesh35 field35) (seq 0 (length field35)) = Ok value'
    /\ length value' = length field35
    /\ (forall i v,
          nth_error field35 i = Some v ->
          nth_error value' i
          = Some (if (Spec.notSameSign mesh35 field35 i v =? 4)%nat && gt0 v
                  then (-1)%float else v))
    /\ (forall tmp width extension,
          beforeLoop mesh35 {| self_value := field35; self_tmpValue := tmp;
                               self_narrowBandWidth := width |} extension true
          = beforeLoop mesh35 {| self_value := value'; self_tmpValue := tmp;
                                 self_narrowBandWidth := width |} extension false).
Proof. apply (delete_islands_pass mesh35 field35). vm_compute. reflexivity. Defined.

(** C7, as stated, fails where it lets the cell fall back to [u]: for the
    centre of the 3 by 3 grid the two nearest candidates lie below and above
    (their normals are opposite), the third candidate is [u = 1], and the
    cell gets [s * u / sqrt(s^2 + u^2)], which is neither [u] nor
    [sign * u]. *)
Lemma interface_value_counterexample :
  readCandidates mesh33 field33 4 = Ok c33
  /\ s c33 = Some 0.5 /\ t c33 = Some 0.5 /\ u c33 = Some 1
  /\ (abs (dot (ns c33) (nt c33)) <? 0.9) = false
  /\ exists x,
       signedDistance mesh33 field33 4 = Ok (Some x)
       /\ x <> 1 /\ x <> sign_of (cellValue c33) * 1.
Proof.
  repeat split; try (vm_compute; reflexivity).
  eexists. split; [ vm_compute; reflexivity | ].
  split; apply float_neq with (z := 0.75); vm_compute; reflexivity.
Qed.

Lemma interface_value_2D_witness :
  signedDistance mesh33 field33 4 = Ok (Spec.combined 1 0.5 1).
Proof.
  assert (getDim mesh33 = 2%nat) as Hdim by reflexivity.
  assert (readCandidates mesh33 field33 4 = Ok c33) as Hc by (vm_compute; reflexivity).
  exact (interface_value_2D mesh33 field33 4 c33 Hdim Hc).
Defined.

End LocatorScenarios.

(** ** Signs of floating-point results *)

Section FloatSigns.

Import Sign.

Local Open Scope float_scope.

Lemma binary_round_aux_sign (sx : bool) (mx ex : Z) (lx : location) :
  signIs sx (binary_round_aux prec emax sx mx ex lx).
Proof.
  unfold binary_round_aux.
  destruct (shr_fexp prec emax mx ex lx) as [mrs e].
  destruct (shr_fexp prec emax _ e loc_Exact) as [mrs' e'].
  destruct (shr_m mrs') as [ | m | m ]; [ reflexivity | | exact I ].
  match goal with
  | |- context [if ?c then _ else _] => destruct c
  end; reflexivity.
Qed.

Lemma shr_1_nonneg (mrs : shr_record) :
  (0 <= shr_m mrs)%Z -> (0 <= shr_m (shr_1 mrs))%Z.
Proof.
  destruct mrs as [m r sticky]. cbn [shr_m].
  destruct m as [ | [ p | p | ] | p ]; cbn; lia.
Qed.

Lemma iter_pos_shr_1_nonneg (p : positive) (mrs : shr_record) :
  (0 <= shr_m mrs)%Z -> (0 <= shr_m (iter_pos shr_1 p mrs))%Z.
Proof.
  revert mrs. induction p as [ p IH | p IH | ]; intros mrs H; cbn.
  - apply IH, IH, shr_1_nonneg, H.
  - apply IH, IH, H.
  - apply shr_1_nonneg, H.
Qed.

Lemma shr_fexp_nonneg (m e : Z) (l : location) :
  (0 <= m)%Z -> (0 <= shr_m (fst (shr_fexp prec emax m e l)))%Z.
Proof.
  intro H. unfold shr_fexp, shr.
  assert (0 <= shr_m (shr_record_of_loc m l))%Z as H'
    by (destruct l as [ | [ | | ] ]; exact H).
  destruct (fexp prec emax (Zdigits2 m + e) - e)%Z; cbn [fst]; auto.
  apply iter_pos_shr_1_nonneg, H'.
Qed.

Lemma round_nearest_even_nonneg (m : Z) (l : location) :
  (0 <= m)%Z -> (0 <= round_nearest_even m l)%Z.
Proof.
  intro H. destruct l as [ | [ | | ] ]; cbn; try lia.
  destruct (Z.even m); lia.
Qed.

(** Rounding gives a number. *)
Lemma binary_round_aux_not_nan (sx : bool) (mx ex : Z) (lx : location) :
  (0 <= mx)%Z -> binary_round_aux prec emax sx mx ex lx <> S754_nan.
Proof.
  intro H. unfold binary_round_aux.
  pose proof (shr_fexp_nonneg mx ex lx H) as H1.
  destruct (shr_fexp prec emax mx ex lx) as [mrs e]. cbn [fst] in H1.
  pose proof (shr_fexp_nonneg _ e loc_Exact
                (round_nearest_even_nonneg _ (loc_of_shr_record mrs) H1)) as H2.
  destruct (shr_fexp prec emax _ e loc_Exact) as [mrs' e']. cbn [fst] in H2.
  destruct (shr_m mrs') as [ | m | m ]; [ discriminate | | lia ].
  destruct (e' <=? emax - prec)%Z; discriminate.
Qed.

Lemma binary_round_sign (sx : bool) (mx : positive) (ex : Z) :
  signIs sx (binary_round prec emax sx mx ex).
Proof.
  unfold binary_round. destruct (shl_align mx ex _). apply binary_round_aux_sign.
Qed.

Lemma SFmul_sign (a b : bool) (x y : spec_float) :
  signIs a x -> signIs b y -> signIs (xorb a b) (SFmul prec emax x y).
Proof.
  destruct x, y; cbn; intros; subst; auto. apply binary_round_aux_sign.
Qed.

Lemma SFdiv_sign (a b : bool) (x y : spec_float) :
  signIs a x -> signIs b y -> signIs (xorb a b) (SFdiv prec emax x y).
Proof.
  destruct x, y; cbn; intros; subst; auto.
  destruct (SFdiv_core_binary _ _ _ _ _ _) as [[mz ez] lz].
  apply binary_round_aux_sign.
Qed.

Lemma SFadd_sign (b : bool) (x y : spec_float) :
  signIs b x -> signIs b y -> signIs b (SFadd prec emax x y).
Proof.
  destruct x as [ sx | sx | | sx mx ex ], y as [ sy | sy | | sy my ey ]; cbn;
    intros; subst; auto; try (destruct b; cbn; auto; fail).
  destruct b; cbn; apply binary_round_sign.
Qed.

Lemma SFsqrt_sign (x : spec_float) :
  signIs false x -> signIs false (SFsqrt prec emax x).
Proof.
  destruct x as [ sx | sx | | sx mx ex ]; cbn; intros; subst; cbn; auto.
  destruct (SFsqrt_core_binary _ _ _ _) as [[mz ez] lz].
  apply binary_round_aux_sign.
Qed.

Lemma abs_hasSign (x : float) : hasSign false (abs x).
Proof. unfold hasSign. rewrite abs_spec. destruct (Prim2SF x); cbn; auto. Qed.

Lemma mul_hasSign (a b : bool) (x y : float) :
  hasSign a x -> hasSign b y -> hasSign (xorb a b) (x * y).
Proof. unfold hasSign. rewrite mul_spec. apply SFmul_sign. Qed.

Lemma div_hasSign (a b : bool) (x y : float) :
  hasSign a x -> hasSign b y -> hasSign (xorb a b) (x / y).
Proof. unfold hasSign. rewrite div_spec. apply SFdiv_sign. Qed.

Lemma add_hasSign (b : bool) (x y : float) :
  hasSign b x -> hasSign b y -> hasSign b (x + y).
Proof. unfold hasSign. rewrite add_spec. apply SFadd_sign. Qed.

Lemma sqrt_hasSign (x : float) : hasSign false x -> hasSign false (sqrt x).
Proof. unfold hasSign. rewrite sqrt_spec. apply SFsqrt_sign. Qed.

(** A zero is not above a product of absolute values, unless the product is
    not a number. *)
Lemma SFleb_zero_scaled (sz : bool) (x : spec_float) (m : positive) (e : Z) :
  SFleb (S754_zero sz) (SFmul prec emax (SFabs x) (S754_finite false m e)) = false ->
  x = S754_nan.
Proof.
  destruct x as [ sx | sx | | sx mx ex ]; cbn; try discriminate; [ reflexivity | ].
  pose proof (binary_round_aux_sign false (Z.pos (mx * m)) (ex + e) loc_Exact) as Hs.
  pose proof (@binary_round_aux_not_nan false (Z.pos (mx * m)) (ex + e) loc_Exact
                ltac:(lia)) as Hn.
  destruct (binary_round_aux prec emax false (Z.pos (mx * m)) (ex + e) loc_Exact)
    as [ sr | sr | | sr mr er ]; cbn in Hs |- *; try subst sr; try discriminate.
  contradiction.
Qed.

(** The quotient of [MA.divide] by a root of [MA.sqrt] has the sign of the
    dividend: the root has no sign bit, or it is the zero that is the root
    of the negative zero, by which [MA.divide] does not divide. *)
Lemma divide_sqrt_sign (b : bool) (x y r : float) :
  hasSign b x ->
  MA.divide (Some x) (MA.sqrt (Some y)) = Some r -> hasSign b r.
Proof.
  intros Hx. unfold MA.sqrt.
  destruct (y <? 0) eqn:Hy; [ discriminate | ]. unfold MA.divide.
  destruct (abs (sqrt y) <=? abs x * 1e-35) eqn:Hm; [ discriminate | ].
  intro H. injection H as <-.
  unfold hasSign in *. rewrite div_spec, sqrt_spec.
  rewrite ltb_spec in Hy. rewrite leb_spec, abs_spec, mul_spec, abs_spec, sqrt_spec in Hm.
  change (Prim2SF 0) with (S754_zero false) in Hy.
  destruct (Prim2SF y) as [ sy | sy | | sy my ey ] eqn:Ey.
  - cbn [SFsqrt SFabs] in Hm |- *.
    remember (Prim2SF 1e-35) as k eqn:Ek. vm_compute in Ek. subst k.
    apply SFleb_zero_scaled in Hm. rewrite Hm. exact I.
  - destruct sy; [ discriminate | ].
    replace b with (xorb b false) by (destruct b; reflexivity).
    apply SFdiv_sign; [ exact Hx | reflexivity ].
  - cbn. destruct (Prim2SF x); exact I.
  - destruct sy; [ discriminate | ].
    replace b with (xorb b false) by (destruct b; reflexivity).
    apply SFdiv_sign; [ exact Hx | apply SFsqrt_sign; reflexivity ].
Qed.

Lemma sign_of_hasSign (v : float) : hasSign (negb (gt0 v)) (sign_of v).
Proof. unfold sign_of. destruct (gt0 v); reflexivity. Qed.

Lemma hasSign_false_not_negative (x : float) : hasSign false x -> lt0 x = false.
Proof.
  unfold hasSign, lt0. rewrite ltb_spec.
  change (Prim2SF 0) with (S754_zero false).
  destruct (Prim2SF x) as [ sx | sx | | sx mx ex ]; cbn; intros; subst; reflexivity.
Qed.

Lemma hasSign_true_not_positive (x : float) : hasSign true x -> gt0 x = false.
Proof.
  unfold hasSign, gt0. rewrite ltb_spec.
  change (Prim2SF 0) with (S754_zero false).
  destruct (Prim2SF x) as [ sx | sx | | sx mx ex ]; cbn; intros; subst; reflexivity.
Qed.

Lemma positive_hasSign (x : float) : gt0 x = true -> hasSign false x.
Proof.
  unfold hasSign, gt0. rewrite ltb_spec.
  change (Prim2SF 0) with (S754_zero false).
  destruct (Prim2SF x) as [ sx | sx | | sx mx ex ]; cbn; try discriminate; auto;
    destruct sx; cbn; try discriminate; auto.
Qed.

(** A value whose sign bit is that of [sign_of v] is on the side of [v]. *)
Lemma hasSign_kept (v x : float) : hasSign (negb (gt0 v)) x -> kept v x.
Proof.
  unfold kept. intro H. split; intro Hv; rewrite Hv in H; cbn in H.
  - apply hasSign_false_not_negative. exact H.
  - apply hasSign_true_not_positive. exact H.
Qed.

Lemma kept_refl (v : float) : kept v v.
Proof.
  unfold kept. split; intro Hv; [ | exact Hv ].
  apply hasSign_false_not_negative, positive_hasSign. exact Hv.
Qed.

End FloatSigns.

(** ** The narrow-band propagator *)

Lemma setitem_spec (A : Type) (l : list A) (i : nat) (v : A) (l' : list A) :
  setitem l i v = Ok l' ->
  length l' = length l
  /\ nth_error l' i = Some v
  /\ forall j, j <> i -> nth_error l' j = nth_error l j.
Proof.
  revert i l'. induction l as [ | a l IH ]; intros [ | i ] l' H; cbn in H;
    try discriminate.
  - injection H as <-. repeat split. intros [ | j ] Hj; [ lia | reflexivity ].
  - inv_binds H. injection H as <-. destruct (IH _ _ E) as (Hlen & Hi & Hj).
    repeat split; cbn; auto.
    intros [ | j ] Hne; [ reflexivity | apply Hj; lia ].
Qed.

Lemma setitem_returns (A : Type) (l : list A) (i : nat) (v : A) :
  (i < length l)%nat -> returns (setitem l i v).
Proof.
  revert i. induction l as [ | a l IH ]; intros [ | i ] H; cbn in *; try lia.
  - eexists. reflexivity.
  - destruct (IH i) as [l' ->]; [ lia | ]. cbn. eexists. reflexivity.
Qed.

Section Propagator.

Context {libm : Libm}.

Variable mesh : Mesh.

Lemma assignTrial_spec (st st' : Marching) (id : nat) :
  assignTrial mesh st id = Ok st' ->
  evaluatedFlag st' = evaluatedFlag st
  /\ trialIDs st' = trialIDs st
  /\ forall j, j <> id -> nth_error (value st') j = nth_error (value st) j.
Proof.
  unfold assignTrial. intro H. inv_binds H. injection H as <-. cbn.
  repeat split. apply (setitem_spec _ _ _ _ _ E0).
Qed.

Lemma inList_In (x : nat) (l : list nat) : inList x l = true <-> In x l.
Proof.
  unfold inList. rewrite existsb_exists. split.
  - intros (y & Hy & He). apply Nat.eqb_eq in He. subst. exact Hy.
  - intro H. exists x. split; [ exact H | apply Nat.eqb_refl ].
Qed.

Lemma relax_spec (adjIDs : list (option nat)) (st st' : Marching) :
  relax mesh adjIDs st = Ok st' ->
  evaluatedFlag st' = evaluatedFlag st
  /\ (forall j, ~ In j (unevaluatedOf (evaluatedFlag st) adjIDs) ->
                nth_error (value st') j = nth_error (value st) j)
  /\ (NoDup (trialIDs st) -> NoDup (trialIDs st'))
  /\ (forall k, In k (trialIDs st') ->
                In k (trialIDs st) \/ nth_error (evaluatedFlag st) k = Some false)
  /\ (forall k, In k (trialIDs st) -> In k (trialIDs st')).
Proof.
  revert st st'. induction adjIDs as [ | [adjID | ] adjIDs IH ]; intros st st' H;
    cbn [relax] in H.
  - injection H as <-. repeat split; auto.
  - destruct (getitem (evaluatedFlag st) adjID) as [ev | e] eqn:E;
      cbn [bind] in H; [ | discriminate ].
    apply getitem_Ok in E.
    unfold unevaluatedOf. cbn [flat_map app filter].
    rewrite (nth_error_nth _ _ true E).
    destruct ev; cbn [negb].
    + apply IH in H. exact H.
    + destruct (assignTrial mesh st adjID) as [st1 | e] eqn:E0;
        cbn [bind] in H; [ | discriminate ].
      destruct (assignTrial_spec _ _ _ E0) as (Hev & Htr & Hval).
      apply IH in H. cbn [evaluatedFlag value trialIDs] in H.
      assert (evaluatedFlag
                (if inList adjID (trialIDs st1) then st1
                 else {| value := value st1;
                         extensionVariable := extensionVariable st1;
                         evaluatedFlag := evaluatedFlag st1;
                         trialIDs := trialIDs st1 ++ [adjID] |})
              = evaluatedFlag st) as Hev'
        by (destruct (inList adjID (trialIDs st1)); cbn; exact Hev).
      assert (value
                (if inList adjID (trialIDs st1) then st1
                 else {| value := value st1;
                         extensionVariable := extensionVariable st1;
                         evaluatedFlag := evaluatedFlag st1;
                         trialIDs := trialIDs st1 ++ [adjID] |})
              = value st1) as Hval'
        by (destruct (inList adjID (trialIDs st1)); reflexivity).
      destruct H as (H1 & H2 & H3 & H4 & H5).
      rewrite Hev' in *. rewrite Hval' in *.
      repeat split.
      * exact H1.
      * intros j Hj. rewrite H2.
        -- apply Hval. intros ->. apply Hj. left. reflexivity.
        -- intro Hin. apply Hj. right. exact Hin.
      * intro Hnd. apply H3.
        destruct (inList adjID (trialIDs st1)) eqn:Hin.
        -- rewrite Htr. exact Hnd.
        -- cbn [trialIDs]. rewrite Htr.
           apply NoDup_app; [ exact Hnd | repeat constructor; intros [] | ].
           intros x Hx [<- | []].
           rewrite <- Htr in Hx. apply inList_In in Hx. congruence.
      * intros k Hk. apply H4 in Hk. destruct Hk as [Hk | Hk]; [ | right; exact Hk ].
        destruct (inList adjID (trialIDs st1)).
        -- left. rewrite <- Htr. exact Hk.
        -- cbn [trialIDs] in Hk. apply in_app_or in Hk.
           destruct Hk as [Hk | [<- | []]].
           ++ left. rewrite <- Htr. exact Hk.
           ++ right. exact E.
      * intros k Hk. apply H5.
        destruct (inList adjID (trialIDs st1)).
        -- rewrite Htr. exact Hk.
        -- cbn [trialIDs]. apply in_or_app. left. rewrite Htr. exact Hk.
  - apply IH in H. exact H.
Qed.

Lemma remove_In (x k : nat) (l : list nat) : In k (remove x l) -> In k l.
Proof.
  induction l as [ | y l IH ]; cbn; [ auto | ].
  destruct (Nat.eqb_spec x y); cbn; intuition.
Qed.

Lemma remove_NoDup (x : nat) (l : list nat) :
  NoDup l -> NoDup (remove x l) /\ ~ In x (remove x l).
Proof.
  induction 1 as [ | y l Hy Hnd IH ]; cbn.
  - split; [ constructor | intros [] ].
  - destruct (Nat.eqb_spec x y) as [-> | Hne].
    + split; assumption.
    + destruct IH as [IH1 IH2]. split.
      * constructor; [ | exact IH1 ]. intro H. apply Hy. eapply remove_In. exact H.
      * intros [H | H]; [ congruence | contradiction ].
Qed.

Lemma nth_of_nth_error (A : Type) (l l' : list A) (j : nat) (d : A) :
  length l' = length l ->
  nth_error l' j = nth_error l j -> nth j l' d = nth j l d.
Proof.
  intros Hlen H. destruct (nth_error l j) as [x | ] eqn:E.
  - rewrite (nth_error_nth _ _ d H), (nth_error_nth _ _ d E). reflexivity.
  - apply nth_error_None in H. apply nth_error_None in E.
    rewrite !nth_overflow by assumption. reflexivity.
Qed.

Lemma setitem_nth_true (ev ev' : list bool) (id k : nat) :
  setitem ev id true = Ok ev' ->
  nth k ev' true = (k =? id)%nat || nth k ev true.
Proof.
  intro H. destruct (setitem_spec _ _ _ _ _ H) as (Hlen & Hid & Hother).
  destruct (Nat.eqb_spec k id) as [-> | Hne]; cbn.
  - apply (nth_error_nth _ _ true Hid).
  - apply nth_of_nth_error; auto.
Qed.

Lemma setitem_unevaluated (ev ev' : list bool) (id : nat) :
  setitem ev id true = Ok ev' ->
  nth_error ev id = Some false ->
  S (unevaluated ev') = unevaluated ev.
Proof.
  unfold unevaluated. revert id ev'.
  induction ev as [ | b ev IH ]; intros [ | id ] ev' H Hf; cbn in *;
    try discriminate.
  - injection H as <-. injection Hf as ->. reflexivity.
  - inv_binds H. injection H as <-. cbn.
    destruct b; cbn; rewrite <- (IH _ _ E Hf); reflexivity.
Qed.

Lemma accept_In (st : Marching) (id : nat) :
  accept st = Ok id -> In id (trialIDs st).
Proof.
  unfold accept. intro H. inv_binds H. apply getitem_Ok in H.
  eapply nth_error_In. exact H.
Qed.

Lemma pass_spec (st st' : Marching) (id : nat) :
  pass mesh st id = Ok st' ->
  (exists ev, setitem (evaluatedFlag st) id true = Ok ev /\ evaluatedFlag st' = ev)
  /\ (forall j, ~ In j (assigned mesh st id) ->
                nth_error (value st') j = nth_error (value st) j)
  /\ (Scheduled st -> Scheduled st').
Proof.
  unfold pass. intro H.
  destruct (setitem (evaluatedFlag st) id true) as [ev | e] eqn:Hev;
    cbn [bind] in H; [ | discriminate ].
  destruct (getitem (_getCellToCellIDs mesh) id) as [row | e] eqn:Hrow;
    cbn [bind] in H; [ | discriminate ].
  apply relax_spec in H. cbn [evaluatedFlag value trialIDs] in H.
  destruct H as (H1 & H2 & H3 & H4 & _).
  apply getitem_Ok in Hrow. split; [ | split ].
  - exists ev. auto.
  - intros j Hj. apply H2. intro Hin. apply Hj.
    unfold assigned, unevaluatedOf in *. rewrite (nth_error_nth _ _ [] Hrow).
    apply filter_In in Hin. destruct Hin as [Hin Hf]. apply filter_In.
    split; [ exact Hin | ].
    rewrite (setitem_nth_true _ _ _ _ Hev) in Hf.
    rewrite negb_orb in Hf. exact Hf.
  - intros [Hnd Hfl]. destruct (remove_NoDup id _ Hnd) as [Hnd' Hnot].
    destruct (setitem_spec _ _ _ _ _ Hev) as (_ & _ & Hother).
    split; [ auto | ].
    intros k Hk. rewrite H1. apply H4 in Hk. destruct Hk as [Hk | Hk]; [ | exact Hk ].
    rewrite Hother.
    + apply Hfl. eapply remove_In. exact Hk.
    + intros ->. contradiction.
Qed.

(** The loop ends within as many passes as there are cells that are not
    evaluated. *)
Lemma marching_total (w : number) (fuel : nat) (st : Marching) :
  Scheduled st ->
  (unevaluated (evaluatedFlag st) <= fuel)%nat ->
  exists r, marching mesh fuel w st = Some r.
Proof.
  revert st. induction fuel as [ | fuel IH ]; intros st Hs Hle.
  - destruct (trialIDs st) as [ | id l ] eqn:Ht; cbn; rewrite Ht.
    + eexists. reflexivity.
    + exfalso. destruct Hs as [_ Hfl]. specialize (Hfl id).
      rewrite Ht in Hfl. specialize (Hfl (or_introl eq_refl)).
      unfold unevaluated in Hle.
      assert (In false (filter negb (evaluatedFlag st))) as Hin.
      { apply filter_In. split; [ | reflexivity ]. eapply nth_error_In. exact Hfl. }
      destruct (filter negb (evaluatedFlag st)); [ destruct Hin | cbn in Hle; lia ].
  - cbn. destruct (trialIDs st) as [ | id0 l ] eqn:Ht; [ eexists; reflexivity | ].
    destruct (accept st) as [id | e] eqn:Ha; [ | eexists; reflexivity ].
    destruct (pass mesh st id) as [st' | e] eqn:Hp; [ | eexists; reflexivity ].
    destruct (beyondBand w st' id) as [[ | ] | e]; try (eexists; reflexivity).
    destruct (pass_spec _ _ _ Hp) as ((ev & Hev & Hflags) & _ & Hs').
    apply IH; [ auto | ].
    rewrite Hflags.
    pose proof (setitem_unevaluated _ _ _ Hev) as Hm.
    destruct Hs as [Hnd Hfl]. rewrite <- Hm in Hle; [ lia | ].
    apply Hfl. apply accept_In. exact Ha.
Qed.

Lemma marching_Run (w : number) (fuel : nat) (st st' : Marching) :
  marching mesh fuel w st = Some (Ok st') ->
  exists touched, Run mesh w st touched st'.
Proof.
  revert st. induction fuel as [ | fuel IH ]; intros st H; cbn in H.
  - destruct (trialIDs st) eqn:Ht; [ | discriminate ].
    injection H as <-. eexists. apply Run_empty. exact Ht.
  - destruct (trialIDs st) as [ | id0 l ] eqn:Ht.
    { injection H as <-. eexists. apply Run_empty. exact Ht. }
    assert (trialIDs st <> []) as Hne by (rewrite Ht; discriminate).
    destruct (accept st) as [id | e] eqn:Ha; [ | discriminate ].
    destruct (pass mesh st id) as [st1 | e] eqn:Hp; [ | discriminate ].
    unfold beyondBand in H.
    destruct (getitem (value st1) id) as [v | e] eqn:Hv; cbn [bind] in H;
      [ | discriminate ].
    apply getitem_Ok in Hv.
    destruct (gtNumber (abs v) (half w)) eqn:Hb.
    + injection H as <-. eexists. eapply Run_beyond; eassumption.
    + destruct (IH _ H) as [touched Hrun]. eexists.
      eapply Run_within; eassumption.
Qed.

Lemma Run_frame (w : number) (st st' : Marching) (touched : list nat) :
  Run mesh w st touched st' ->
  forall j, ~ In j touched -> nth_error (value st') j = nth_error (value st) j.
Proof.
  induction 1 as [ st Ht | st st' id v Hne Ha Hp Hv Hb
                 | st st' st'' id v touched Hne Ha Hp Hv Hb Hrun IH ]; intros j Hj.
  - reflexivity.
  - destruct (pass_spec _ _ _ Hp) as (_ & Hfr & _). apply Hfr.
    intro Hin. apply Hj. right. exact Hin.
  - destruct (pass_spec _ _ _ Hp) as (_ & Hfr & _). rewrite IH.
    + apply Hfr. intro Hin. apply Hj. right. apply in_or_app. left. exact Hin.
    + intro Hin. apply Hj. right. apply in_or_app. right. exact Hin.
Qed.

Lemma distinct_NoDup (l : list nat) : distinct l = true -> NoDup l.
Proof.
  induction l as [ | x l IH ]; cbn; intro Hd; [ constructor | ].
  apply andb_prop in Hd. destruct Hd as [Hx Hd]. constructor.
  - intro Hin. apply inList_In in Hin. rewrite Hin in Hx. discriminate.
  - apply IH. exact Hd.
Qed.

Lemma scheduled_Scheduled (st : Marching) : scheduled st = true -> Scheduled st.
Proof.
  unfold scheduled, Scheduled. intro H. apply andb_prop in H. destruct H as [Hd Hf].
  split.
  - apply distinct_NoDup. exact Hd.
  - intros id Hin. rewrite forallb_forall in Hf. specialize (Hf _ Hin).
    destruct (nth_error (evaluatedFlag st) id) as [[ | ] | ]; congruence.
Qed.



Lemma seedTrials_spec (ids : list nat) (st st' : Marching) :
  seedTrials mesh ids st = Ok st' ->
  evaluatedFlag st' = evaluatedFlag st /\ trialIDs st' = trialIDs st.
Proof.
  revert st. induction ids as [ | id ids IH ]; intros st H; cbn in H.
  - injection H as <-. auto.
  - destruct (assignTrial mesh st id) as [st1 | e] eqn:E; cbn [bind] in H;
      [ | discriminate ].
    destruct (assignTrial_spec _ _ _ E) as (Hev & Htr & _).
    destruct (IH _ H) as [H1 H2]. rewrite H1, H2. auto.
Qed.

Lemma nonzero_from_In (a i : nat) (fl : list bool) :
  In i (nonzero_from a fl) ->
  (a <= i)%nat /\ nth_error fl (i - a) = Some true.
Proof.
  revert a. induction fl as [ | b fl IH ]; intros a H; cbn in H; [ destruct H | ].
  assert (In i (nonzero_from (S a) fl) ->
          (a <= i)%nat /\ nth_error (b :: fl) (i - a) = Some true) as Hrest.
  { intro Hin. apply IH in Hin. destruct Hin as [Hle Hn]. split; [ lia | ].
    replace (i - a)%nat with (S (i - S a)) by lia. exact Hn. }
  destruct b; [ | auto ].
  destruct H as [<- | H]; [ | auto ].
  rewrite Nat.sub_diag. auto.
Qed.

Lemma nonzero_from_NoDup (a : nat) (fl : list bool) : NoDup (nonzero_from a fl).
Proof.
  revert a. induction fl as [ | b fl IH ]; intro a; cbn; [ constructor | ].
  destruct b; [ | apply IH ].
  constructor; [ | apply IH ].
  intro H. apply nonzero_from_In in H. lia.
Qed.

Lemma trialFlag_true (interfaceFlag hasAdj : list bool) (j : nat) :
  nth_error (map (fun fh => negb (fst fh) && snd fh) (combine interfaceFlag hasAdj)) j
  = Some true ->
  nth_error interfaceFlag j = Some false.
Proof.
  revert hasAdj j.
  induction interfaceFlag as [ | f fl IH ]; intros [ | h hl ] [ | j ] H; cbn in H;
    try discriminate.
  - injection H as H. destruct f; cbn in H; [ discriminate | reflexivity ].
  - cbn. eapply IH. exact H.
Qed.

(** The loop starts with distinct trial cells, none of them evaluated. *)
Lemma beforeLoop_Scheduled (self : DistanceVariable) (extension : option (list float))
    (deleteIslands : bool) (st : Marching) :
  beforeLoop mesh self extension deleteIslands = Ok st -> Scheduled st.
Proof.
  unfold beforeLoop. intro H.
  destruct (negb (sameShape mesh (self_value self))); [ discriminate | ].
  inv_binds H. apply seedTrials_spec in H. cbn [evaluatedFlag trialIDs] in H.
  destruct H as [Hev Htr]. unfold Scheduled. rewrite Hev, Htr. split.
  - apply nonzero_from_NoDup.
  - intros id Hin. apply nonzero_from_In in Hin. destruct Hin as [_ Hin].
    rewrite Nat.sub_0_r in Hin. eapply trialFlag_true. exact Hin.
Qed.

(** [_calcDistanceFunction] ends: the bound on the passes of its loop is
    never reached. *)
Lemma calcDistanceFunction_total (self : DistanceVariable)
    (extension : option (list float)) (narrowBandWidth : option number)
    (deleteIslands : bool) :
  exists r,
    _calcDistanceFunction mesh self extension narrowBandWidth deleteIslands = Some r.
Proof.
  unfold _calcDistanceFunction.
  destruct (beforeLoop mesh self extension deleteIslands) as [st | e] eqn:Hb;
    [ | eexists; reflexivity ].
  apply beforeLoop_Scheduled in Hb.
  destruct (marching_total
              (match narrowBandWidth with
               | Some w => w
               | None => self_narrowBandWidth self
               end) (S (length (evaluatedFlag st))) st Hb) as [r Hr].
  { unfold unevaluated. pose proof (filter_length_le negb (evaluatedFlag st)). lia. }
  rewrite Hr. destruct r; eexists; reflexivity.
Qed.

End Propagator.

(** ** The arrays as objects *)

Lemma alloc_old (h : Store) (a : list float) (r : nat) :
  (r < length h)%nat -> nth_error (fst (alloc h a)) r = nth_error h r.
Proof. intro H. cbn. apply nth_error_app1. exact H. Qed.

Lemma alloc_new (h : Store) (a : list float) :
  nth_error (fst (alloc h a)) (snd (alloc h a)) = Some a.
Proof. cbn. rewrite nth_error_app2 by lia. rewrite Nat.sub_diag. reflexivity. Qed.

Lemma alloc_length (h : Store) (a : list float) :
  length (fst (alloc h a)) = S (length h).
Proof. cbn. rewrite length_app. cbn. lia. Qed.

Lemma write_length (h : Store) (r : nat) (a : list float) :
  length (write h r a) = length h.
Proof.
  revert r. induction h as [ | x h IH ]; intros [ | r ]; cbn; auto.
Qed.

Lemma write_other (h : Store) (r r' : nat) (a : list float) :
  r' <> r -> nth_error (write h r a) r' = nth_error h r'.
Proof.
  revert r r'. induction h as [ | x h IH ]; intros [ | r ] [ | r' ] H; cbn; auto;
    try lia.
Qed.

Lemma contents_nth_error (h : Store) (r : nat) (a : list float) :
  nth_error h r = Some a -> contents h r = a.
Proof. intro H. unfold contents. apply nth_error_nth. exact H. Qed.

Section Objects.

Context {libm : Libm}.

Variable mesh : Mesh.

(** What [_calcDistanceFunction] does to the store: it adds one array and
    writes to the extension array only. *)
Lemma calcDistanceFunction_obj_frame (h h' : Store) (self self' : Object)
    (extension : option nat) (narrowBandWidth : option number) (deleteIslands : bool) :
  _calcDistanceFunction_obj mesh h self extension narrowBandWidth deleteIslands
  = Some (Ok (h', self')) ->
  length h' = S (length h)
  /\ forall r, (r < length h)%nat -> Some r <> extension ->
               nth_error h' r = nth_error h r.
Proof.
  unfold _calcDistanceFunction_obj. intro H.
  destruct (_calcDistanceFunction mesh _ _ _ _) as [[r | e] | ]; try discriminate.
  injection H as <- <-. unfold alloc. cbn [fst snd]. split.
  - rewrite length_app. cbn [length].
    destruct extension; rewrite ?write_length; lia.
  - intros x Hx Hne. destruct extension as [y | ].
    + rewrite nth_error_app1 by (rewrite write_length; exact Hx).
      apply write_other. congruence.
    + apply nth_error_app1. exact Hx.
Qed.

(** C5: when [extendVariable] returns, the array bound to [self.value] holds
    what the field held before the call, element for element, and of the
    arrays that existed before the call only the extension array may have
    changed; the call always ends. *)
Theorem extendVariable_restores (h : Store) (self : Object)
    (extensionVariable : nat) (deleteIslands : bool) :
  (extensionVariable < length h)%nat ->
  exists outcome,
    extendVariable_obj mesh h self extensionVariable deleteIslands = Some outcome
    /\ forall h' self',
         outcome = Ok (h', self') ->
         contents h' (obj_value self') = contents h (obj_value self)
         /\ (forall r, (r < length h)%nat -> r <> extensionVariable ->
                       nth_error h' r = nth_error h r).
Proof.
  intro Hext. unfold extendVariable_obj.
  set (ht := alloc h (contents h (obj_value self))).
  set (hn := alloc (fst ht) (contents (fst ht) extensionVariable)).
  set (self1 := {| obj_value := obj_value self; obj_tmpValue := Some (snd ht);
                   obj_narrowBandWidth := obj_narrowBandWidth self |}).
  destruct (_calcDistanceFunction_obj mesh (fst hn) self1 (Some (snd hn)) None
              deleteIslands) as [[[h3 self3] | e] | ] eqn:Hc.
  - destruct (calcDistanceFunction_obj_frame _ _ _ _ _ _ _ Hc) as [Hlen Hfr].
    assert (length (fst ht) = S (length h)) as Hlt by apply alloc_length.
    assert (length (fst hn) = S (S (length h))) as Hln
      by (unfold hn; rewrite alloc_length, Hlt; reflexivity).
    assert (snd ht = length h) as Htmp by reflexivity.
    assert (snd hn = S (length h)) as Hnum by (cbn; rewrite length_app; cbn; lia).
    cbn [fst snd].
    destruct (length (contents h3 (snd hn)) =? length (contents h3 extensionVariable))%nat;
      eexists; (split; [ reflexivity | ]); intros h' self' Heq; [ | discriminate ].
    injection Heq as <- <-. cbn [obj_value]. split.
    + apply contents_nth_error. rewrite write_other by lia.
      rewrite Hfr by (rewrite ?Hln, ?Hnum; try lia; intro Hs; injection Hs; lia).
      unfold hn. rewrite alloc_old by lia. apply alloc_new.
    + intros r Hr Hne. rewrite write_other by exact Hne.
      rewrite Hfr by (rewrite ?Hln, ?Hnum; try lia; intro Hs; injection Hs; lia).
      unfold hn. rewrite alloc_old by lia. unfold ht. apply alloc_old. exact Hr.
  - eexists. split; [ reflexivity | discriminate ].
  - exfalso. unfold _calcDistanceFunction_obj in Hc.
    match type of Hc with
    | context [_calcDistanceFunction mesh ?a ?b ?c ?d] =>
        destruct (calcDistanceFunction_total mesh a b c d) as [r Hr];
          rewrite Hr in Hc
    end.
    destruct r; discriminate.
Qed.

End Objects.

Section PropagatorScenarios.

#[local] Existing Instance rounded.



(** With a narrow band of width 1 the loop of the 1-D scenario stops after
    its first pass, which accepts -0.75 and gives its left neighbour the
    trial value -1.25; the cells that were not reached keep the values -1
    and 1 of the initial field. *)
Example narrow_band_1D :
  fieldOf (calcDistanceFunction mesh8 (newVariable field8) (Some (PyFloat 1)) false)
  = Some [-1; -1.25; -0.75; -0.25; 0.25; 0.75; 1; 1].
Proof. vm_compute. reflexivity. Qed.

Lemma extendVariable_restores_witness :
  exists outcome,
    extendVariable_obj mesh22 store22 self22 1 false = Some outcome
    /\ forall h' self',
         outcome = Ok (h', self') ->
         contents h' (obj_value self') = contents store22 (obj_value self22)
         /\ (forall r, (r < length store22)%nat -> r <> 1%nat ->
                       nth_error h' r = nth_error store22 r).
Proof. apply (extendVariable_restores mesh22 store22 self22 1 false). cbn. lia. Defined.

(** The extension of the docstring: the extension array becomes
    (1.25, 0.5, 2, 1.25) and the field is as before. *)
Example extend_2D :
  match extendVariable_obj mesh22 store22 self22 1 false with
  | Some (Ok (h', self')) => Some (contents h' 1, contents h' (obj_value self'))
  | _ => None
  end
  = Some ([1.25; 0.5; 2; 1.25], contents store22 0).
Proof. vm_compute. reflexivity. Qed.

End PropagatorScenarios.

(** ** Signs of the interface values *)

Section InterfaceSigns.

Import Sign.

Context {libm : Libm}.

Variable mesh : Mesh.

Lemma distancesRow_sign (value : list float) (i : nat) (distances : list (option float))
    (d : float) :
  distancesRow mesh value i = Ok distances ->
  In (Some d) distances -> hasSign false d.
Proof.
  unfold distancesRow. intros H Hin. inv_binds H. injection H as <-.
  apply in_map_iff in Hin. destruct Hin as (da & Hda & _).
  unfold MA.absolute in Hda.
  destruct (MA.divide _ _) as [y | ]; cbn in Hda; [ | discriminate ].
  injection Hda as <-. apply abs_hasSign.
Qed.

Lemma getitem_In (A : Type) (l : list A) (i : nat) (x : A) :
  getitem l i = Ok x -> In x l.
Proof. intro H. apply getitem_Ok in H. eapply nth_error_In. exact H. Qed.

Lemma combineTwo_sign (b : bool) (sign s t x : float) :
  hasSign b sign -> hasSign false s -> hasSign false t ->
  combineTwo sign (Some s) (Some t) = Some x -> hasSign b x.
Proof.
  intros Hsign Hs Ht. unfold combineTwo.
  cbn [MA.mul MA.add MA.lift2 MA.power2 option_map].
  apply divide_sqrt_sign.
  replace b with (xorb (xorb b false) false) by (destruct b; reflexivity).
  apply mul_hasSign; [ apply mul_hasSign | ]; assumption.
Qed.

(** An interface value is on the side of the value it is computed from. *)
Lemma signedDistance_kept (value : list float) (i : nat) (v x : float) :
  nth_error value i = Some v ->
  signedDistance mesh value i = Ok (Some x) ->
  kept v x.
Proof.
  intros Hv H. unfold signedDistance in H.
  rewrite (proj2 (getitem_Ok _ _ _ _) Hv) in H. cbn [bind] in H.
  destruct (distancesRow mesh value i) as [distances | e] eqn:Hd;
    cbn [bind] in H; [ | discriminate ].
  cbv zeta in H.
  assert (forall j d, getitem distances j = Ok (Some d) -> hasSign false d) as Hsign.
  { intros j d Hj. eapply distancesRow_sign; [ exact Hd | ].
    eapply getitem_In. exact Hj. }
  assert (forall s, hasSign false s ->
                    MA.mul (Some (sign_of v)) (Some s) = Some x -> kept v x) as Hone.
  { intros s Hs Hx. cbn in Hx. injection Hx as <-. apply hasSign_kept.
    replace (negb (gt0 v)) with (xorb (negb (gt0 v)) false)
      by (destruct (gt0 v); reflexivity).
    apply mul_hasSign; [ apply sign_of_hasSign | exact Hs ]. }
  assert (forall s t, hasSign false s -> hasSign false t ->
                      combineTwo (sign_of v) (Some s) (Some t) = Some x -> kept v x)
    as Htwo.
  { intros s t Hs Ht Hx. apply hasSign_kept.
    eapply combineTwo_sign; [ apply sign_of_hasSign | exact Hs | exact Ht | exact Hx ]. }
  destruct (getitem (argsort (map MA.filled distances)) 0) as [i0 | e];
    cbn [bind] in H; [ | discriminate ].
  destruct (getitem distances i0) as [s | e] eqn:Hs; cbn [bind] in H; [ | discriminate ].
  destruct (getDim mesh =? 2)%nat.
  - destruct (getitem (argsort (map MA.filled distances)) 1) as [i1 | e];
      cbn [bind] in H; [ | discriminate ].
    destruct (getitem distances i1) as [t | e] eqn:Ht; cbn [bind] in H; [ | discriminate ].
    destruct (getitem (argsort (map MA.filled distances)) 2) as [i2 | e];
      cbn [bind] in H; [ | discriminate ].
    destruct (getitem distances i2) as [u | e] eqn:Hu; cbn [bind] in H; [ | discriminate ].
    inv_binds H. injection H as H.
    destruct s as [s | ]; [ | injection H as <-; apply kept_refl ].
    destruct t as [t | ]; [ | eapply Hone; [ eapply Hsign; exact Hs | exact H ] ].
    destruct (abs (dot _ _) <? 0.9)%float.
    + eapply Htwo; [ eapply Hsign; exact Hs | eapply Hsign; exact Ht | exact H ].
    + destruct u as [u | ].
      * eapply Htwo; [ eapply Hsign; exact Hs | eapply Hsign; exact Hu | exact H ].
      * eapply Hone; [ eapply Hsign; exact Hs | exact H ].
  - injection H as H.
    destruct s as [s | ]; [ | injection H as <-; apply kept_refl ].
    eapply Hone; [ eapply Hsign; exact Hs | exact H ].
Qed.

End InterfaceSigns.

(** ** Signs after a distance-function pass *)

Section PassSigns.

Import Sign.

Context {libm : Libm}.

Variable mesh : Mesh.

Lemma unmaskedArray_nth (a : list (option float)) (l : list float) (i : nat) (x : float) :
  unmaskedArray a = Ok l ->
  nth_error l i = Some x -> nth_error a i = Some (Some x).
Proof.
  revert l i. induction a as [ | [y | ] a IH ]; intros l i H Hx; cbn in H.
  - injection H as <-. destruct i; discriminate.
  - inv_binds H. injection H as <-. destruct i as [ | i ]; cbn in *.
    + injection Hx as <-. reflexivity.
    + eapply IH; [ reflexivity | exact Hx ].
  - discriminate.
Qed.

Lemma unmaskedArray_length (a : list (option float)) (l : list float) :
  unmaskedArray a = Ok l -> length l = length a.
Proof.
  revert l. induction a as [ | [y | ] a IH ]; intros l H; cbn in H.
  - injection H as <-. reflexivity.
  - inv_binds H. injection H as <-. cbn. f_equal. apply IH. reflexivity.
  - discriminate.
Qed.

Lemma seedTrials_frame (ids : list nat) (st st' : Marching) (j : nat) :
  seedTrials mesh ids st = Ok st' ->
  ~ In j ids -> nth_error (value st') j = nth_error (value st) j.
Proof.
  revert st. induction ids as [ | id ids IH ]; intros st H Hj; cbn in H.
  - injection H as <-. reflexivity.
  - destruct (assignTrial mesh st id) as [st1 | e] eqn:E; cbn [bind] in H;
      [ | discriminate ].
    destruct (assignTrial_spec _ _ _ _ E) as (_ & _ & Hval).
    rewrite (IH _ H) by (intro Hin; apply Hj; right; exact Hin).
    apply Hval. intros ->. apply Hj. left. reflexivity.
Qed.

(** The cells that a run accepts or assigns are not evaluated when it
    starts. *)
Lemma Run_touched (w : number) (st st' : Marching) (touched : list nat) :
  Run mesh w st touched st' ->
  Scheduled st ->
  forall j, In j touched -> nth_error (evaluatedFlag st) j <> Some true.
Proof.
  induction 1 as [ st Ht | st st' id v Hne Ha Hp Hv Hb
                 | st st' st'' id v touched Hne Ha Hp Hv Hb Hrun IH ]; intros Hs j Hj.
  - destruct Hj.
  - destruct Hj as [<- | Hj].
    + destruct Hs as [_ Hfl]. rewrite (Hfl _ (accept_In _ _ Ha)). discriminate.
    + unfold assigned in Hj. apply filter_In in Hj. destruct Hj as [_ Hj].
      apply andb_prop in Hj. destruct Hj as [_ Hj]. intro Hn.
      rewrite (nth_error_nth _ _ true Hn) in Hj. discriminate.
  - destruct Hj as [<- | Hj].
    + destruct Hs as [_ Hfl]. rewrite (Hfl _ (accept_In _ _ Ha)). discriminate.
    + apply in_app_or in Hj. destruct Hj as [Hj | Hj].
      * unfold assigned in Hj. apply filter_In in Hj. destruct Hj as [_ Hj].
        apply andb_prop in Hj. destruct Hj as [_ Hj]. intro Hn.
        rewrite (nth_error_nth _ _ true Hn) in Hj. discriminate.
      * destruct (pass_spec _ _ _ _ Hp) as ((ev & Hev & Hflags) & _ & Hs').
        specialize (IH (Hs' Hs) j Hj). rewrite Hflags in IH.
        destruct (setitem_spec _ _ _ _ _ Hev) as (_ & Hid & Hother).
        intro Hn. apply IH.
        destruct (Nat.eq_dec j id) as [-> | Hne']; [ exact Hid | ].
        rewrite Hother by exact Hne'. exact Hn.
Qed.

(** X22: after a distance-function pass that returns, the value of every
    interface-seeded cell is on the side of zero of the value the cell had
    before the interface values were computed (after the delete-islands
    pass, when there is one): not negative for a positive cell, not positive
    for any other cell. *)
Theorem interface_sign_kept (self final : DistanceVariable)
    (narrowBandWidth : option number) (deleteIslands : bool) (value1 : list float) :
  (if deleteIslands
   then forCells (deleteIsland mesh (self_value self))
          (seq 0 (length (self_value self)))
   else Ok (self_value self)) = Ok value1 ->
  calcDistanceFunction mesh self narrowBandWidth deleteIslands = Some (Ok final) ->
  forall i v x,
    interfaceFlagCell mesh value1 i = Ok true ->
    nth_error value1 i = Some v ->
    nth_error (self_value final) i = Some x ->
    kept v x.
Proof.
  intros Hpre Hcalc i v x Hflag Hv Hx.
  unfold calcDistanceFunction, _calcDistanceFunction in Hcalc.
  destruct (beforeLoop mesh self None deleteIslands) as [st | e] eqn:Hb;
    [ | discriminate ].
  pose proof (beforeLoop_Scheduled _ _ _ _ _ Hb) as Hs.
  destruct (marching mesh _ _ st) as [[st' | e] | ] eqn:Hm; try discriminate.
  injection Hcalc as <-. cbn [fst self_value] in Hx.
  destruct (marching_Run _ _ _ _ _ Hm) as [touched Hrun].
  unfold beforeLoop in Hb.
  destruct (negb (sameShape mesh (self_value self))); [ discriminate | ].
  rewrite Hpre in Hb. cbn [bind] in Hb.
  destruct (forCells (signedDistance mesh value1) _) as [signed | e] eqn:Hsigned;
    cbn [bind] in Hb; [ | discriminate ].
  destruct (forCells (interfaceFlagCell mesh value1) _) as [interfaceFlag | e]
    eqn:Hif; cbn [bind] in Hb; [ | discriminate ].
  destruct (unmaskedArray signed) as [value2 | e] eqn:Hu; cbn [bind] in Hb;
    [ | discriminate ].
  destruct (negativeInterface mesh value2 _ _ _) as [ext1 | e]; cbn [bind] in Hb;
    [ | discriminate ].
  destruct (forCells (hasAdjInterface mesh interfaceFlag) _) as [hasAdj | e];
    cbn [bind] in Hb; [ | discriminate ].
  destruct (forCells_seq _ _ _ _ Hsigned) as [Hlens Hsd].
  destruct (forCells_seq _ _ _ _ Hif) as [Hlenf Hfl].
  pose proof (unmaskedArray_length _ _ Hu) as Hlen2.
  destruct (seedTrials_spec _ _ _ _ Hb) as [Hev Htr].
  cbn [evaluatedFlag trialIDs] in Hev, Htr.
  (* the cell is flagged as an interface cell *)
  assert (i < length (self_value self))%nat as Hi.
  { destruct (nth_error interfaceFlag i) as [b | ] eqn:Hn.
    - rewrite <- Hlenf. apply nth_error_Some. rewrite Hn. discriminate.
    - unfold interfaceFlagCell, distancesRow in Hflag.
      rewrite (proj2 (getitem_Ok _ _ _ _) Hv) in Hflag.
      assert (length value1 = length (self_value self)) as Hl1.
      { destruct deleteIslands.
        - apply (forCells_seq _ _ _ _ Hpre).
        - injection Hpre as <-. reflexivity. }
      rewrite <- Hl1. apply nth_error_Some. rewrite Hv. discriminate. }
  assert (nth_error interfaceFlag i = Some true) as Hti.
  { destruct (nth_error interfaceFlag i) as [b | ] eqn:Hn.
    - specialize (Hfl _ _ Hn). rewrite Hflag in Hfl. injection Hfl as <-. reflexivity.
    - apply nth_error_None in Hn. lia. }
  (* hence it is not touched by the loop, nor by the first trial values *)
  assert (nth_error (value st') i = nth_error (value st) i) as Hloop.
  { eapply Run_frame; [ exact Hrun | ]. intro Hin.
    apply (Run_touched _ _ _ _ Hrun Hs i Hin). rewrite Hev. exact Hti. }
  assert (nth_error (value st) i = nth_error value2 i) as Hseed.
  { rewrite (seedTrials_frame _ _ _ i Hb); [ reflexivity | ].
    intro Hin. apply nonzero_from_In in Hin. destruct Hin as [_ Hin].
    rewrite Nat.sub_0_r in Hin. apply trialFlag_true in Hin. congruence. }
  rewrite Hloop, Hseed in Hx.
  pose proof (unmaskedArray_nth _ _ _ _ Hu Hx) as Hsx.
  apply Hsd in Hsx. eapply signedDistance_kept; eassumption.
Qed.

End PassSigns.

Section SignScenarios.

#[local] Existing Instance rounded.

(** C4 fails on the code: on the mesh of five cells no island is deleted
    and the positive cell 0 is no interface cell; it is a trial cell, and the
    two-neighbour solve on its evaluated neighbours, at the values 0.5 and
    10 and the distances 1 and 10, gives it the negative value -24/85,
    with which the pass ends. *)
Theorem sign_not_kept :
  nth_error fieldSkew 0 = Some 1
  /\ gt0 1 = true
  /\ interfaceFlagCell meshSkew fieldSkew 0 = Ok false
  /\ beforeLoop meshSkew (newVariable fieldSkew) None false
     = Ok {| value := [-0.28235294117647058; 0.5; 10; -0.5; -10];
             extensionVariable := [0; 0; 0; 0; 0];
             evaluatedFlag := [false; true; true; true; true];
             trialIDs := [0%nat] |}
  /\ _calcTrialValue meshSkew [1; 0.5; 10; -0.5; -10] 0
       [false; true; true; true; true] [0; 0; 0; 0; 0]
     = Ok (-0.28235294117647058, 0)
  /\ fieldOf (calcDistanceFunction meshSkew (newVariable fieldSkew) None false)
     = Some [-0.28235294117647058; 0.5; 10; -0.5; -10]
  /\ lt0 (-0.28235294117647058) = true.
Proof. repeat split; vm_compute; reflexivity. Qed.

Lemma interface_sign_kept_witness : Sign.kept 1 0.5.
Proof.
  apply (@interface_sign_kept rounded meshSkew (newVariable fieldSkew) finalSkew None
           false fieldSkew eq_refl) with (i := 1%nat); vm_compute; reflexivity.
Defined.

End SignScenarios.

(** * Further properties of the propagator *)

Section PropagatorMore.

Context {libm : Libm}.

Variable mesh : Mesh.

Lemma assignTrial_more (st st' : Marching) (id : nat) :
  assignTrial mesh st id = Ok st' ->
  length (value st') = length (value st)
  /\ length (extensionVariable st') = length (extensionVariable st)
  /\ forall j, j <> id ->
               nth_error (extensionVariable st') j = nth_error (extensionVariable st) j.
Proof.
  unfold assignTrial. intro H.
  destruct (_calcTrialValue mesh _ _ _ _) as [r | e]; cbn [bind] in H; [ | discriminate ].
  destruct (setitem (value st) id (fst r)) as [val | e] eqn:Ev; cbn [bind] in H;
    [ | discriminate ].
  destruct (setitem (extensionVariable st) id (snd r)) as [ext | e] eqn:Ee;
    cbn [bind] in H; [ | discriminate ].
  injection H as <-. cbn.
  destruct (setitem_spec _ _ _ _ _ Ev) as (Hl & _ & _).
  destruct (setitem_spec _ _ _ _ _ Ee) as (Hl' & _ & Ho).
  auto.
Qed.

Lemma relax_more (adjIDs : list (option nat)) (st st' : Marching) :
  relax mesh adjIDs st = Ok st' ->
  length (value st') = length (value st)
  /\ length (extensionVariable st') = length (extensionVariable st)
  /\ forall j, ~ In j (unevaluatedOf (evaluatedFlag st) adjIDs) ->
               nth_error (extensionVariable st') j = nth_error (extensionVariable st) j.
Proof.
  revert st st'. induction adjIDs as [ | [adjID | ] adjIDs IH ]; intros st st' H;
    cbn [relax] in H.
  - injection H as <-. auto.
  - destruct (getitem (evaluatedFlag st) adjID) as [ev | e] eqn:E;
      cbn [bind] in H; [ | discriminate ].
    apply getitem_Ok in E.
    unfold unevaluatedOf. cbn [flat_map app filter].
    rewrite (nth_error_nth _ _ true E).
    destruct ev; cbn [negb].
    + apply IH in H. exact H.
    + destruct (assignTrial mesh st adjID) as [st1 | e] eqn:E0;
        cbn [bind] in H; [ | discriminate ].
      destruct (assignTrial_spec _ _ _ _ E0) as (Hev & _ & _).
      destruct (assignTrial_more _ _ _ E0) as (Hl & Hl' & Ho).
      apply IH in H.
      assert (forall (P : Marching -> Prop),
                 P st1 ->
                 (P st1 -> P {| value := value st1;
                                extensionVariable := extensionVariable st1;
                                evaluatedFlag := evaluatedFlag st1;
                                trialIDs := trialIDs st1 ++ [adjID] |}) ->
                 P (if inList adjID (trialIDs st1) then st1
                    else {| value := value st1;
                            extensionVariable := extensionVariable st1;
                            evaluatedFlag := evaluatedFlag st1;
                            trialIDs := trialIDs st1 ++ [adjID] |})) as Hcase
        by (intros P H1 H2; destruct (inList adjID (trialIDs st1)); auto).
      destruct H as (H1 & H2 & H3).
      repeat split.
      * rewrite H1. apply Hcase; auto.
      * rewrite H2. apply Hcase; auto.
      * intros j Hj. rewrite H3.
        -- apply Hcase; cbn; [ | auto ].
           apply Ho. intros ->. apply Hj. left. reflexivity.
        -- intro Hin. apply Hj. right.
           revert Hin. apply Hcase; cbn; rewrite Hev; auto.
  - apply IH in H. exact H.
Qed.

Lemma pass_more (st st' : Marching) (id : nat) :
  pass mesh st id = Ok st' ->
  length (value st') = length (value st)
  /\ length (extensionVariable st') = length (extensionVariable st)
  /\ length (evaluatedFlag st') = length (evaluatedFlag st)
  /\ nth_error (evaluatedFlag st') id = Some true
  /\ (forall j, j <> id ->
                nth_error (evaluatedFlag st') j = nth_error (evaluatedFlag st) j)
  /\ (forall j, ~ In j (assigned mesh st id) ->
                nth_error (extensionVariable st') j = nth_error (extensionVariable st) j).
Proof.
  intro H. destruct (pass_spec _ _ _ _ H) as ((ev & Hev & Hflags) & _ & _).
  destruct (setitem_spec _ _ _ _ _ Hev) as (Hl & Hid & Hother).
  unfold pass in H. rewrite Hev in H. cbn [bind] in H.
  destruct (getitem (_getCellToCellIDs mesh) id) as [row | e] eqn:Hrow;
    cbn [bind] in H; [ | discriminate ].
  apply relax_more in H. cbn [value extensionVariable evaluatedFlag] in H.
  destruct H as (H1 & H2 & H3). apply getitem_Ok in Hrow.
  rewrite Hflags. repeat split; auto.
  intros j Hj. apply H3. intro Hin. apply Hj.
  unfold assigned, unevaluatedOf in *. rewrite (nth_error_nth _ _ [] Hrow).
  apply filter_In in Hin. destruct Hin as [Hin Hf]. apply filter_In.
  split; [ exact Hin | ].
  rewrite (setitem_nth_true _ _ _ _ Hev) in Hf.
  rewrite negb_orb in Hf. exact Hf.
Qed.

End PropagatorMore.

Section PassMore.

Context {libm : Libm}.

Variable mesh : Mesh.

(** The steps of [beforeLoop] and their results. *)
Lemma beforeLoop_steps (self : DistanceVariable) (extension : option (list float))
    (deleteIslands : bool) (st : Marching) :
  beforeLoop mesh self extension deleteIslands = Ok st ->
  exists value1 signed interfaceFlag value2 ext1 hasAdj,
    let n := length (self_value self) in
    let trialFlag :=
      map (fun fh => negb (fst fh) && snd fh) (combine interfaceFlag hasAdj) in
    (if deleteIslands
     then forCells (deleteIsland mesh (self_value self)) (seq 0 n)
     else Ok (self_value self)) = Ok value1
    /\ forCells (signedDistance mesh value1) (seq 0 n) = Ok signed
    /\ forCells (interfaceFlagCell mesh value1) (seq 0 n) = Ok interfaceFlag
    /\ unmaskedArray signed = Ok value2
    /\ negativeInterface mesh value2 (whereFlag gt0 value2 interfaceFlag)
         (nonzero (whereFlag lt0 value2 interfaceFlag))
         (match extension with
          | Some e => e
          | None => repeat 0%float (getNumberOfCells mesh)
          end) = Ok ext1
    /\ forCells (hasAdjInterface mesh interfaceFlag) (seq 0 n) = Ok hasAdj
    /\ seedTrials mesh (nonzero trialFlag)
         {| value := match extension with
                     | Some _ => self_tmpValue self
                     | None => value2
                     end;
            extensionVariable := ext1;
            evaluatedFlag := interfaceFlag;
            trialIDs := nonzero trialFlag |} = Ok st.
Proof.
  unfold beforeLoop. intro H.
  destruct (negb (sameShape mesh (self_value self))); [ discriminate | ].
  destruct (if deleteIslands then _ else _) as [value1 | e] eqn:H1;
    cbn [bind] in H; [ | discriminate ].
  destruct (forCells (signedDistance mesh value1) _) as [signed | e] eqn:H2;
    cbn [bind] in H; [ | discriminate ].
  destruct (forCells (interfaceFlagCell mesh value1) _) as [interfaceFlag | e] eqn:H3;
    cbn [bind] in H; [ | discriminate ].
  destruct (unmaskedArray signed) as [value2 | e] eqn:H4; cbn [bind] in H;
    [ | discriminate ].
  destruct (negativeInterface mesh value2 _ _ _) as [ext1 | e] eqn:H5;
    cbn [bind] in H; [ | discriminate ].
  destruct (forCells (hasAdjInterface mesh interfaceFlag) _) as [hasAdj | e] eqn:H6;
    cbn [bind] in H; [ | discriminate ].
  exists value1, signed, interfaceFlag, value2, ext1, hasAdj. cbv zeta.
  repeat split; assumption.
Qed.

Lemma seedTrials_more (ids : list nat) (st st' : Marching) :
  seedTrials mesh ids st = Ok st' ->
  length (value st') = length (value st)
  /\ length (extensionVariable st') = length (extensionVariable st)
  /\ forall j, ~ In j ids ->
               nth_error (extensionVariable st') j = nth_error (extensionVariable st) j.
Proof.
  revert st. induction ids as [ | id ids IH ]; intros st H; cbn in H.
  - injection H as <-. auto.
  - destruct (assignTrial mesh st id) as [st1 | e] eqn:E; cbn [bind] in H;
      [ | discriminate ].
    destruct (assignTrial_more _ _ _ _ E) as (Hl & Hl' & Ho).
    destruct (IH _ H) as (H1 & H2 & H3). repeat split; try congruence.
    intros j Hj. rewrite H3 by (intro Hin; apply Hj; right; exact Hin).
    apply Ho. intros ->. apply Hj. left. reflexivity.
Qed.

Lemma negativeInterface_more (value : list float) (flag : list bool) (ids : list nat)
    (ext ext' : list float) :
  negativeInterface mesh value flag ids ext = Ok ext' ->
  length ext' = length ext
  /\ forall j, ~ In j ids -> nth_error ext' j = nth_error ext j.
Proof.
  revert ext. induction ids as [ | id ids IH ]; intros ext H; cbn in H.
  - injection H as <-. auto.
  - destruct (_calcTrialValue mesh value id flag ext) as [r | e]; cbn [bind] in H;
      [ | discriminate ].
    destruct (setitem ext id (snd r)) as [ext1 | e] eqn:E; cbn [bind] in H;
      [ | discriminate ].
    destruct (setitem_spec _ _ _ _ _ E) as (Hl & _ & Ho).
    destruct (IH _ H) as (H1 & H2). split; [ congruence | ].
    intros j Hj. rewrite H2 by (intro Hin; apply Hj; right; exact Hin).
    apply Ho. intros ->. apply Hj. left. reflexivity.
Qed.

(** What a complete run of the loop keeps. *)
Lemma Run_more (w : number) (st st' : Marching) (touched : list nat) :
  Run mesh w st touched st' ->
  Scheduled st ->
  Scheduled st'
  /\ length (value st') = length (value st)
  /\ length (extensionVariable st') = length (extensionVariable st)
  /\ length (evaluatedFlag st') = length (evaluatedFlag st)
  /\ (forall j, nth_error (evaluatedFlag st) j = Some true ->
                nth_error (evaluatedFlag st') j = Some true)
  /\ (forall j, ~ In j touched ->
                nth_error (evaluatedFlag st') j = nth_error (evaluatedFlag st) j)
  /\ (forall j, ~ In j touched ->
                nth_error (extensionVariable st') j
                = nth_error (extensionVariable st) j).
Proof.
  induction 1 as [ st Ht | st st' id v Hne Ha Hp Hv Hb
                 | st st' st'' id v touched Hne Ha Hp Hv Hb Hrun IH ]; intro Hs.
  - repeat split; auto; apply Hs.
  - destruct (pass_spec _ _ _ _ Hp) as (_ & _ & Hs').
    destruct (pass_more _ _ _ _ Hp) as (H1 & H2 & H3 & H4 & H5 & H6).
    repeat split; auto; try apply (Hs' Hs).
    + intros j Hj. destruct (Nat.eq_dec j id) as [-> | Hn]; [ exact H4 | ].
      rewrite H5 by exact Hn. exact Hj.
    + intros j Hj. apply H5. intros ->. apply Hj. left. reflexivity.
    + intros j Hj. apply H6. intro Hin. apply Hj. right. exact Hin.
  - destruct (pass_spec _ _ _ _ Hp) as (_ & _ & Hs').
    destruct (pass_more _ _ _ _ Hp) as (H1 & H2 & H3 & H4 & H5 & H6).
    destruct (IH (Hs' Hs)) as (K0 & K1 & K2 & K3 & K4 & K5 & K6).
    repeat split; try congruence; try apply K0.
    + intros j Hj. apply K4.
      destruct (Nat.eq_dec j id) as [-> | Hn]; [ exact H4 | ].
      rewrite H5 by exact Hn. exact Hj.
    + intros j Hj. rewrite K5.
      * apply H5. intros ->. apply Hj. left. reflexivity.
      * intro Hin. apply Hj. right. apply in_or_app. right. exact Hin.
    + intros j Hj. rewrite K6.
      * apply H6. intro Hin. apply Hj. right. apply in_or_app. left. exact Hin.
      * intro Hin. apply Hj. right. apply in_or_app. right. exact Hin.
Qed.

End PassMore.

Section PassProperties.

Import Sign.

Context {libm : Libm}.

Variable mesh : Mesh.

Lemma nonzero_from_false (a : nat) (fl : list bool) :
  Forall (eq false) fl -> nonzero_from a fl = [].
Proof.
  intro H. revert a. induction H as [ | b fl <- _ IH ]; intro a; cbn; auto.
Qed.

Lemma whereFlag_false (cond : float -> bool) (value : list float) (fl : list bool) :
  Forall (eq false) fl -> Forall (eq false) (whereFlag cond value fl).
Proof.
  intro H. revert value. unfold whereFlag.
  induction H as [ | b fl <- _ IH ]; intros [ | v value ]; cbn; constructor; auto.
  destruct (cond v); reflexivity.
Qed.

Lemma whereFlag_In (cond : float -> bool) (value : list float) (fl : list bool) (i : nat) :
  In i (nonzero (whereFlag cond value fl)) ->
  exists x, nth_error value i = Some x /\ cond x = true /\ nth_error fl i = Some true.
Proof.
  unfold nonzero. intro H. apply nonzero_from_In in H. destruct H as [_ H].
  rewrite Nat.sub_0_r in H. unfold whereFlag in H. revert fl i H.
  induction value as [ | v value IH ]; intros [ | f fl ] [ | i ] H; cbn in H;
    try discriminate.
  - exists v. cbn. destruct (cond v); [ | discriminate ].
    injection H as ->. auto.
  - cbn. apply IH. exact H.
Qed.

Lemma nth_error_ext (A : Type) (l l' : list A) :
  length l = length l' ->
  (forall i x, nth_error l i = Some x -> nth_error l' i = Some x) -> l = l'.
Proof.
  revert l'. induction l as [ | a l IH ]; intros [ | b l' ] Hlen H; cbn in Hlen;
    try discriminate; [ reflexivity | ].
  f_equal.
  - specialize (H O a eq_refl). cbn in H. congruence.
  - apply IH; [ lia | ]. intros i x Hx. apply (H (S i)). exact Hx.
Qed.

Lemma marching_Scheduled_lengths (w : number) (fuel : nat) (st st' : Marching) :
  Scheduled st ->
  marching mesh fuel w st = Some (Ok st') ->
  length (value st') = length (value st)
  /\ length (extensionVariable st') = length (extensionVariable st).
Proof.
  intros Hs Hm. destruct (marching_Run _ _ _ _ _ Hm) as [touched Hrun].
  destruct (Run_more _ _ _ _ _ Hrun Hs) as (_ & H1 & H2 & _). auto.
Qed.

(** X2: a distance-function pass that returns gives a field of as many cells
    as it was given. *)
Theorem distance_keeps_length (self final : DistanceVariable)
    (narrowBandWidth : option number) (deleteIslands : bool) :
  calcDistanceFunction mesh self narrowBandWidth deleteIslands = Some (Ok final) ->
  length (self_value final) = length (self_value self).
Proof.
  intro Hcalc. unfold calcDistanceFunction, _calcDistanceFunction in Hcalc.
  destruct (beforeLoop mesh self None deleteIslands) as [st | e] eqn:Hb;
    [ | discriminate ].
  pose proof (beforeLoop_Scheduled _ _ _ _ _ Hb) as Hs.
  destruct (marching mesh _ _ st) as [[st' | e] | ] eqn:Hm; try discriminate.
  injection Hcalc as <-. cbn [fst self_value].
  destruct (marching_Scheduled_lengths _ _ _ _ Hs Hm) as [Hl _]. rewrite Hl.
  destruct (beforeLoop_steps _ _ _ _ _ Hb)
    as (value1 & signed & interfaceFlag & value2 & ext1 & hasAdj & H).
  cbv zeta in H. destruct H as (_ & H2 & _ & H4 & _ & _ & H7).
  destruct (seedTrials_more _ _ _ _ H7) as (Hl7 & _). rewrite Hl7. cbn [value].
  rewrite (unmaskedArray_length _ _ H4).
  apply (forCells_seq _ _ _ _ H2).
Qed.

(** X4: the propagator never changes an interface cell: after a pass that
    returns, the value of every interface-seeded cell is the interface value
    that the locator computed for it. *)
Theorem interface_value_final (self final : DistanceVariable)
    (narrowBandWidth : option number) (deleteIslands : bool) (value1 : list float) :
  (if deleteIslands
   then forCells (deleteIsland mesh (self_value self))
          (seq 0 (length (self_value self)))
   else Ok (self_value self)) = Ok value1 ->
  calcDistanceFunction mesh self narrowBandWidth deleteIslands = Some (Ok final) ->
  forall i x,
    interfaceFlagCell mesh value1 i = Ok true ->
    (i < length (self_value self))%nat ->
    nth_error (self_value final) i = Some x ->
    signedDistance mesh value1 i = Ok (Some x).
Proof.
  intros Hpre Hcalc i x Hflag Hi Hx.
  unfold calcDistanceFunction, _calcDistanceFunction in Hcalc.
  destruct (beforeLoop mesh self None deleteIslands) as [st | e] eqn:Hb;
    [ | discriminate ].
  pose proof (beforeLoop_Scheduled _ _ _ _ _ Hb) as Hs.
  destruct (marching mesh _ _ st) as [[st' | e] | ] eqn:Hm; try discriminate.
  injection Hcalc as <-. cbn [fst self_value] in Hx.
  destruct (marching_Run _ _ _ _ _ Hm) as [touched Hrun].
  destruct (beforeLoop_steps _ _ _ _ _ Hb)
    as (v1 & signed & interfaceFlag & value2 & ext1 & hasAdj & H).
  cbv zeta in H. destruct H as (H1 & H2 & H3 & H4 & _ & _ & H7).
  rewrite Hpre in H1. injection H1 as <-.
  destruct (forCells_seq _ _ _ _ H2) as [_ Hsd].
  destruct (forCells_seq _ _ _ _ H3) as [Hlenf Hfl].
  destruct (seedTrials_spec _ _ _ _ H7) as [Hev Htr].
  cbn [evaluatedFlag trialIDs] in Hev, Htr.
  assert (nth_error interfaceFlag i = Some true) as Hti.
  { destruct (nth_error interfaceFlag i) as [b | ] eqn:Hn.
    - specialize (Hfl _ _ Hn). rewrite Hflag in Hfl. injection Hfl as <-. reflexivity.
    - apply nth_error_None in Hn. lia. }
  rewrite (Run_frame _ _ _ _ _ Hrun) in Hx
    by (intro Hin; apply (Run_touched _ _ _ _ _ Hrun Hs i Hin); rewrite Hev; exact Hti).
  rewrite (seedTrials_frame _ _ _ _ i H7) in Hx.
  - cbn [value] in Hx. apply Hsd. eapply unmaskedArray_nth; eassumption.
  - intro Hin. apply nonzero_from_In in Hin. destruct Hin as [_ Hin].
    rewrite Nat.sub_0_r in Hin. apply trialFlag_true in Hin. congruence.
Qed.

(** [extendVariable] leaves the extension values of the positive interface
    cells as they are. *)
Lemma extension_positive_interface (self self' : DistanceVariable)
    (extension extension' : list float) (deleteIslands : bool) (value1 : list float) :
  (if deleteIslands
   then forCells (deleteIsland mesh (self_value self))
          (seq 0 (length (self_value self)))
   else Ok (self_value self)) = Ok value1 ->
  extendVariable mesh self extension deleteIslands = Some (Ok (self', extension')) ->
  forall i v,
    interfaceFlagCell mesh value1 i = Ok true ->
    nth_error value1 i = Some v ->
    gt0 v = true ->
    nth_error extension' i = nth_error extension i.
Proof.
  intros Hpre Hext i v Hflag Hv Hpos.
  unfold extendVariable, _calcDistanceFunction in Hext.
  destruct (beforeLoop mesh _ (Some extension) deleteIslands) as [st | e] eqn:Hb;
    [ | discriminate ].
  pose proof (beforeLoop_Scheduled _ _ _ _ _ Hb) as Hs.
  destruct (marching mesh _ _ st) as [[st' | e] | ] eqn:Hm; try discriminate.
  injection Hext as _ <-. cbn [snd].
  destruct (marching_Run _ _ _ _ _ Hm) as [touched Hrun].
  destruct (beforeLoop_steps _ _ _ _ _ Hb)
    as (v1 & signed & interfaceFlag & value2 & ext1 & hasAdj & H).
  cbv zeta in H. cbn [self_value self_tmpValue] in H.
  destruct H as (H1 & H2 & H3 & H4 & H5 & _ & H7).
  rewrite Hpre in H1. injection H1 as <-.
  destruct (forCells_seq _ _ _ _ H2) as [Hlens Hsd].
  destruct (forCells_seq _ _ _ _ H3) as [Hlenf Hfl].
  destruct (seedTrials_spec _ _ _ _ H7) as [Hev Htr].
  cbn [evaluatedFlag trialIDs] in Hev, Htr.
  assert (length value1 = length (self_value self)) as Hl1.
  { destruct deleteIslands.
    - apply (forCells_seq _ _ _ _ Hpre).
    - injection Hpre as <-. reflexivity. }
  assert (i < length (self_value self))%nat as Hi
    by (rewrite <- Hl1; apply nth_error_Some; rewrite Hv; discriminate).
  assert (nth_error interfaceFlag i = Some true) as Hti.
  { destruct (nth_error interfaceFlag i) as [b | ] eqn:Hn.
    - specialize (Hfl _ _ Hn). rewrite Hflag in Hfl. injection Hfl as <-. reflexivity.
    - apply nth_error_None in Hn. lia. }
  destruct (Run_more _ _ _ _ _ Hrun Hs) as (_ & _ & _ & _ & _ & _ & Hfr).
  rewrite Hfr
    by (intro Hin; apply (Run_touched _ _ _ _ _ Hrun Hs i Hin); rewrite Hev; exact Hti).
  destruct (seedTrials_more _ _ _ _ H7) as (_ & _ & Hseed).
  rewrite Hseed.
  - cbn [extensionVariable].
    destruct (negativeInterface_more _ _ _ _ _ _ H5) as [_ Hneg]. apply Hneg.
    intro Hin. apply whereFlag_In in Hin. destruct Hin as (x & Hx & Hlt & _).
    pose proof (unmaskedArray_nth _ _ _ _ H4 Hx) as Hsx. apply Hsd in Hsx.
    destruct (signedDistance_kept _ _ _ _ _ Hv Hsx) as [Hk _].
    rewrite (Hk Hpos) in Hlt. discriminate.
  - intro Hin. apply nonzero_from_In in Hin. destruct Hin as [_ Hin].
    rewrite Nat.sub_0_r in Hin. apply trialFlag_true in Hin. congruence.
Qed.

(** The cells that [extendVariable] gives a new extension value are negative
    interface cells, trial cells of the start of the loop, or cells that the
    loop accepts or assigns. *)
Lemma extension_reached (self self' : DistanceVariable)
    (extension extension' : list float) (deleteIslands : bool) (value1 : list float) :
  (if deleteIslands
   then forCells (deleteIsland mesh (self_value self))
          (seq 0 (length (self_value self)))
   else Ok (self_value self)) = Ok value1 ->
  extendVariable mesh self extension deleteIslands = Some (Ok (self', extension')) ->
  exists st st' touched,
    beforeLoop mesh {| self_value := self_value self;
                       self_tmpValue := self_value self;
                       self_narrowBandWidth := self_narrowBandWidth self |}
      (Some extension) deleteIslands = Ok st
    /\ Run mesh (self_narrowBandWidth self) st touched st'
    /\ extension' = extensionVariable st'
    /\ forall i,
         ~ (interfaceFlagCell mesh value1 i = Ok true
            /\ exists x, signedDistance mesh value1 i = Ok (Some x) /\ lt0 x = true) ->
         ~ In i (trialIDs st) ->
         ~ In i touched ->
         nth_error extension' i = nth_error extension i.
Proof.
  intros Hpre Hext.
  unfold extendVariable, _calcDistanceFunction in Hext.
  destruct (beforeLoop mesh _ (Some extension) deleteIslands) as [st | e] eqn:Hb;
    [ | discriminate ].
  pose proof (beforeLoop_Scheduled _ _ _ _ _ Hb) as Hs.
  destruct (marching mesh _ _ st) as [[st' | e] | ] eqn:Hm; try discriminate.
  injection Hext as _ <-. cbn [snd].
  destruct (marching_Run _ _ _ _ _ Hm) as [touched Hrun].
  cbn [self_narrowBandWidth] in Hrun.
  exists st, st', touched.
  split; [ reflexivity | ]. split; [ exact Hrun | ]. split; [ reflexivity | ].
  intros i Hneg Htrial Htouched.
  destruct (beforeLoop_steps _ _ _ _ _ Hb)
    as (v1 & signed & interfaceFlag & value2 & ext1 & hasAdj & H).
  cbv zeta in H. cbn [self_value self_tmpValue] in H.
  destruct H as (H1 & H2 & H3 & H4 & H5 & _ & H7).
  rewrite Hpre in H1. injection H1 as <-.
  destruct (forCells_seq _ _ _ _ H2) as [_ Hsd].
  destruct (forCells_seq _ _ _ _ H3) as [_ Hfl].
  destruct (seedTrials_spec _ _ _ _ H7) as [_ Htr]. cbn [trialIDs] in Htr.
  destruct (Run_more _ _ _ _ _ Hrun Hs) as (_ & _ & _ & _ & _ & _ & Hfr).
  rewrite Hfr by exact Htouched.
  destruct (seedTrials_more _ _ _ _ H7) as (_ & _ & Hseed).
  rewrite Hseed by (rewrite <- Htr; exact Htrial). cbn [extensionVariable].
  destruct (negativeInterface_more _ _ _ _ _ _ H5) as [_ Hkeep]. apply Hkeep.
  intro Hin. apply Hneg. apply whereFlag_In in Hin.
  destruct Hin as (x & Hx & Hlt & Hflag). split.
  - apply Hfl. exact Hflag.
  - exists x. split; [ | exact Hlt ].
    apply Hsd. eapply unmaskedArray_nth; eassumption.
Qed.

(** X7: [extendVariable] leaves the extension value of every positive
    interface cell as it was given; only negative interface cells and cells
    reached by the propagator get a new extension value: a cell that is no
    interface cell with a negative interface value, no trial cell at the
    start of the loop and neither accepted nor assigned by the loop keeps
    its extension value. *)
Theorem extension_kept_on_positive_interface (self self' : DistanceVariable)
    (extension extension' : list float) (deleteIslands : bool) (value1 : list float) :
  (if deleteIslands
   then forCells (deleteIsland mesh (self_value self))
          (seq 0 (length (self_value self)))
   else Ok (self_value self)) = Ok value1 ->
  extendVariable mesh self extension deleteIslands = Some (Ok (self', extension')) ->
  (forall i v,
      interfaceFlagCell mesh value1 i = Ok true ->
      nth_error value1 i = Some v ->
      gt0 v = true ->
      nth_error extension' i = nth_error extension i)
  /\ exists st st' touched,
       beforeLoop mesh {| self_value := self_value self;
                          self_tmpValue := self_value self;
                          self_narrowBandWidth := self_narrowBandWidth self |}
         (Some extension) deleteIslands = Ok st
       /\ Run mesh (self_narrowBandWidth self) st touched st'
       /\ extension' = extensionVariable st'
       /\ forall i,
            ~ (interfaceFlagCell mesh value1 i = Ok true
               /\ exists x, signedDistance mesh value1 i = Ok (Some x)
                            /\ lt0 x = true) ->
            ~ In i (trialIDs st) ->
            ~ In i touched ->
            nth_error extension' i = nth_error extension i.
Proof.
  intros Hpre Hext. split.
  - exact (extension_positive_interface self self' extension extension'
             deleteIslands value1 Hpre Hext).
  - exact (extension_reached self self' extension extension' deleteIslands value1
             Hpre Hext).
Qed.

End PassProperties.

Section PassEdges.

Context {libm : Libm}.

Variable mesh : Mesh.

Lemma unmasked_zero (A : Type) (row : list (option A)) :
  MA.unmasked row = 0%nat -> Forall (eq None) row.
Proof.
  unfold MA.unmasked. induction row as [ | [a | ] row IH ]; cbn; intro H.
  - constructor.
  - discriminate.
  - constructor; auto.
Qed.

Lemma signedDistance_no_candidate (value : list float) (i : nat) (v : float)
    (o : option float) :
  nth_error value i = Some v ->
  interfaceFlagCell mesh value i = Ok false ->
  signedDistance mesh value i = Ok o ->
  o = Some v.
Proof.
  intros Hv Hflag H. unfold interfaceFlagCell in Hflag. unfold signedDistance in H.
  rewrite (proj2 (getitem_Ok _ _ _ _) Hv) in H. cbn [bind] in H.
  destruct (distancesRow mesh value i) as [distances | e]; cbn [bind] in *;
    [ | discriminate ].
  injection Hflag as Hflag.
  assert (MA.unmasked distances = 0%nat) as Hz
    by (destruct (MA.unmasked distances); [ reflexivity | discriminate ]).
  apply unmasked_zero in Hz. rewrite Forall_forall in Hz.
  cbv zeta in H.
  destruct (getitem (argsort (map MA.filled distances)) 0) as [i0 | e];
    cbn [bind] in H; [ | discriminate ].
  destruct (getitem distances i0) as [s | e] eqn:Hs; cbn [bind] in H; [ | discriminate ].
  assert (s = None) as -> by (symmetry; apply Hz; eapply getitem_In; exact Hs).
  destruct (getDim mesh =? 2)%nat.
  - inv_binds H. injection H as <-. reflexivity.
  - injection H as <-. reflexivity.
Qed.

Lemma hasAdjInterface_false (interfaceFlag : list bool) (i : nat) (h : bool) :
  Forall (eq false) interfaceFlag ->
  hasAdjInterface mesh interfaceFlag i = Ok h -> h = false.
Proof.
  intros Hf H. unfold hasAdjInterface in H.
  destruct (getitem (_getCellToCellIDs mesh) i) as [ids | e]; cbn [bind] in H;
    [ | discriminate ].
  destruct (MAtake interfaceFlag ids) as [adj | e] eqn:Ha; cbn [bind] in H;
    [ | discriminate ].
  injection H as <-. rewrite (MAtake_map _ _ _ _ Ha).
  rewrite Forall_forall in Hf. clear Ha.
  induction ids as [ | [k | ] ids IH ]; cbn; auto.
  destruct (nth_error interfaceFlag k) as [b | ] eqn:Hk; [ | exact IH ].
  rewrite <- (Hf b (nth_error_In _ _ Hk)). exact IH.
Qed.

(** X3: a field without a sign change between neighbouring cells has no
    interface; a distance-function pass without [deleteIslands] that returns
    gives such a field back as it is. *)
Theorem no_interface_unchanged (self final : DistanceVariable)
    (narrowBandWidth : option number) :
  (forall i, (i < length (self_value self))%nat ->
             interfaceFlagCell mesh (self_value self) i = Ok false) ->
  calcDistanceFunction mesh self narrowBandWidth false = Some (Ok final) ->
  self_value final = self_value self.
Proof.
  intros Hno Hcalc. unfold calcDistanceFunction, _calcDistanceFunction in Hcalc.
  destruct (beforeLoop mesh self None false) as [st | e] eqn:Hb; [ | discriminate ].
  destruct (beforeLoop_steps _ _ _ _ _ Hb)
    as (value1 & signed & interfaceFlag & value2 & ext1 & hasAdj & H).
  cbv zeta in H. destruct H as (H1 & H2 & H3 & H4 & H5 & H6 & H7).
  injection H1 as <-.
  destruct (forCells_seq _ _ _ _ H2) as [Hlens Hsd].
  destruct (forCells_seq _ _ _ _ H3) as [Hlenf Hfl].
  assert (Forall (eq false) interfaceFlag) as Hiff.
  { apply Forall_forall. intros b Hin. apply In_nth_error in Hin.
    destruct Hin as [i Hi]. pose proof (Hfl _ _ Hi) as Hb'.
    rewrite Hno in Hb'.
    - injection Hb' as <-. reflexivity.
    - rewrite <- Hlenf. apply nth_error_Some. rewrite Hi. discriminate. }
  assert (value2 = self_value self) as ->.
  { apply nth_error_ext.
    - rewrite (unmaskedArray_length _ _ H4). exact Hlens.
    - intros i x Hx. pose proof (unmaskedArray_nth _ _ _ _ H4 Hx) as Hsx.
      assert (i < length (self_value self))%nat as Hi.
      { rewrite <- Hlens. apply nth_error_Some. rewrite Hsx. discriminate. }
      destruct (nth_error (self_value self) i) as [v | ] eqn:Hv;
        [ | apply nth_error_None in Hv; lia ].
      apply Hsd in Hsx.
      pose proof (signedDistance_no_candidate _ _ _ _ Hv (Hno _ Hi) Hsx) as Heq.
      congruence. }
  assert (Forall (eq false) hasAdj) as Hadj.
  { apply Forall_forall. intros h Hin. apply In_nth_error in Hin.
    destruct Hin as [i Hi].
    destruct (forCells_seq _ _ _ _ H6) as [_ Hh].
    symmetry. eapply hasAdjInterface_false; [ exact Hiff | apply Hh; exact Hi ]. }
  assert (nonzero (map (fun fh => negb (fst fh) && snd fh)
                       (combine interfaceFlag hasAdj)) = []) as Htrial.
  { apply nonzero_from_false. clear - Hadj. revert interfaceFlag.
    induction Hadj as [ | h hasAdj <- _ IH ]; intros [ | f fl ]; cbn; constructor.
    - rewrite andb_false_r. reflexivity.
    - apply IH. }
  rewrite Htrial in H7. cbn in H7. injection H7 as <-.
  cbn in Hcalc. injection Hcalc as <-. reflexivity.
Qed.

(** X5: along the loop a cell that is evaluated stays evaluated, the trial
    cells stay distinct and not evaluated, and the arrays keep their
    lengths. *)
Theorem loop_keeps_schedule (w : number) (fuel : nat) (st st' : Marching) :
  scheduled st = true ->
  marching mesh fuel w st = Some (Ok st') ->
  Scheduled st'
  /\ (forall j, nth_error (evaluatedFlag st) j = Some true ->
                nth_error (evaluatedFlag st') j = Some true)
  /\ length (value st') = length (value st)
  /\ length (evaluatedFlag st') = length (evaluatedFlag st).
Proof.
  intros Hs Hm. apply scheduled_Scheduled in Hs.
  destruct (marching_Run _ _ _ _ _ Hm) as [touched Hrun].
  destruct (Run_more _ _ _ _ _ Hrun Hs) as (H0 & H1 & _ & H3 & H4 & _). auto.
Qed.

(** X8: [extendVariable] gives back an extension array of the length it was
    given, and the field it was given. *)
Theorem extendVariable_lengths (self self' : DistanceVariable)
    (extension extension' : list float) (deleteIslands : bool) :
  extendVariable mesh self extension deleteIslands = Some (Ok (self', extension')) ->
  length extension' = length extension /\ self_value self' = self_value self.
Proof.
  intro Hext. unfold extendVariable, _calcDistanceFunction in Hext.
  destruct (beforeLoop mesh _ (Some extension) deleteIslands) as [st | e] eqn:Hb;
    [ | discriminate ].
  pose proof (beforeLoop_Scheduled _ _ _ _ _ Hb) as Hs.
  destruct (marching mesh _ _ st) as [[st' | e] | ] eqn:Hm; try discriminate.
  injection Hext as <- <-. cbn [fst snd self_value self_tmpValue].
  split; [ | reflexivity ].
  destruct (marching_Scheduled_lengths _ _ _ _ _ Hs Hm) as [_ Hl]. rewrite Hl.
  destruct (beforeLoop_steps _ _ _ _ _ Hb)
    as (value1 & signed & interfaceFlag & value2 & ext1 & hasAdj & H).
  cbv zeta in H. destruct H as (_ & _ & _ & _ & H5 & _ & H7).
  destruct (seedTrials_more _ _ _ _ H7) as (_ & Hl7 & _). rewrite Hl7.
  cbn [extensionVariable].
  apply (negativeInterface_more _ _ _ _ _ _ H5).
Qed.

End PassEdges.

(** ** The order of the acceptances *)

Section Acceptance.

Local Open Scope float_scope.

Lemma SFltb_trans (x y z : spec_float) :
  SFltb x y = true -> SFltb y z = true -> SFltb x z = true.
Proof.
  unfold SFltb.
  destruct x as [ sx | sx | | sx mx ex ], y as [ sy | sy | | sy my ey ],
    z as [ sz | sz | | sz mz ez ]; cbn;
    try discriminate; try reflexivity;
    try (destruct sx; cbn; try discriminate; try reflexivity);
    try (destruct sy; cbn; try discriminate; try reflexivity);
    try (destruct sz; cbn; try discriminate; try reflexivity).
  all: change (Pos.compare_cont Eq) with Pos.compare.
  all: destruct (Z.compare_spec ex ey); destruct (Z.compare_spec ey ez);
    destruct (Z.compare_spec ex ez); try discriminate; try reflexivity; try lia; subst.
  all: try (destruct (Pos.compare_spec mx my); destruct (Pos.compare_spec my mz);
    destruct (Pos.compare_spec mx mz); cbn; try discriminate; try reflexivity; lia).
Qed.

Lemma SFltb_irrefl (x : spec_float) : SFltb x x = false.
Proof.
  unfold SFltb. destruct x as [ sx | sx | | sx mx ex ]; cbn; try reflexivity;
    destruct sx; cbn; try reflexivity.
  all: rewrite Z.compare_refl; change (Pos.compare_cont Eq) with Pos.compare;
    rewrite Pos.compare_refl; reflexivity.
Qed.

Lemma ltb_trans (x y z : float) : (x <? y) = true -> (y <? z) = true -> (x <? z) = true.
Proof. rewrite !ltb_spec. apply SFltb_trans. Qed.

Lemma ltb_irrefl (x : float) : (x <? x) = false.
Proof. rewrite ltb_spec. apply SFltb_irrefl. Qed.

(** A key that is not below [b] is not below a key that is below [b]: the
    step of the search for the least key. *)
Lemma not_below_step (k k' b : float) :
  (k <? b) = false -> (k' <? b) = true -> (k <? k') = false.
Proof.
  intros Hk Hk'. destruct (k <? k') eqn:E; [ | reflexivity ].
  rewrite (ltb_trans _ _ _ E Hk') in Hk. discriminate.
Qed.

Lemma argmin_from_spec (rest pre : list float) (best i : nat) (bestkey : float) :
  i = length pre ->
  nth_error pre best = Some bestkey ->
  (forall j kj, nth_error pre j = Some kj -> (kj <? bestkey) = false) ->
  exists ka,
    nth_error (pre ++ rest) (argmin_from best bestkey i rest) = Some ka
    /\ forall j kj, nth_error (pre ++ rest) j = Some kj -> (kj <? ka) = false.
Proof.
  revert pre best i bestkey. induction rest as [ | k rest IH ];
    intros pre best i bestkey Hi Hbest Hinv; cbn [argmin_from].
  - exists bestkey. rewrite app_nil_r. auto.
  - assert (pre ++ k :: rest = (pre ++ [k]) ++ rest) as Happ
      by (rewrite <- app_assoc; reflexivity).
    assert (S i = length (pre ++ [k])) as Hlen
      by (rewrite length_app; cbn; lia).
    assert (best < length pre)%nat as Hlt
      by (apply nth_error_Some; rewrite Hbest; discriminate).
    rewrite Happ.
    assert (forall j kj, nth_error (pre ++ [k]) j = Some kj ->
                         (j < length pre)%nat /\ nth_error pre j = Some kj
                         \/ j = length pre /\ kj = k) as Hsplit.
    { intros j kj Hj. destruct (Nat.lt_ge_cases j (length pre)) as [Hjl | Hjl].
      - left. rewrite nth_error_app1 in Hj by exact Hjl. auto.
      - right. rewrite nth_error_app2 in Hj by exact Hjl.
        destruct (j - length pre)%nat as [ | [ | d ] ] eqn:Hd; cbn in Hj;
          try discriminate.
        injection Hj as <-. split; [ lia | reflexivity ]. }
    destruct (k <? bestkey) eqn:Hk.
    + apply IH; [ exact Hlen | | ].
      * subst i. rewrite nth_error_app2 by lia. rewrite Nat.sub_diag. reflexivity.
      * intros j kj Hj. destruct (Hsplit _ _ Hj) as [[_ Hj'] | [_ ->]].
        -- eapply not_below_step; [ apply (Hinv _ _ Hj') | exact Hk ].
        -- apply ltb_irrefl.
    + apply IH; [ exact Hlen | | ].
      * rewrite nth_error_app1 by exact Hlt. exact Hbest.
      * intros j kj Hj. destruct (Hsplit _ _ Hj) as [[_ Hj'] | [_ ->]].
        -- apply (Hinv _ _ Hj').
        -- exact Hk.
Qed.

(** [Numeric.argmin] gives the index of a key that no key is below. *)
Lemma argmin_spec (keys : list float) :
  keys <> [] ->
  exists ka,
    nth_error keys (argmin keys) = Some ka
    /\ forall j kj, nth_error keys j = Some kj -> (kj <? ka) = false.
Proof.
  destruct keys as [ | k rest ]; [ congruence | ]. intros _. unfold argmin.
  apply (argmin_from_spec rest [k] 0 1 k).
  - reflexivity.
  - reflexivity.
  - intros [ | [ | j ] ] kj Hj; cbn in Hj; try discriminate.
    injection Hj as <-. apply ltb_irrefl.
Qed.

Lemma take_nth_error (A : Type) (l : list A) (ids : list nat) (r : list A)
    (j : nat) (x : A) :
  take l ids = Ok r ->
  nth_error r j = Some x ->
  exists k, nth_error ids j = Some k /\ nth_error l k = Some x.
Proof.
  revert r j. induction ids as [ | i ids IH ]; intros r j H Hx; cbn in H.
  - injection H as <-. destruct j; discriminate.
  - destruct (getitem l i) as [a | e] eqn:Ea; cbn [bind] in H; [ | discriminate ].
    destruct (take l ids) as [r' | e] eqn:Er; cbn [bind] in H; [ | discriminate ].
    injection H as <-. destruct j as [ | j ]; cbn in *.
    + injection Hx as <-. exists i. split; [ reflexivity | ].
      apply getitem_Ok. exact Ea.
    + eapply IH; [ reflexivity | exact Hx ].
Qed.

Lemma take_nth_error_ids (A : Type) (l : list A) (ids : list nat) (r : list A)
    (j k : nat) :
  take l ids = Ok r ->
  nth_error ids j = Some k ->
  exists x, nth_error r j = Some x /\ nth_error l k = Some x.
Proof.
  revert r j. induction ids as [ | i ids IH ]; intros r j H Hk; cbn in H.
  - destruct j; discriminate.
  - destruct (getitem l i) as [a | e] eqn:Ea; cbn [bind] in H; [ | discriminate ].
    destruct (take l ids) as [r' | e] eqn:Er; cbn [bind] in H; [ | discriminate ].
    injection H as <-. destruct j as [ | j ]; cbn in *.
    + injection Hk as <-. exists a. split; [ reflexivity | ].
      apply getitem_Ok. exact Ea.
    + eapply IH; [ reflexivity | exact Hk ].
Qed.

(** X6: the cell that the loop accepts is a trial cell of least absolute
    value: no trial cell has a value that is smaller in absolute value. *)
Theorem accept_least (st : Marching) (id : nat) :
  trialIDs st <> [] ->
  accept st = Ok id ->
  In id (trialIDs st)
  /\ exists vid,
       nth_error (value st) id = Some vid
       /\ forall k vk,
            In k (trialIDs st) ->
            nth_error (value st) k = Some vk ->
            (abs vk <? abs vid) = false.
Proof.
  intros Hne Ha. split; [ apply accept_In; exact Ha | ].
  unfold accept in Ha.
  destruct (take (value st) (trialIDs st)) as [keys | e] eqn:Hk; cbn [bind] in Ha;
    [ | discriminate ].
  apply getitem_Ok in Ha.
  assert (map abs keys <> []) as Hkeys.
  { destruct keys; [ | discriminate ].
    apply take_length in Hk. destruct (trialIDs st); [ congruence | discriminate ]. }
  destruct (argmin_spec _ Hkeys) as (ka & Hka & Hmin).
  rewrite nth_error_map in Hka.
  destruct (nth_error keys (argmin (map abs keys))) as [vid | ] eqn:Hvid;
    [ | discriminate ].
  injection Hka as <-.
  destruct (take_nth_error _ _ _ _ _ _ Hk Hvid) as (k' & Hk' & Hv').
  rewrite Ha in Hk'. injection Hk' as <-.
  exists vid. split; [ exact Hv' | ].
  intros k vk Hin Hvk. apply In_nth_error in Hin. destruct Hin as [j Hj].
  destruct (take_nth_error_ids _ _ _ _ _ _ Hk Hj) as (x & Hx & Hx').
  rewrite Hvk in Hx'. injection Hx' as <-.
  apply (Hmin j). rewrite nth_error_map, Hx. reflexivity.
Qed.

End Acceptance.

Section SolverError.

Context {libm : Libm}.

(** X1: the solver raises its own error exactly when none of the neighbours
    of the cell is evaluated. *)
Theorem solver_raises_Error_iff (mesh : Mesh) (value : list float) (id : nat)
    (evaluatedFlag : list bool) (extensionVariable : list float)
    (g : Gathered) (c : float) :
  gather mesh value id evaluatedFlag extensionVariable = Ok g ->
  crossNormals mesh id g = Ok c ->
  (_calcTrialValue mesh value id evaluatedFlag extensionVariable = Raise Error
   <-> N g = 0%nat).
Proof. apply raise_Error_iff. Qed.

End SolverError.

Import MoreInputs.

Section PropagatorMoreScenarios.

#[local] Existing Instance rounded.

Lemma solver_raises_Error_iff_witness :
  _calcTrialValue mesh8 value8 0 flag8 ext8 = Raise Error <-> N gNone = 0%nat.
Proof.
  apply (solver_raises_Error_iff mesh8 value8 0 flag8 ext8 gNone 0);
    vm_compute; reflexivity.
Defined.

Lemma distance_keeps_length_witness :
  length (self_value final8) = length (self_value (newVariable field8)).
Proof.
  apply (distance_keeps_length mesh8 (newVariable field8) final8 None false).
  vm_compute. reflexivity.
Defined.

Lemma no_interface_unchanged_witness :
  self_value finalFlat = self_value (newVariable fieldFlat).
Proof.
  apply (no_interface_unchanged mesh8 (newVariable fieldFlat) finalFlat None).
  - intros i Hi. cbn in Hi.
    do 8 (destruct i as [ | i ]; [ vm_compute; reflexivity | ]). lia.
  - vm_compute. reflexivity.
Defined.

Lemma interface_value_final_witness :
  signedDistance meshSkew fieldSkew 1 = Ok (Some 0.5).
Proof.
  apply (interface_value_final meshSkew (newVariable fieldSkew) finalSkew None false
           fieldSkew eq_refl); vm_compute; first [ reflexivity | lia ].
Defined.

Lemma loop_keeps_schedule_witness :
  Scheduled loopEnd8
  /\ (forall j, nth_error (evaluatedFlag loop8) j = Some true ->
                nth_error (evaluatedFlag loopEnd8) j = Some true)
  /\ length (value loopEnd8) = length (value loop8)
  /\ length (evaluatedFlag loopEnd8) = length (evaluatedFlag loop8).
Proof.
  apply (loop_keeps_schedule mesh8 (PyFloat 1e10) 9 loop8 loopEnd8);
    vm_compute; reflexivity.
Defined.

Lemma accept_least_witness :
  In 2%nat (trialIDs loop8)
  /\ exists vid,
       nth_error (value loop8) 2 = Some vid
       /\ forall k vk,
            In k (trialIDs loop8) ->
            nth_error (value loop8) k = Some vk ->
            (abs vk <? abs vid) = false.
Proof.
  apply (accept_least loop8 2).
  - vm_compute. discriminate.
  - vm_compute. reflexivity.
Defined.

Lemma extension_kept_on_positive_interface_witness :
  (forall i v,
      interfaceFlagCell mesh22 (self_value self22v) i = Ok true ->
      nth_error (self_value self22v) i = Some v ->
      gt0 v = true ->
      nth_error (snd extended22) i = nth_error extension22 i)
  /\ exists st st' touched,
       beforeLoop mesh22 {| self_value := self_value self22v;
                            self_tmpValue := self_value self22v;
                            self_narrowBandWidth := self_narrowBandWidth self22v |}
         (Some extension22) false = Ok st
       /\ Run mesh22 (self_narrowBandWidth self22v) st touched st'
       /\ snd extended22 = extensionVariable st'
       /\ forall i,
            ~ (interfaceFlagCell mesh22 (self_value self22v) i = Ok true
               /\ exists x, signedDistance mesh22 (self_value self22v) i = Ok (Some x)
                            /\ lt0 x = true) ->
            ~ In i (trialIDs st) ->
            ~ In i touched ->
            nth_error (snd extended22) i = nth_error extension22 i.
Proof.
  apply (@extension_kept_on_positive_interface rounded mesh22 self22v (fst extended22)
           extension22 (snd extended22) false (self_value self22v) eq_refl).
  vm_compute. reflexivity.
Defined.

Lemma extendVariable_lengths_witness :
  length (snd extended22) = length extension22
  /\ self_value (fst extended22) = self_value self22v.
Proof.
  apply (extendVariable_lengths mesh22 self22v (fst extended22) extension22
           (snd extended22) false).
  vm_compute. reflexivity.
Defined.

End PropagatorMoreScenarios.

(** * The interface geometry queries *)

(** ** Arrays *)

Section ArrayLemmas.

Lemma forEach_Forall2 (A B : Type) (f : A -> result B) (l : list A) (r : list B) :
  forEach f l = Ok r -> Forall2 (fun a x => f a = Ok x) l r.
Proof.
  revert r. induction l as [ | a l IH ]; intros r H; cbn in H.
  - injection H as <-. constructor.
  - destruct (f a) as [x | e] eqn:Ea; cbn [bind] in H; [ | discriminate ].
    destruct (forEach f l) as [r' | e] eqn:Er; cbn [bind] in H; [ | discriminate ].
    injection H as <-. constructor; auto.
Qed.

Lemma forEach_returns (A B : Type) (f : A -> result B) (l : list A) :
  Forall (fun a => returns (f a)) l -> returns (forEach f l).
Proof.
  induction 1 as [ | a l [x Hx] _ [r Hr] ]; cbn.
  - exists []. reflexivity.
  - rewrite Hx. cbn. rewrite Hr. cbn. eexists. reflexivity.
Qed.

Lemma Forall2_nth_error_left (A B : Type) (P : A -> B -> Prop)
    (l1 : list A) (l2 : list B) :
  Forall2 P l1 l2 ->
  forall i a, nth_error l1 i = Some a -> exists x, nth_error l2 i = Some x /\ P a x.
Proof.
  induction 1 as [ | a b l1 l2 Hab _ IH ]; intros [ | i ] x Hx; cbn in *;
    try discriminate.
  - injection Hx as <-. exists b. auto.
  - apply IH. exact Hx.
Qed.

Lemma nth_error_combine (A B : Type) (a : list A) (b : list B) (j : nat) (x : A) (y : B) :
  nth_error a j = Some x -> nth_error b j = Some y ->
  nth_error (combine a b) j = Some (x, y).
Proof.
  revert b j. induction a as [ | a0 a IH ]; intros [ | b0 b ] [ | j ] Ha Hb;
    cbn in *; try discriminate.
  - congruence.
  - apply IH; assumption.
Qed.

(** On axes of one length [elementwise] goes element by element. *)
Lemma elementwise_nth (A B C : Type) (f : A -> B -> result C)
    (a : list A) (b : list B) (r : list C) :
  length a = length b ->
  elementwise f a b = Ok r ->
  length r = length a
  /\ forall j x y, nth_error a j = Some x -> nth_error b j = Some y ->
                   exists z, nth_error r j = Some z /\ f x y = Ok z.
Proof.
  intros Hlen H. unfold elementwise in H.
  rewrite (proj2 (Nat.eqb_eq _ _) Hlen) in H.
  apply forEach_Forall2 in H. split.
  - rewrite <- (Forall2_length H), length_combine. lia.
  - intros j x y Hx Hy. pose proof (nth_error_combine _ _ _ _ _ _ _ Hx Hy) as Hc.
    destruct (Forall2_nth_error_left _ _ _ _ _ H _ _ Hc) as (z & Hz & Hf).
    exists z. auto.
Qed.

Lemma repeatEach_rows (A : Type) (a : list A) (m : nat) :
  rows (length a) m (repeatEach a m) = map (fun x => repeat x m) a.
Proof.
  unfold repeatEach. induction a as [ | x a IH ]; cbn; [ reflexivity | ].
  rewrite firstn_app, repeat_length, Nat.sub_diag, firstn_O, app_nil_r.
  rewrite firstn_all2 by (rewrite repeat_length; lia).
  rewrite skipn_app, repeat_length, Nat.sub_diag, skipn_O.
  rewrite skipn_all2 by (rewrite repeat_length; lia).
  cbn. f_equal. exact IH.
Qed.

Lemma repeatEach_length (A : Type) (a : list A) (m : nat) :
  length (repeatEach a m) = (length a * m)%nat.
Proof.
  unfold repeatEach. induction a as [ | x a IH ]; cbn; [ reflexivity | ].
  rewrite length_app, repeat_length, IH. reflexivity.
Qed.

(** A resize to the size of the data gives the data. *)
Lemma resize_exact (A : Type) (zero : A) (flat : list A) :
  resize zero flat (length flat) = flat.
Proof.
  unfold resize. destruct flat as [ | x flat ]; [ reflexivity | ].
  set (l := x :: flat).
  apply nth_error_ext.
  - rewrite length_map, length_seq. reflexivity.
  - intros i y Hy. rewrite nth_error_map in Hy.
    destruct (nth_error (seq 0 (length l)) i) as [k | ] eqn:Hk; [ | discriminate ].
    apply nth_error_seq_Some in Hk. destruct Hk as [-> Hi].
    cbn [option_map] in Hy. rewrite Nat.add_0_l in Hy.
    rewrite Nat.mod_small in Hy by exact Hi.
    rewrite <- Hy. apply nth_error_nth'. exact Hi.
Qed.

Lemma rows_length (A : Type) (n m : nat) (flat : list A) :
  length (rows n m flat) = n.
Proof. revert flat. induction n as [ | n IH ]; intro flat; cbn; auto. Qed.

Lemma rows_nth_error (A : Type) (n m : nat) (flat : list A) (i : nat) :
  (i < n)%nat ->
  nth_error (rows n m flat) i = Some (firstn m (skipn (i * m) flat)).
Proof.
  revert flat i. induction n as [ | n IH ]; intros flat [ | i ] Hi; cbn; try lia.
  - reflexivity.
  - rewrite IH by lia. rewrite skipn_skipn. do 3 f_equal. lia.
Qed.

End ArrayLemmas.
(** ** Products and zero *)

Section FloatProducts.

Import Sign.

Local Open Scope float_scope.

Lemma SFmul_negative (x y : spec_float) :
  SFltb (SFmul prec emax x y) (S754_zero false) = true ->
  (SFltb (S754_zero false) y = true /\ SFltb x (S754_zero false) = true)
  \/ (SFltb y (S754_zero false) = true /\ SFltb (S754_zero false) x = true).
Proof.
  destruct x as [ sx | sx | | sx mx ex ], y as [ sy | sy | | sy my ey ];
    cbn [SFmul]; try (cbn; discriminate);
    try (destruct sx, sy; cbn; intros; try discriminate; auto; fail).
  pose proof (binary_round_aux_sign (xorb sx sy) (Z.pos (mx * my)) (ex + ey) loc_Exact) as Hs.
  destruct (binary_round_aux prec emax (xorb sx sy) (Z.pos (mx * my)) (ex + ey) loc_Exact)
    as [ s | s | | s m e ]; cbn in Hs |- *; try discriminate; subst s;
    destruct sx, sy; cbn; intros; try discriminate; auto.
Qed.

(** A product is negative only if one factor is positive and the other one
    negative. *)
Lemma mul_negative (x y : float) :
  (x * y <? 0) = true ->
  (gt0 y = true /\ lt0 x = true) \/ (lt0 y = true /\ gt0 x = true).
Proof.
  unfold gt0, lt0. rewrite !ltb_spec, mul_spec. apply SFmul_negative.
Qed.

Lemma square_not_negative (x : float) : (x * x <? 0) = false.
Proof.
  destruct (x * x <? 0) eqn:E; [ | reflexivity ].
  apply mul_negative in E. unfold gt0, lt0 in E.
  destruct E as [[H1 H2] | [H1 H2]];
    pose proof (ltb_trans _ _ _ H1 H2) as H; rewrite ltb_irrefl in H; discriminate.
Qed.

End FloatProducts.

(** ** The flags of the faces and of the cells *)

Section Flags.

Variable faces : FaceMesh.

Local Open Scope float_scope.

Lemma interfaceFlag_faces (value : list float) (flags : list bool) :
  length (fst (_getAdjacentCellIDs faces)) = length (snd (_getAdjacentCellIDs faces)) ->
  _getInterfaceFlag faces value = Ok flags ->
  length flags = length (fst (_getAdjacentCellIDs faces))
  /\ forall j c0 c1 b,
       nth_error (fst (_getAdjacentCellIDs faces)) j = Some c0 ->
       nth_error (snd (_getAdjacentCellIDs faces)) j = Some c1 ->
       nth_error flags j = Some b ->
       (b = true ->
        exists v0 v1,
          nth_error value c0 = Some v0 /\ nth_error value c1 = Some v1
          /\ ((gt0 v0 = true /\ lt0 v1 = true) \/ (lt0 v0 = true /\ gt0 v1 = true)))
       /\ (c0 = c1 -> b = false).
Proof.
  intros Hadj H. unfold _getInterfaceFlag in H.
  destruct (take value (fst (_getAdjacentCellIDs faces))) as [val0 | e] eqn:E0;
    cbn [bind] in H; [ | discriminate ].
  destruct (take value (snd (_getAdjacentCellIDs faces))) as [val1 | e] eqn:E1;
    cbn [bind] in H; [ | discriminate ].
  pose proof (take_length _ _ _ _ E0) as L0.
  pose proof (take_length _ _ _ _ E1) as L1.
  destruct (elementwise_nth _ _ _ _ _ _ _ (eq_trans L1 (eq_trans (eq_sym Hadj) (eq_sym L0))) H)
    as [Hlen Hnth].
  split; [ congruence | ].
  intros j c0 c1 b Hc0 Hc1 Hb.
  destruct (take_nth_error_ids _ _ _ _ _ _ E0 Hc0) as (v0 & Hv0 & Hx0).
  destruct (take_nth_error_ids _ _ _ _ _ _ E1 Hc1) as (v1 & Hv1 & Hx1).
  destruct (Hnth _ _ _ Hv1 Hv0) as (z & Hz & Hf).
  rewrite Hb in Hz. injection Hz as <-. injection Hf as Hf.
  split.
  - intros ->. exists v0, v1. repeat split; auto.
    apply mul_negative in Hf. tauto.
  - intros <-. rewrite Hx1 in Hx0. injection Hx0 as ->.
    rewrite <- Hf. apply square_not_negative.
Qed.

(** X9: a face is flagged only where the values of its two cells are of
    strictly opposite signs, one above and one below zero; a face whose two
    adjacent cells are one cell, as on the boundary of the mesh, is never
    flagged.  There is one flag per face. *)
Theorem interface_flag_sign_change (value : list float) (flags : list bool) :
  length (fst (_getAdjacentCellIDs faces)) = length (snd (_getAdjacentCellIDs faces)) ->
  _getInterfaceFlag faces value = Ok flags ->
  length flags = length (fst (_getAdjacentCellIDs faces))
  /\ forall j c0 c1 b,
       nth_error (fst (_getAdjacentCellIDs faces)) j = Some c0 ->
       nth_error (snd (_getAdjacentCellIDs faces)) j = Some c1 ->
       nth_error flags j = Some b ->
       (b = true ->
        exists v0 v1,
          nth_error value c0 = Some v0 /\ nth_error value c1 = Some v1
          /\ ((gt0 v0 = true /\ lt0 v1 = true) \/ (lt0 v0 = true /\ gt0 v1 = true)))
       /\ (c0 = c1 -> b = false).
Proof. exact (interfaceFlag_faces value flags). Qed.

Lemma MAtakeFilled_count (a : list bool) (ids : list (option nat))
    (r : list (option bool)) :
  MAtakeFilled a ids = Ok r ->
  (0 < countFlags r)%nat <-> exists f, In (Some f) ids /\ nth_error a f = Some true.
Proof.
  unfold MAtakeFilled, countFlags. revert r.
  induction ids as [ | o ids IH ]; intros r H; cbn [forEach] in H.
  - injection H as <-. cbn. split; [ lia | intros (f & [] & _) ].
  - match type of H with
    | bind ?m _ = _ => destruct m as [x | e] eqn:Ex; cbn [bind] in H; [ | discriminate ]
    end.
    match type of H with
    | bind ?m _ = _ => destruct m as [r' | e] eqn:Er; cbn [bind] in H; [ | discriminate ]
    end.
    injection H as <-. specialize (IH r' eq_refl).
    destruct o as [k | ].
    + destruct (getitem a k) as [y | e] eqn:Ey; cbn [bind] in Ex; [ | discriminate ].
      injection Ex as <-. apply getitem_Ok in Ey. cbn [filter].
      destruct y; cbn [length].
      * split; [ intros _ | lia ]. exists k. split; [ left; reflexivity | exact Ey ].
      * rewrite IH. split; intros (f & Hin & Hf).
        -- exists f. split; [ right; exact Hin | exact Hf ].
        -- destruct Hin as [Heq | Hin]; [ | exists f; auto ].
           injection Heq as ->. congruence.
    + destruct (getitem a 0) as [y | e] eqn:Ey; cbn [bind] in Ex; [ | discriminate ].
      injection Ex as <-. cbn [filter]. rewrite IH.
      split; intros (f & Hin & Hf).
      * exists f. split; [ right; exact Hin | exact Hf ].
      * destruct Hin as [Heq | Hin]; [ discriminate | exists f; auto ].
Qed.

(** X10: a cell is flagged exactly when its value is above zero and one of
    its faces, the masked slots aside, is flagged. *)
Theorem cell_interface_flag_iff (value : list float) (cellFlags : list bool) :
  length value = length (_getCellFaceIDs faces) ->
  _getCellInterfaceFlag faces value = Ok cellFlags ->
  exists flags,
    _getInterfaceFlag faces value = Ok flags
    /\ length cellFlags = length value
    /\ forall i v ids b,
         nth_error value i = Some v ->
         nth_error (_getCellFaceIDs faces) i = Some ids ->
         nth_error cellFlags i = Some b ->
         (b = true <->
          gt0 v = true /\ exists f, In (Some f) ids /\ nth_error flags f = Some true).
Proof.
  intros Hlen H. unfold _getCellInterfaceFlag in H.
  destruct (_getInterfaceFlag faces value) as [flags | e] eqn:Ef;
    cbn [bind] in H; [ | discriminate ].
  match type of H with
  | bind ?m _ = _ => destruct m as [counts | e] eqn:Ec; cbn [bind] in H; [ | discriminate ]
  end.
  apply forEach_Forall2 in Ec.
  assert (length value = length counts) as Hlen'
    by (rewrite Hlen; apply (Forall2_length Ec)).
  destruct (elementwise_nth _ _ _ _ _ _ _ Hlen' H) as [Hl Hnth].
  exists flags. split; [ reflexivity | ]. split; [ exact Hl | ].
  intros i v ids b Hv Hids Hb.
  destruct (Forall2_nth_error_left _ _ _ _ _ Ec _ _ Hids) as (n & Hn & Hrow).
  destruct (MAtakeFilled flags ids) as [r | e] eqn:Er; cbn [bind] in Hrow; [ | discriminate ].
  injection Hrow as <-.
  destruct (Hnth _ _ _ Hv Hn) as (z & Hz & Hf).
  rewrite Hb in Hz. injection Hz as <-. injection Hf as <-.
  rewrite andb_true_iff, Nat.ltb_lt, (MAtakeFilled_count _ _ _ Er). tauto.
Qed.

End Flags.

Section ValueOverFaces.

Variable mesh : Mesh.
Variable faces : FaceMesh.

(** X11: with one value per cell the value of each cell is returned once
    for each of the [M] face slots of a cell; when the number of values times
    [M] is not the number of cells times [M] the reshape is a [ValueError]. *)
Theorem cell_value_over_faces (value : list float) :
  (length value = getNumberOfCells mesh ->
   _getCellValueOverFaces mesh faces value
   = Ok (map (fun v => repeat v (_getMaxFacesPerCell faces)) value))
  /\ ((length value * _getMaxFacesPerCell faces
       <> getNumberOfCells mesh * _getMaxFacesPerCell faces)%nat ->
      _getCellValueOverFaces mesh faces value = Raise ValueError).
Proof.
  unfold _getCellValueOverFaces, reshape. rewrite repeatEach_length. split.
  - intros <-. rewrite Nat.eqb_refl, repeatEach_rows. reflexivity.
  - intro H. apply Nat.eqb_neq in H. rewrite H. reflexivity.
Qed.

End ValueOverFaces.

Section MoreArrayLemmas.

Lemma forEach_pure (A B : Type) (f : A -> B) (l : list A) :
  forEach (fun a => Ok (f a)) l = Ok (map f l).
Proof.
  induction l as [ | a l IH ]; cbn; [ reflexivity | ]. rewrite IH. reflexivity.
Qed.

(** An array against a single element: the element goes with every element
    of the array. *)
Lemma elementwise_scalar (A B C : Type) (f : A -> B -> C) (a : list A) (y : B) :
  elementwise (fun x y => Ok (f x y)) a [y] = Ok (map (fun x => f x y) a).
Proof.
  unfold elementwise. destruct a as [ | x [ | x' a ] ]; try reflexivity.
  cbn [length Nat.eqb]. apply (forEach_pure _ _ (fun x => f x y)).
Qed.

Lemma elementwise_repeat (A B C : Type) (f : A -> B -> C) (x : A) (b : list B) :
  elementwise (fun x y => Ok (f x y)) (repeat x (length b)) b = Ok (map (f x) b).
Proof.
  unfold elementwise. rewrite repeat_length, Nat.eqb_refl.
  rewrite (forEach_pure _ _ (fun ab => f (fst ab) (snd ab))). f_equal.
  induction b as [ | y b IH ]; cbn; [ reflexivity | ]. f_equal. exact IH.
Qed.

(** The flat data of [n] rows of [w] elements. *)
Lemma concat_length_rect (A : Type) (w : nat) (l : list (list A)) :
  Forall (fun g => length g = w) l -> length (concat l) = (length l * w)%nat.
Proof.
  induction 1 as [ | g l Hg _ IH ]; cbn; [ reflexivity | ].
  rewrite length_app, IH, Hg. reflexivity.
Qed.

Lemma concat_nth_error_rect (A : Type) (w : nat) (l : list (list A))
    (j k : nat) (g : list A) :
  Forall (fun g => length g = w) l ->
  nth_error l j = Some g -> (k < w)%nat ->
  nth_error (concat l) (j * w + k) = nth_error g k.
Proof.
  intro H. revert j. induction H as [ | g0 l Hg _ IH ]; intros [ | j ] Hj Hk;
    cbn in Hj; try discriminate.
  - injection Hj as ->. cbn. apply nth_error_app1. lia.
  - cbn [concat]. rewrite nth_error_app2 by (cbn; lia).
    replace (S j * w + k - length g0)%nat with (j * w + k)%nat by (cbn; lia).
    apply IH; assumption.
Qed.

(** The row [j] of the flat data, from its elements. *)
Lemma rows_row (A : Type) (n w : nat) (flat : list A) (j : nat) (row : list A) :
  (j < n)%nat -> length row = w -> (j * w + w <= length flat)%nat ->
  (forall k, (k < w)%nat -> nth_error flat (j * w + k) = nth_error row k) ->
  nth_error (rows n w flat) j = Some row.
Proof.
  intros Hj Hrow Hlen H. rewrite rows_nth_error by exact Hj. f_equal.
  apply nth_error_ext.
  - rewrite length_firstn, length_skipn. lia.
  - intros k x Hx. rewrite nth_error_firstn in Hx.
    destruct (k <? w)%nat eqn:Hk; [ | discriminate ].
    apply Nat.ltb_lt in Hk. rewrite nth_error_skipn in Hx.
    rewrite <- H by exact Hk. exact Hx.
Qed.

(** [resize(arange(w), (n, w))] is [n] rows [0 .. w - 1]. *)
Lemma rows_resize_arange (n w : nat) :
  rows n w (resize O (seq 0 w) (n * w)) = repeat (seq 0 w) n.
Proof.
  destruct w as [ | w' ].
  - rewrite Nat.mul_0_r. cbn. induction n as [ | n IH ]; cbn; [ reflexivity | ].
    f_equal. exact IH.
  - set (w := S w').
    apply nth_error_ext.
    + rewrite rows_length, repeat_length. reflexivity.
    + intros j row Hrow.
      assert (j < n)%nat as Hj.
      { destruct (Nat.lt_ge_cases j n) as [Hlt | Hge]; [ exact Hlt | ].
        rewrite (proj2 (nth_error_None _ _)) in Hrow; [ discriminate | ].
        rewrite rows_length. exact Hge. }
      rewrite nth_error_repeat by exact Hj.
      rewrite <- Hrow. symmetry. apply rows_row; auto.
      * apply length_seq.
      * unfold resize, w. cbn [seq]. rewrite length_map, length_seq. fold w. nia.
      * intros k Hk. unfold resize, w. cbn [seq]. fold w.
        change (0%nat :: seq 1 w') with (seq 0 w).
        rewrite nth_error_map.
        assert (nth_error (seq 0 (n * w)) (j * w + k) = Some (j * w + k)%nat) as ->
          by (rewrite nth_error_seq; destruct (j * w + k <? n * w)%nat eqn:E;
              [ reflexivity | apply Nat.ltb_ge in E; nia ]).
        cbn [option_map]. rewrite length_seq.
        replace ((j * w + k) mod w)%nat with k
          by (rewrite Nat.add_comm, Nat.Div0.mod_add, Nat.mod_small; lia).
        rewrite nth_error_seq.
        replace (k <? w)%nat with true by (symmetry; apply Nat.ltb_lt; exact Hk).
        f_equal. rewrite seq_nth; lia.
Qed.

Lemma putZeros_spec (indices : list nat) (flat flat' : list float) :
  putZeros flat indices = Ok flat' ->
  length flat' = length flat
  /\ (forall p, In p indices -> nth_error flat' p = Some 0%float)
  /\ (forall p, ~ In p indices -> nth_error flat' p = nth_error flat p).
Proof.
  revert flat. induction indices as [ | i rest IH ]; intros flat H; cbn [putZeros] in H.
  - injection H as <-. repeat split; auto. intros p [].
  - destruct (setitem flat i 0%float) as [flat1 | e] eqn:E; cbn [bind] in H; [ | discriminate ].
    destruct (setitem_spec _ _ _ _ _ E) as (L1 & Hi & Hother).
    destruct (IH _ H) as (L2 & Hin & Hout).
    split; [ congruence | ]. split.
    + intros p Hp. destruct (in_dec Nat.eq_dec p rest) as [Hr | Hr]; [ auto | ].
      rewrite Hout by exact Hr. destruct Hp as [<- | Hp]; [ exact Hi | contradiction ].
    + intros p Hp. rewrite Hout by (intro; apply Hp; right; assumption).
      apply Hother. intros ->. apply Hp. left. reflexivity.
Qed.

End MoreArrayLemmas.

Section FloatZero.

Local Open Scope float_scope.

(** Zero divided by a positive number is zero. *)
Lemma zero_div_positive (m : float) : gt0 m = true -> 0 / m = 0.
Proof.
  unfold gt0. rewrite ltb_spec. intro H. apply Prim2SF_inj. rewrite div_spec.
  change (Prim2SF 0) with (S754_zero false) in *.
  destruct (Prim2SF m) as [ s | s | | s mx ex ]; cbn in H; try discriminate;
    destruct s; try discriminate; reflexivity.
Qed.

(** The divisor of [_getLevelSetNormals] is positive. *)
Lemma clamped_positive (m : float) : gt0 (if 1e-10 <? m then m else 1e-10) = true.
Proof.
  destruct (1e-10 <? m) eqn:E; [ | reflexivity ].
  unfold gt0. apply (ltb_trans 0 1e-10 m); [ reflexivity | exact E ].
Qed.

End FloatZero.

Section Normals.

Variable mesh : Mesh.
Variable faces : FaceMesh.

Local Open Scope float_scope.

Local Notation "'dim'" := (getDim mesh).

Lemma elementwise_repeat_right (A B C : Type) (f : A -> B -> C) (a : list A) (y : B) :
  elementwise (fun x y => Ok (f x y)) a (repeat y (length a))
  = Ok (map (fun x => f x y) a).
Proof.
  unfold elementwise. rewrite repeat_length, Nat.eqb_refl.
  rewrite (forEach_pure _ _ (fun ab => f (fst ab) (snd ab))). f_equal.
  induction a as [ | x a IH ]; cbn; [ reflexivity | ]. f_equal. exact IH.
Qed.

(** The flat indices that [_getLevelSetNormals] sets to zero are those of the
    rows of the exterior faces. *)
Lemma exterior_indices (exteriorFaces : list (list nat)) :
  length (getExteriorFaceIDs faces) = length (getExteriorFaces faces) ->
  elementwise (fun id ks => Ok (map (fun k => (id * dim + k)%nat) ks))
    (getExteriorFaceIDs faces)
    (rows (length (getExteriorFaces faces)) dim
          (resize O (seq 0 dim) (length (getExteriorFaces faces) * dim)))
  = Ok exteriorFaces ->
  forall j k, (k < dim)%nat ->
    In (j * dim + k)%nat (concat exteriorFaces) <-> In j (getExteriorFaceIDs faces).
Proof.
  intros Hlen H j k Hk. rewrite rows_resize_arange, <- Hlen in H.
  rewrite (elementwise_repeat_right _ _ _ (fun id ks => map (fun k => (id * dim + k)%nat) ks))
    in H.
  injection H as <-. rewrite in_concat. split.
  - intros (l & Hl & Hp). apply in_map_iff in Hl. destruct Hl as (id & <- & Hid).
    apply in_map_iff in Hp. destruct Hp as (k' & Heq & Hk'). apply in_seq in Hk'.
    assert (id = j) as <- by nia. exact Hid.
  - intro Hj. exists (map (fun k => (j * dim + k)%nat) (seq 0 dim)). split.
    + apply in_map_iff. exists j. auto.
    + apply in_map_iff. exists k. split; [ reflexivity | apply in_seq; lia ].
Qed.

(** The rows that [_getLevelSetNormals] returns. *)
Lemma levelSetNormals_rows (faceGrad : list (list float)) (faceGradMag : list float)
    (normals : list (list float)) :
  Forall (fun g => length g = dim) faceGrad ->
  length faceGradMag = length faceGrad ->
  length (getExteriorFaceIDs faces) = length (getExteriorFaces faces) ->
  _getLevelSetNormals mesh faces faceGrad faceGradMag = Ok normals ->
  length normals = length faceGrad
  /\ forall j g m,
       nth_error faceGrad j = Some g ->
       nth_error faceGradMag j = Some m ->
       (In j (getExteriorFaceIDs faces) ->
        nth_error normals j = Some (repeat 0 dim))
       /\ (~ In j (getExteriorFaceIDs faces) ->
           nth_error normals j
           = Some (map (fun x => x / (if 1e-10 <? m then m else 1e-10)) g)).
Proof.
  intros Hshape Hmag Hext H. unfold _getLevelSetNormals in H.
  match type of H with
  | bind ?m _ = _ => destruct m as [exteriorFaces | e] eqn:Ee; cbn [bind] in H; [ | discriminate ]
  end.
  destruct (putZeros (concat faceGrad) (concat exteriorFaces)) as [flat | e] eqn:Ep;
    cbn [bind] in H; [ | discriminate ].
  destruct (putZeros_spec _ _ _ Ep) as (Lflat & Hin & Hout).
  pose proof (exterior_indices _ Hext Ee) as Hidx.
  rewrite (concat_length_rect _ _ _ Hshape) in Lflat.
  set (clamp := fun m : float => if 1e-10 <? m then m else 1e-10) in *.
  assert (length (rows (length faceGrad) (length (hd [] faceGrad)) flat)
          = length (map clamp faceGradMag)) as Hl
    by (rewrite rows_length, length_map; congruence).
  destruct (elementwise_nth _ _ _ _ _ _ _ Hl H) as [Hlen Hnth].
  rewrite rows_length in Hlen. split; [ exact Hlen | ].
  intros j g m Hg Hm.
  assert (length (hd [] faceGrad) = dim) as Hw.
  { destruct faceGrad as [ | g0 rest ]; [ destruct j; discriminate | ].
    cbn. inversion Hshape; assumption. }
  rewrite Hw in Hnth.
  assert (j < length faceGrad)%nat as Hj by (apply nth_error_Some; congruence).
  assert (length g = dim) as Lg
    by (apply (proj1 (Forall_forall _ _) Hshape), (nth_error_In _ _ Hg)).
  assert (nth_error (map clamp faceGradMag) j = Some (clamp m)) as Hm'
    by (rewrite nth_error_map, Hm; reflexivity).
  split; intro Hj'.
  - assert (nth_error (rows (length faceGrad) dim flat) j = Some (repeat 0 dim)) as Hrow.
    { apply rows_row; auto.
      - apply repeat_length.
      - nia.
      - intros k Hk. rewrite nth_error_repeat by exact Hk.
        apply Hin, Hidx; assumption. }
    destruct (Hnth _ _ _ Hrow Hm') as (z & -> & Hz).
    rewrite (elementwise_scalar _ _ _ PrimFloat.div) in Hz. injection Hz as <-.
    rewrite map_repeat. unfold clamp.
    rewrite (zero_div_positive _ (clamped_positive m)). reflexivity.
  - assert (nth_error (rows (length faceGrad) dim flat) j = Some g) as Hrow.
    { apply rows_row; auto.
      - nia.
      - intros k Hk. rewrite Hout by (rewrite Hidx; assumption).
        apply concat_nth_error_rect; assumption. }
    destruct (Hnth _ _ _ Hrow Hm') as (z & -> & Hz).
    rewrite (elementwise_scalar _ _ _ PrimFloat.div) in Hz. injection Hz as <-.
    reflexivity.
Qed.

(** X12: the normals of the exterior faces are zero in every component,
    whatever the gradient there; the normal of any other face is its gradient
    divided by the magnitude, or by 1e-10 where the magnitude is not above
    1e-10. *)
Theorem level_set_normals_exterior (faceGrad : list (list float))
    (faceGradMag : list float) (normals : list (list float)) :
  Forall (fun g => length g = dim) faceGrad ->
  length faceGradMag = length faceGrad ->
  length (getExteriorFaceIDs faces) = length (getExteriorFaces faces) ->
  _getLevelSetNormals mesh faces faceGrad faceGradMag = Ok normals ->
  length normals = length faceGrad
  /\ forall j g m,
       nth_error faceGrad j = Some g ->
       nth_error faceGradMag j = Some m ->
       (In j (getExteriorFaceIDs faces) ->
        nth_error normals j = Some (repeat 0 dim))
       /\ (~ In j (getExteriorFaceIDs faces) ->
           nth_error normals j
           = Some (map (fun x => x / (if 1e-10 <? m then m else 1e-10)) g)).
Proof. exact (levelSetNormals_rows faceGrad faceGradMag normals). Qed.

End Normals.

Section InterfaceNormals.

Variable mesh : Mesh.
Variable faces : FaceMesh.

Local Open Scope float_scope.

Local Notation "'dim'" := (getDim mesh).
Local Notation "'N'" := (_getNumberOfFaces faces).

(** With one gradient per face and one component per dimension, so are the
    level-set normals. *)
Lemma levelSetNormals_shape (faceGrad : list (list float)) (faceGradMag : list float)
    (normals : list (list float)) :
  length (getExteriorFaceIDs faces) = length (getExteriorFaces faces) ->
  length faceGrad = N ->
  Forall (fun g => length g = dim) faceGrad ->
  length faceGradMag = N ->
  _getLevelSetNormals mesh faces faceGrad faceGradMag = Ok normals ->
  length normals = N /\ Forall (fun row => length row = dim) normals.
Proof.
  intros exterior faceGrad_faces faceGrad_dim faceGradMag_faces H.
  destruct (levelSetNormals_rows mesh faces faceGrad faceGradMag normals
              faceGrad_dim (eq_trans faceGradMag_faces (eq_sym faceGrad_faces)) exterior H)
    as [Hlen Hrows].
  split; [ congruence | ].
  apply Forall_forall. intros row Hin. apply In_nth_error in Hin.
  destruct Hin as [j Hj].
  assert (j < length faceGrad)%nat as Hlt
    by (rewrite <- Hlen; apply nth_error_Some; congruence).
  destruct (nth_error faceGrad j) as [g | ] eqn:Hg;
    [ | apply nth_error_None in Hg; lia ].
  destruct (nth_error faceGradMag j) as [m | ] eqn:Hm;
    [ | apply nth_error_None in Hm; lia ].
  destruct (Hrows j g m Hg Hm) as [Hext Hint].
  destruct (in_dec Nat.eq_dec j (getExteriorFaceIDs faces)) as [Hj' | Hj'].
  - rewrite (Hext Hj') in Hj. injection Hj as <-. apply repeat_length.
  - rewrite (Hint Hj') in Hj. injection Hj as <-. rewrite length_map.
    apply (proj1 (Forall_forall _ _) faceGrad_dim), (nth_error_In _ _ Hg).
Qed.

Lemma interfaceNormals_rows (value : list float)
    (faceGrad : list (list float)) (faceGradMag : list float)
    (result : list (list float)) :
  length (fst (_getAdjacentCellIDs faces)) = N ->
  length (snd (_getAdjacentCellIDs faces)) = N ->
  length (getExteriorFaceIDs faces) = length (getExteriorFaces faces) ->
  length faceGrad = N ->
  Forall (fun g => length g = dim) faceGrad ->
  length faceGradMag = N ->
  _getInterfaceNormals mesh faces value faceGrad faceGradMag = Ok result ->
  exists flags normals,
    _getInterfaceFlag faces value = Ok flags
    /\ _getLevelSetNormals mesh faces faceGrad faceGradMag = Ok normals
    /\ length result = N
    /\ forall j b row,
         nth_error flags j = Some b ->
         nth_error normals j = Some row ->
         nth_error result j = Some (if b then row else repeat 0 dim).
Proof.
  intros adjacent0 adjacent1 exterior faceGrad_faces faceGrad_dim faceGradMag_faces H.
  unfold _getInterfaceNormals in H.
  destruct (_getInterfaceFlag faces value) as [flags | e] eqn:Ef;
    cbn [bind] in H; [ | discriminate ].
  destruct (_getLevelSetNormals mesh faces faceGrad faceGradMag) as [normals | e] eqn:En;
    cbn [bind] in H; [ | discriminate ].
  exists flags, normals. split; [ reflexivity | ]. split; [ reflexivity | ].
  assert (length flags = N) as Lf.
  { destruct (interfaceFlag_faces faces value flags
                (eq_trans adjacent0 (eq_sym adjacent1)) Ef) as [L _]. congruence. }
  destruct (levelSetNormals_shape _ _ _ exterior faceGrad_faces faceGrad_dim faceGradMag_faces En)
    as [Ln Hrows].
  rewrite <- Lf in H at 2. rewrite <- repeatEach_length, resize_exact in H.
  rewrite <- Lf, repeatEach_rows in H.
  assert (length (map (fun x : bool => repeat x dim) flags) = length normals) as Hl
    by (rewrite length_map; congruence).
  destruct (elementwise_nth _ _ _ _ _ _ _ Hl H) as [Hlen Hnth].
  split; [ rewrite Hlen, length_map; exact Lf | ].
  intros j b row Hb Hrow.
  assert (nth_error (map (fun x : bool => repeat x dim) flags) j = Some (repeat b dim)) as Hb'
    by (rewrite nth_error_map, Hb; reflexivity).
  destruct (Hnth _ _ _ Hb' Hrow) as (z & -> & Hz).
  assert (length row = dim) as Lrow
    by (apply (proj1 (Forall_forall _ _) Hrows), (nth_error_In _ _ Hrow)).
  rewrite <- Lrow in Hz.
  rewrite (elementwise_repeat _ _ _ (fun (f : bool) x => if f then x else 0)) in Hz.
  injection Hz as <-. f_equal. destruct b.
  - apply map_id.
  - rewrite <- Lrow. clear. induction row as [ | x row IH ]; cbn; [ reflexivity | ].
    f_equal. exact IH.
Qed.

End InterfaceNormals.

Section Broadcast.

Lemma forEach_Forall (A B : Type) (f : A -> result B) (P : A -> Prop) (Q : B -> Prop)
    (l : list A) (r : list B) :
  (forall a z, P a -> f a = Ok z -> Q z) ->
  Forall P l -> forEach f l = Ok r -> Forall Q r.
Proof.
  intros Hf Hl H. apply forEach_Forall2 in H.
  induction H as [ | a z l r Haz _ IH ]; constructor.
  - inversion Hl; subst. eapply Hf; eauto.
  - apply IH. inversion Hl; assumption.
Qed.

Lemma Forall_combine (A B : Type) (P : A -> Prop) (R : B -> Prop)
    (a : list A) (b : list B) :
  Forall P a -> Forall R b -> Forall (fun ab => P (fst ab) /\ R (snd ab)) (combine a b).
Proof.
  intro Ha. revert b. induction Ha as [ | x a Hx _ IH ]; intros b Hb; cbn;
    [ constructor | ].
  destruct Hb as [ | y b Hy Hb ]; constructor; auto.
Qed.

(** What holds of the elements of both arrays holds of every pair that
    [elementwise] forms, whichever axis is stretched. *)
Lemma elementwise_Forall (A B C : Type) (f : A -> B -> result C)
    (P : A -> Prop) (R : B -> Prop) (Q : C -> Prop)
    (a : list A) (b : list B) (r : list C) :
  (forall x y z, P x -> R y -> f x y = Ok z -> Q z) ->
  Forall P a -> Forall R b -> elementwise f a b = Ok r -> Forall Q r.
Proof.
  intros Hf Ha Hb H. unfold elementwise in H.
  destruct (length a =? length b)%nat.
  - apply (forEach_Forall _ _ _ (fun ab => P (fst ab) /\ R (snd ab)) Q _ _) in H; auto.
    + intros [x y] z [Hx Hy]. cbn. apply Hf; assumption.
    + apply Forall_combine; assumption.
  - destruct a as [ | x [ | x' a ] ], b as [ | y [ | y' b ] ]; try discriminate;
      try (apply (forEach_Forall _ _ _ R Q _ _) in H; auto;
           intros y0 z Hy0; apply Hf; auto; inversion Ha; assumption);
      try (apply (forEach_Forall _ _ _ P Q _ _) in H; auto;
           intros x0 z Hx0; apply Hf; auto; inversion Hb; assumption).
Qed.

Lemma concat_repeat_repeat (A : Type) (v : A) (m d : nat) :
  concat (repeat (repeat v m) d) = repeat v (m * d).
Proof.
  induction d as [ | d IH ]; cbn [repeat concat].
  - rewrite Nat.mul_0_r. reflexivity.
  - rewrite IH, <- repeat_app. f_equal. lia.
Qed.

Lemma rows_repeat (A : Type) (v : A) (n m : nat) :
  rows n m (repeat v (n * m)) = repeat (repeat v m) n.
Proof.
  induction n as [ | n IH ]; cbn [rows repeat]; [ reflexivity | ].
  replace (S n * m)%nat with (m + n * m)%nat by lia.
  rewrite repeat_app.
  rewrite firstn_app, repeat_length, Nat.sub_diag, firstn_O, app_nil_r.
  rewrite firstn_all2 by (rewrite repeat_length; lia).
  rewrite skipn_app, repeat_length, Nat.sub_diag, skipn_O.
  rewrite skipn_all2 by (rewrite repeat_length; lia).
  cbn [app]. f_equal. exact IH.
Qed.

End Broadcast.

Section FloatSums.

Import Sign.

Local Open Scope float_scope.

(** Zero of either sign. *)
Local Notation "'isZero' x" := (exists s, Prim2SF x = S754_zero s) (at level 10).

Lemma is_finite_cases (y : float) :
  is_finite y = true ->
  match Prim2SF y with S754_zero _ | S754_finite _ _ _ => True | _ => False end.
Proof.
  unfold is_finite, is_nan, is_infinity. rewrite !eqb_spec, abs_spec.
  change (Prim2SF infinity) with (S754_infinity false).
  destruct (Prim2SF y) as [ sy | sy | | sy m e ]; try (intros _; exact I).
  - destruct sy; cbn; intro H; discriminate H.
  - cbn. intro H. discriminate H.
Qed.

Lemma zero_mul_finite (y : float) : is_finite y = true -> isZero (0 * y).
Proof.
  intro H. apply is_finite_cases in H. rewrite mul_spec.
  change (Prim2SF 0) with (S754_zero false).
  destruct (Prim2SF y) as [ s | s | | s m e ]; try contradiction; cbn; eauto.
Qed.

Lemma add_isZero (x y : float) : isZero x -> isZero y -> isZero (x + y).
Proof.
  intros [sx Hx] [sy Hy]. rewrite add_spec, Hx, Hy.
  destruct sx, sy; cbn; eauto.
Qed.

Lemma sum_isZero (l : list float) :
  Forall (fun x => isZero x) l -> isZero (Arrays.sum l).
Proof.
  unfold Arrays.sum. intros [ | x rest Hx Hrest ]; [ exists false; reflexivity | ].
  revert x Hx. induction Hrest as [ | y rest Hy _ IH ]; intros x Hx; cbn [fold_left].
  - exact Hx.
  - apply IH, add_isZero; assumption.
Qed.

Lemma abs_isZero (x : float) : isZero x -> abs x = 0.
Proof.
  intros [s Hx]. apply Prim2SF_inj. rewrite abs_spec, Hx. reflexivity.
Qed.

Lemma sum_zeros (l : list float) : Forall (eq 0) l -> Arrays.sum l = 0.
Proof.
  unfold Arrays.sum. intros [ | x rest <- Hrest ]; [ reflexivity | ].
  induction Hrest as [ | y rest <- _ IH ]; cbn [fold_left]; [ reflexivity | ].
  exact IH.
Qed.

Lemma sum_hasSign (l : list float) :
  Forall (hasSign false) l -> hasSign false (Arrays.sum l).
Proof.
  unfold Arrays.sum. intros [ | x rest Hx Hrest ]; [ reflexivity | ].
  revert x Hx. induction Hrest as [ | y rest Hy _ IH ]; intros x Hx; cbn [fold_left].
  - exact Hx.
  - apply IH, add_hasSign; assumption.
Qed.

End FloatSums.

Section CellNormals.

Variable mesh : Mesh.
Variable faces : FaceMesh.

Local Open Scope float_scope.

Local Notation "'dim'" := (getDim mesh).
Local Notation "'M'" := (_getMaxFacesPerCell faces).

Lemma nth_error_lt (A : Type) (l : list A) (i : nat) (x : A) :
  nth_error l i = Some x -> (i < length l)%nat.
Proof. intro H. apply nth_error_Some. congruence. Qed.

Lemma cellValueOverFaces_rows (value : list float) :
  length value = getNumberOfCells mesh ->
  _getCellValueOverFaces mesh faces value = Ok (map (fun v => repeat v M) value).
Proof.
  unfold _getCellValueOverFaces, reshape. rewrite repeatEach_length.
  intros <-. rewrite Nat.eqb_refl, repeatEach_rows. reflexivity.
Qed.

(** The values over the faces and the dimensions: the value of the cell in
    every component of every face slot. *)
Lemma valueOverFaces_rows (value : list float) :
  length value = getNumberOfCells mesh ->
  map (rows M dim)
      (rows (getNumberOfCells mesh) (M * dim)
            (resize 0 (concat (repeatEach (map (fun v => repeat v M) value) dim))
                    (getNumberOfCells mesh * M * dim)))
  = map (fun v => repeat (repeat v dim) M) value.
Proof.
  intros <-.
  assert (concat (repeatEach (map (fun v => repeat v M) value) dim)
          = repeatEach value (M * dim)) as ->.
  { unfold repeatEach. induction value as [ | v value IH ]; cbn; [ reflexivity | ].
    rewrite concat_app, concat_repeat_repeat, IH. reflexivity. }
  replace (length value * M * dim)%nat with (length (repeatEach value (M * dim)))
    by (rewrite repeatEach_length; lia).
  rewrite resize_exact, repeatEach_rows, map_map.
  apply map_ext. intro v. apply rows_repeat.
Qed.

(** What [_getCellInterfaceNormals] returns for one cell: the normals taken
    at the faces of the cell, against the value of the cell. *)
Lemma cellInterfaceNormals_cells (value : list float)
    (faceGrad : list (list float)) (faceGradMag : list float)
    (result : list (list (list (option float)))) :
  length value = getNumberOfCells mesh ->
  length (_getCellFaceIDs faces) = getNumberOfCells mesh ->
  _getCellInterfaceNormals mesh faces value faceGrad faceGradMag = Ok result ->
  exists normals,
    _getInterfaceNormals mesh faces value faceGrad faceGradMag = Ok normals
    /\ length result = getNumberOfCells mesh
    /\ forall i v cell,
         nth_error value i = Some v ->
         nth_error result i = Some cell ->
         exists ids taken,
           nth_error (_getCellFaceIDs faces) i = Some ids
           /\ MAtakeRows normals ids = Ok taken
           /\ elementwise
                (elementwise (fun x n => Ok (if x <? 0 then Some 0 else n)))
                (repeat (repeat v dim) M) taken
              = Ok cell.
Proof.
  intros Hvalue Hids H. unfold _getCellInterfaceNormals in H.
  rewrite (cellValueOverFaces_rows _ Hvalue) in H. cbn [bind] in H.
  rewrite (valueOverFaces_rows _ Hvalue) in H.
  destruct (_getInterfaceNormals mesh faces value faceGrad faceGradMag)
    as [normals | e]; cbn [bind] in H; [ | discriminate ].
  destruct (forEach (MAtakeRows normals) (_getCellFaceIDs faces))
    as [interfaceNormals | e] eqn:Ei; cbn [bind] in H; [ | discriminate ].
  apply forEach_Forall2 in Ei. pose proof (Forall2_length Ei) as Li.
  assert (length (map (fun v => repeat (repeat v dim) M) value) = length interfaceNormals)
    as Hl by (rewrite length_map; congruence).
  destruct (elementwise_nth _ _ _ _ _ _ _ Hl H) as [Hlen Hnth].
  exists normals. split; [ reflexivity | ].
  split; [ rewrite Hlen, length_map; exact Hvalue | ].
  intros i v cell Hv Hcell.
  assert (nth_error (map (fun v => repeat (repeat v dim) M) value) i
          = Some (repeat (repeat v dim) M)) as Hv'
    by (rewrite nth_error_map, Hv; reflexivity).
  destruct (nth_error (_getCellFaceIDs faces) i) as [ids | ] eqn:Hi.
  2:{ apply nth_error_None in Hi. apply nth_error_lt in Hv. lia. }
  destruct (Forall2_nth_error_left _ _ _ _ _ Ei _ _ Hi) as (taken & Ht & Htaken).
  destruct (Hnth _ _ _ Hv' Ht) as (z & Hz & Hf).
  rewrite Hcell in Hz. injection Hz as <-.
  exists ids, taken. auto.
Qed.

Lemma cellInterfaceNormals_negative (value : list float)
    (faceGrad : list (list float)) (faceGradMag : list float)
    (result : list (list (list (option float)))) :
  length value = getNumberOfCells mesh ->
  length (_getCellFaceIDs faces) = getNumberOfCells mesh ->
  _getCellInterfaceNormals mesh faces value faceGrad faceGradMag = Ok result ->
  length result = getNumberOfCells mesh
  /\ forall i v cell,
       nth_error value i = Some v -> lt0 v = true ->
       nth_error result i = Some cell ->
       Forall (Forall (eq (Some 0))) cell.
Proof.
  intros Hvalue Hids H.
  destruct (cellInterfaceNormals_cells _ _ _ _ Hvalue Hids H) as (normals & _ & Hlen & Hcells).
  split; [ exact Hlen | ].
  intros i v cell Hv Hneg Hcell.
  destruct (Hcells i v cell Hv Hcell) as (ids & taken & _ & _ & Hf).
  apply (elementwise_Forall _ _ _ _ (Forall (eq v)) (fun _ => True)
           (Forall (eq (Some 0))) _ _ _) in Hf; auto.
  - intros x0 y0 z0 Hx0 _ Hz0.
    apply (elementwise_Forall _ _ _ _ (eq v) (fun _ => True) (eq (Some 0)) _ _ _) in Hz0;
      auto.
    + intros x1 y1 z1 <- _ Hz1. unfold lt0 in Hneg. rewrite Hneg in Hz1.
      injection Hz1 as <-. reflexivity.
    + apply Forall_forall. auto.
  - apply Forall_forall. intros x0 Hx0. apply repeat_spec in Hx0. subst x0.
    apply Forall_forall. intros x1 Hx1. apply repeat_spec in Hx1. auto.
  - apply Forall_forall. auto.
Qed.

(** X14: in the cells of negative value every component of the normal of
    every face slot is zero, and not masked. *)
Theorem cell_normals_negative (value : list float)
    (faceGrad : list (list float)) (faceGradMag : list float)
    (result : list (list (list (option float)))) :
  length value = getNumberOfCells mesh ->
  length (_getCellFaceIDs faces) = getNumberOfCells mesh ->
  _getCellInterfaceNormals mesh faces value faceGrad faceGradMag = Ok result ->
  length result = getNumberOfCells mesh
  /\ forall i v cell,
       nth_error value i = Some v -> lt0 v = true ->
       nth_error result i = Some cell ->
       Forall (Forall (eq (Some 0))) cell.
Proof. exact (cellInterfaceNormals_negative value faceGrad faceGradMag result). Qed.

(** X15: no interface area is negative. *)
Theorem areas_not_negative (value : list float)
    (faceGrad : list (list float)) (faceGradMag : list float) (areas : list float) :
  getCellInterfaceAreas mesh faces value faceGrad faceGradMag = Ok areas ->
  Forall (fun a => lt0 a = false) areas.
Proof.
  intro H. unfold getCellInterfaceAreas in H.
  destruct (_getCellInterfaceNormals mesh faces value faceGrad faceGradMag)
    as [cellNormals | e]; cbn [bind] in H; [ | discriminate ].
  match type of H with
  | bind ?m _ = _ => destruct m as [products | e]; cbn [bind] in H; [ | discriminate ]
  end.
  injection H as <-. apply Forall_forall. intros a Ha.
  apply in_map_iff in Ha. destruct Ha as (cell & <- & _).
  apply hasSign_false_not_negative, sum_hasSign.
  apply Forall_forall. intros x Hx. apply in_map_iff in Hx.
  destruct Hx as (face & <- & _). apply abs_hasSign.
Qed.

(** The area of a cell whose normals are zero or masked is zero. *)
Lemma areas_zero_normals (value : list float)
    (faceGrad : list (list float)) (faceGradMag : list float)
    (cellNormals : list (list (list (option float)))) (areas : list float) :
  _getCellInterfaceNormals mesh faces value faceGrad faceGradMag = Ok cellNormals ->
  length cellNormals = length (_getCellAreaProjections faces) ->
  getCellInterfaceAreas mesh faces value faceGrad faceGradMag = Ok areas ->
  length areas = length cellNormals
  /\ forall i cell projections,
       nth_error cellNormals i = Some cell ->
       Forall (Forall (fun o => match o with Some n => n | None => 0 end = 0)) cell ->
       nth_error (_getCellAreaProjections faces) i = Some projections ->
       Forall (Forall (fun o => match o with
                                | Some a => is_finite a = true
                                | None => True
                                end)) projections ->
       nth_error areas i = Some 0.
Proof.
  intros En Hlength H. unfold getCellInterfaceAreas in H.
  rewrite En in H. cbn [bind] in H.
  match type of H with
  | bind ?m _ = _ => destruct m as [products | e] eqn:Ep; cbn [bind] in H; [ | discriminate ]
  end.
  injection H as <-.
  assert (length (filled3 cellNormals) = length (filled3 (_getCellAreaProjections faces)))
    as Hl by (unfold filled3; rewrite !length_map; exact Hlength).
  destruct (elementwise_nth _ _ _ _ _ _ _ Hl Ep) as [Hlen Hnth].
  split; [ rewrite length_map, Hlen; unfold filled3; apply length_map | ].
  intros i cell projections Hcell Hzero Hproj Hfinite.
  set (fill := fun x : option float => match x with Some v => v | None => 0 end) in *.
  assert (nth_error (filled3 cellNormals) i = Some (map (map fill) cell)) as Hc'
    by (unfold filled3; rewrite nth_error_map, Hcell; reflexivity).
  assert (nth_error (filled3 (_getCellAreaProjections faces)) i
          = Some (map (map fill) projections)) as Hp'
    by (unfold filled3; rewrite nth_error_map, Hproj; reflexivity).
  destruct (Hnth _ _ _ Hc' Hp') as (z & Hz & Hf).
  rewrite nth_error_map, Hz. cbn [option_map]. f_equal.
  apply sum_zeros. apply Forall_forall. intros x Hx.
  apply in_map_iff in Hx. destruct Hx as (face & <- & Hface).
  symmetry. apply abs_isZero, sum_isZero.
  apply (elementwise_Forall _ _ _ _ (Forall (eq 0)) (Forall (fun a => is_finite a = true))
           (Forall (fun x => exists s, Prim2SF x = S754_zero s)) _ _ _) in Hf.
  - apply (proj1 (Forall_forall _ _) Hf). exact Hface.
  - intros x0 y0 z0 Hx0 Hy0 Hz0.
    apply (elementwise_Forall _ _ _ _ (eq 0) (fun a => is_finite a = true)
             (fun x => exists s, Prim2SF x = S754_zero s) _ _ _) in Hz0; auto.
    intros x1 y1 z1 <- Hy1 Hz1. injection Hz1 as <-. apply zero_mul_finite. exact Hy1.
  - apply Forall_forall. intros row Hrow. apply in_map_iff in Hrow.
    destruct Hrow as (row' & <- & Hrow'). apply Forall_forall. intros x Hx.
    apply in_map_iff in Hx. destruct Hx as (o & <- & Ho).
    pose proof (proj1 (Forall_forall _ _) (proj1 (Forall_forall _ _) Hzero _ Hrow') _ Ho) as Hs.
    symmetry. exact Hs.
  - apply Forall_forall. intros row Hrow. apply in_map_iff in Hrow.
    destruct Hrow as (row' & <- & Hrow'). apply Forall_forall. intros x Hx.
    apply in_map_iff in Hx. destruct Hx as (o & <- & Ho).
    pose proof (proj1 (Forall_forall _ _) (proj1 (Forall_forall _ _) Hfinite _ Hrow') _ Ho) as Hs.
    destruct o; [ exact Hs | reflexivity ].
Qed.

(** X16: a cell of negative value has the interface area zero, when the
    area projections of its faces are finite. *)
Theorem area_zero_in_negative_cell (value : list float)
    (faceGrad : list (list float)) (faceGradMag : list float) (areas : list float) :
  length value = getNumberOfCells mesh ->
  length (_getCellFaceIDs faces) = getNumberOfCells mesh ->
  length (_getCellAreaProjections faces) = getNumberOfCells mesh ->
  getCellInterfaceAreas mesh faces value faceGrad faceGradMag = Ok areas ->
  length areas = getNumberOfCells mesh
  /\ forall i v projections,
       nth_error value i = Some v -> lt0 v = true ->
       nth_error (_getCellAreaProjections faces) i = Some projections ->
       Forall (Forall (fun o => match o with
                                | Some a => is_finite a = true
                                | None => True
                                end)) projections ->
       nth_error areas i = Some 0.
Proof.
  intros Hvalue Hids Hareas H.
  destruct (_getCellInterfaceNormals mesh faces value faceGrad faceGradMag)
    as [cellNormals | e] eqn:En;
    [ | unfold getCellInterfaceAreas in H; rewrite En in H; discriminate ].
  destruct (cellInterfaceNormals_negative _ _ _ _ Hvalue Hids En) as [Ln Hneg].
  destruct (areas_zero_normals _ _ _ _ _ En (eq_trans Ln (eq_sym Hareas)) H) as [La Hzero].
  split; [ congruence | ].
  intros i v projections Hv Hlt Hproj Hfinite.
  destruct (nth_error cellNormals i) as [cell | ] eqn:Hcell.
  2:{ apply nth_error_None in Hcell. apply nth_error_lt in Hv. lia. }
  apply (Hzero i cell projections Hcell); auto.
  specialize (Hneg i v cell Hv Hlt Hcell).
  apply Forall_forall. intros row Hrow. apply Forall_forall. intros o Ho.
  rewrite <- (proj1 (Forall_forall _ _) (proj1 (Forall_forall _ _) Hneg _ Hrow) _ Ho).
  reflexivity.
Qed.

End CellNormals.

Section OffInterface.

Variable mesh : Mesh.
Variable faces : FaceMesh.

Local Open Scope float_scope.

Local Notation "'dim'" := (getDim mesh).
Local Notation "'N'" := (_getNumberOfFaces faces).

(** X13: the interface normal of a face that is not flagged is zero in every
    component, and that of a flagged face is its level-set normal. *)
Theorem interface_normals_on_flagged_faces (value : list float)
    (faceGrad : list (list float)) (faceGradMag : list float)
    (result : list (list float)) :
  length (fst (_getAdjacentCellIDs faces)) = N ->
  length (snd (_getAdjacentCellIDs faces)) = N ->
  length (getExteriorFaceIDs faces) = length (getExteriorFaces faces) ->
  length faceGrad = N ->
  Forall (fun g => length g = dim) faceGrad ->
  length faceGradMag = N ->
  _getInterfaceNormals mesh faces value faceGrad faceGradMag = Ok result ->
  exists flags normals,
    _getInterfaceFlag faces value = Ok flags
    /\ _getLevelSetNormals mesh faces faceGrad faceGradMag = Ok normals
    /\ length result = N
    /\ forall j b row,
         nth_error flags j = Some b ->
         nth_error normals j = Some row ->
         nth_error result j = Some (if b then row else repeat 0 dim).
Proof.
  intros Hadj0 Hadj1 Hext Hgrad Hdim Hmag.
  exact (interfaceNormals_rows mesh faces value faceGrad faceGradMag result
           Hadj0 Hadj1 Hext Hgrad Hdim Hmag).
Qed.

(** X17: a cell none of whose faces is flagged has the interface area zero,
    whatever its value, when the area projections of its faces are finite. *)
Theorem area_zero_off_interface (value : list float)
    (faceGrad : list (list float)) (faceGradMag : list float)
    (flags : list bool) (areas : list float) :
  length (fst (_getAdjacentCellIDs faces)) = N ->
  length (snd (_getAdjacentCellIDs faces)) = N ->
  length (getExteriorFaceIDs faces) = length (getExteriorFaces faces) ->
  length faceGrad = N ->
  Forall (fun g => length g = dim) faceGrad ->
  length faceGradMag = N ->
  length value = getNumberOfCells mesh ->
  length (_getCellFaceIDs faces) = getNumberOfCells mesh ->
  length (_getCellAreaProjections faces) = getNumberOfCells mesh ->
  _getInterfaceFlag faces value = Ok flags ->
  getCellInterfaceAreas mesh faces value faceGrad faceGradMag = Ok areas ->
  forall i ids projections,
    nth_error (_getCellFaceIDs faces) i = Some ids ->
    (forall f, In (Some f) ids -> nth_error flags f <> Some true) ->
    nth_error (_getCellAreaProjections faces) i = Some projections ->
    Forall (Forall (fun o => match o with
                             | Some a => is_finite a = true
                             | None => True
                             end)) projections ->
    nth_error areas i = Some 0.
Proof.
  intros Hadj0 Hadj1 Hext Hgrad Hdim Hmag Hvalue Hids Hareas Hflags H
         i ids projections Hi Hnone Hproj Hfinite.
  destruct (_getCellInterfaceNormals mesh faces value faceGrad faceGradMag)
    as [cellNormals | e] eqn:En;
    [ | unfold getCellInterfaceAreas in H; rewrite En in H; discriminate ].
  destruct (cellInterfaceNormals_cells _ _ _ _ _ _ Hvalue Hids En)
    as (normals & Hnormals & Ln & Hcells).
  destruct (interfaceNormals_rows mesh faces _ _ _ _ Hadj0 Hadj1 Hext Hgrad Hdim Hmag Hnormals)
    as (flags' & lsNormals & Hflags' & Hls & Lnormals & Hrows).
  rewrite Hflags in Hflags'. injection Hflags' as <-.
  destruct (levelSetNormals_shape mesh faces _ _ _ Hext Hgrad Hdim Hmag Hls) as [Lls _].
  assert (length flags = N) as Lflags.
  { destruct (interfaceFlag_faces faces value flags (eq_trans Hadj0 (eq_sym Hadj1)) Hflags)
      as [L _]. congruence. }
  destruct (areas_zero_normals _ _ _ _ _ _ _ En (eq_trans Ln (eq_sym Hareas)) H)
    as [La Hzero].
  assert (i < getNumberOfCells mesh)%nat as Hlt
    by (rewrite <- Hids; apply (nth_error_lt _ _ _ _ Hi)).
  destruct (nth_error value i) as [v | ] eqn:Hv;
    [ | apply nth_error_None in Hv; lia ].
  destruct (nth_error cellNormals i) as [cell | ] eqn:Hcell;
    [ | apply nth_error_None in Hcell; lia ].
  apply (Hzero i cell projections Hcell); auto.
  destruct (Hcells i v cell Hv Hcell) as (ids' & taken & Hi' & Htaken & Hf).
  rewrite Hi in Hi'. injection Hi' as <-.
  set (zero := fun o : option float => match o with Some n => n | None => 0 end = 0).
  assert (Forall (Forall zero) taken) as Hzeros.
  { unfold MAtakeRows in Htaken.
    apply (forEach_Forall _ _ _ (fun o => In o ids) (Forall zero) _ _) in Htaken; auto.
    2:{ apply Forall_forall. auto. }
    intros o r Ho Hr. destruct o as [f | ].
    - destruct (getitem normals f) as [row | e] eqn:Erow; cbn [bind] in Hr; [ | discriminate ].
      injection Hr as <-. apply getitem_Ok in Erow.
      pose proof (nth_error_lt _ _ _ _ Erow) as Hf'.
      destruct (nth_error flags f) as [b | ] eqn:Hb;
        [ | apply nth_error_None in Hb; lia ].
      destruct (nth_error lsNormals f) as [row' | ] eqn:Hrow';
        [ | apply nth_error_None in Hrow'; lia ].
      rewrite (Hrows f b row' Hb Hrow') in Erow. injection Erow as <-.
      destruct b; [ exfalso; apply (Hnone f Ho); exact Hb | ].
      apply Forall_forall. intros o Hin. apply in_map_iff in Hin.
      destruct Hin as (x & <- & Hx). apply repeat_spec in Hx. subst x. reflexivity.
    - destruct (getitem normals 0) as [row | e]; cbn [bind] in Hr; [ | discriminate ].
      injection Hr as <-. apply Forall_forall. intros o Hin. apply in_map_iff in Hin.
      destruct Hin as (x & <- & _). reflexivity. }
  apply (elementwise_Forall _ _ _ _ (fun _ => True) (Forall zero) (Forall zero) _ _ _) in Hf;
    auto.
  - intros x0 y0 z0 _ Hy0 Hz0.
    apply (elementwise_Forall _ _ _ _ (fun _ => True) zero zero _ _ _) in Hz0; auto.
    + intros x1 y1 z1 _ Hy1 Hz1. injection Hz1 as <-.
      destruct (x1 <? 0); [ reflexivity | exact Hy1 ].
    + apply Forall_forall. auto.
  - apply Forall_forall. auto.
Qed.

End OffInterface.

Section Bounds.

Lemma take_returns (A : Type) (l : list A) (ids : list nat) :
  Forall (fun i => (i < length l)%nat) ids -> returns (take l ids).
Proof.
  induction 1 as [ | i ids Hi _ [r Hr] ]; cbn [take].
  - exists []. reflexivity.
  - destruct (getitem_lt _ l i Hi) as [x ->]. cbn [bind]. rewrite Hr. cbn [bind].
    eexists. reflexivity.
Qed.

Lemma take_IndexError (A : Type) (l : list A) (ids : list nat) :
  Exists (fun i => (length l <= i)%nat) ids -> take l ids = Raise IndexError.
Proof.
  induction ids as [ | i ids IH ]; intro H; [ inversion H | ]. cbn [take].
  unfold getitem. destruct (nth_error l i) as [x | ] eqn:Hx; cbn [bind]; [ | reflexivity ].
  rewrite IH; [ reflexivity | ].
  inversion H as [? ? Hi | ]; subst; [ | assumption ].
  apply nth_error_None in Hi. congruence.
Qed.

Lemma take_Ok_or_IndexError (A : Type) (l : list A) (ids : list nat) :
  returns (take l ids) \/ take l ids = Raise IndexError.
Proof.
  induction ids as [ | i ids IH ]; cbn [take]; [ left; exists []; reflexivity | ].
  unfold getitem. destruct (nth_error l i) as [x | ]; cbn [bind]; [ | right; reflexivity ].
  destruct IH as [[r ->] | ->]; cbn [bind]; [ left; eexists | right ]; reflexivity.
Qed.

Variable faces : FaceMesh.

Local Open Scope float_scope.

(** X18: with the two arrays of adjacent cells of one length, the flags are
    returned when every adjacent cell ID is below the number of values; an
    ID beyond the values is an [IndexError], in either array. *)
Theorem interface_flag_index_error (value : list float) :
  (length (fst (_getAdjacentCellIDs faces)) = length (snd (_getAdjacentCellIDs faces)) ->
   Forall (fun c => (c < length value)%nat) (fst (_getAdjacentCellIDs faces)) ->
   Forall (fun c => (c < length value)%nat) (snd (_getAdjacentCellIDs faces)) ->
   returns (_getInterfaceFlag faces value))
  /\ (Exists (fun c => (length value <= c)%nat)
        (fst (_getAdjacentCellIDs faces) ++ snd (_getAdjacentCellIDs faces)) ->
      _getInterfaceFlag faces value = Raise IndexError).
Proof.
  unfold _getInterfaceFlag. split.
  - intros Hlen H0 H1.
    destruct (take_returns _ value _ H0) as [val0 E0].
    destruct (take_returns _ value _ H1) as [val1 E1].
    rewrite E0, E1. cbn [bind]. unfold elementwise.
    rewrite (take_length _ _ _ _ E0), (take_length _ _ _ _ E1), <- Hlen, Nat.eqb_refl.
    rewrite (forEach_pure _ _ (fun ab => fst ab * snd ab <? 0)). eexists. reflexivity.
  - intro H. apply Exists_app in H. destruct H as [H | H].
    + rewrite (take_IndexError _ _ _ H). reflexivity.
    + rewrite (take_IndexError _ value (snd _) H).
      destruct (take_Ok_or_IndexError _ value (fst (_getAdjacentCellIDs faces)))
        as [[r ->] | ->]; reflexivity.
Qed.

End Bounds.

Section Constraints.

Import ConstraintMask.

Lemma constraintsLoop_union (constraints : list (list bool)) (returnMask : list bool) :
  Forall (fun w => length w = length returnMask) constraints ->
  exists mask,
    constraintsLoop returnMask constraints = Ok mask
    /\ length mask = length returnMask
    /\ forall i b,
         nth_error mask i = Some b ->
         (b = true <->
          nth_error returnMask i = Some true
          \/ exists w, In w constraints /\ nth_error w i = Some true).
Proof.
  revert returnMask. induction constraints as [ | w rest IH ]; intros returnMask H;
    cbn [constraintsLoop].
  - exists returnMask. split; [ reflexivity | ]. split; [ reflexivity | ].
    intros i b Hb. rewrite Hb. split.
    + intros ->. left. reflexivity.
    + intros [Heq | (w & [] & _)]. congruence.
  - inversion H as [ | ? ? Hw Hrest ]; subst.
    unfold elementwise at 1. rewrite <- Hw, Nat.eqb_refl.
    rewrite (forEach_pure _ _ (fun ab : bool * bool => fst ab || snd ab)). cbn [bind].
    set (mask1 := map (fun ab : bool * bool => fst ab || snd ab) (combine returnMask w)).
    assert (length mask1 = length returnMask) as L1
      by (unfold mask1; rewrite length_map, length_combine; lia).
    destruct (IH mask1) as (mask & Hmask & Lmask & Hiff).
    { rewrite L1. exact Hrest. }
    exists mask. split; [ exact Hmask | ]. split; [ congruence | ].
    intros i b Hb. rewrite (Hiff i b Hb).
    assert (nth_error mask1 i = Some true
            <-> nth_error returnMask i = Some true \/ nth_error w i = Some true) as Hor.
    { unfold mask1. rewrite nth_error_map.
      destruct (nth_error returnMask i) as [x | ] eqn:Hx.
      - destruct (nth_error w i) as [y | ] eqn:Hy.
        + rewrite (nth_error_combine _ _ _ _ _ _ _ Hx Hy). cbn.
          destruct x, y; cbn; intuition congruence.
        + apply nth_error_None in Hy. apply nth_error_lt in Hx. lia.
      - assert (nth_error (combine returnMask w) i = None) as ->
          by (apply nth_error_None; rewrite length_combine;
              apply nth_error_None in Hx; lia).
        cbn. assert (nth_error w i = None) as ->
          by (apply nth_error_None; apply nth_error_None in Hx; lia).
        intuition congruence. }
    rewrite Hor. split.
    + intros [[Hr | Hw'] | (w' & Hin & Hw')]; auto.
      * right. exists w. split; [ left; reflexivity | exact Hw' ].
      * right. exists w'. split; [ right; exact Hin | exact Hw' ].
    + intros [Hr | (w' & [<- | Hin] & Hw')]; auto.
      right. exists w'. auto.
Qed.

(** X19: with every [where] of the shape of the variable, the mask has that
    shape and is true exactly where the [where] of some constraint is true;
    without constraints it is false everywhere. *)
Theorem constraint_mask_union (shape : nat) (constraints : list (list bool)) :
  Forall (fun w => length w = shape) constraints ->
  exists mask,
    _calcValue shape constraints = Ok mask
    /\ length mask = shape
    /\ forall i b,
         nth_error mask i = Some b ->
         (b = true <-> exists w, In w constraints /\ nth_error w i = Some true).
Proof.
  intro H. unfold _calcValue.
  destruct (constraintsLoop_union constraints (repeat false shape))
    as (mask & Hmask & Lmask & Hiff).
  { rewrite repeat_length. exact H. }
  exists mask. split; [ exact Hmask | ].
  split; [ rewrite Lmask; apply repeat_length | ].
  intros i b Hb. rewrite (Hiff i b Hb). split; [ | auto ].
  intros [Hr | Hw]; [ | exact Hw ].
  apply nth_error_In, repeat_spec in Hr. discriminate.
Qed.

(** X20: a [where] whose length is neither that of the variable nor 1, after
    constraints of the shape of the variable, is a [ValueError], for a
    variable that has not exactly one element. *)
Theorem constraint_mask_shape_error (shape : nat) (before after : list (list bool))
    (where_ : list bool) :
  Forall (fun w => length w = shape) before ->
  shape <> 1%nat -> length where_ <> shape -> length where_ <> 1%nat ->
  _calcValue shape (before ++ where_ :: after) = Raise ValueError.
Proof.
  intros Hbefore Hshape Hlen Hone. unfold _calcValue.
  assert (forall returnMask, length returnMask = shape ->
            constraintsLoop returnMask (before ++ where_ :: after) = Raise ValueError)
    as Hloop.
  { induction Hbefore as [ | w before Hw _ IH ]; intros returnMask Hmask; cbn [app constraintsLoop].
    - unfold elementwise. rewrite Hmask.
      destruct (shape =? length where_)%nat eqn:E;
        [ apply Nat.eqb_eq in E; congruence | ].
      destruct returnMask as [ | x [ | x' returnMask ] ],
               where_ as [ | y [ | y' where_' ] ]; cbn in *; try reflexivity; congruence.
    - unfold elementwise at 1. rewrite Hmask, Hw, Nat.eqb_refl.
      rewrite (forEach_pure _ _ (fun ab : bool * bool => fst ab || snd ab)). cbn [bind].
      apply IH. rewrite length_map, length_combine. lia. }
  apply Hloop, repeat_length.
Qed.

End Constraints.

(** ** When the queries return *)

Section Returns.

Lemma same_length_Forall2 (A B : Type) (P : A -> B -> Prop) (a : list A) (b : list B) :
  length a = length b ->
  (forall x y, In x a -> In y b -> P x y) ->
  Forall2 P a b.
Proof.
  revert b. induction a as [ | x a IH ]; intros [ | y b ] Hlen H; cbn in Hlen;
    try discriminate; constructor.
  - apply H; left; reflexivity.
  - apply IH; [ lia | ]. intros x' y' Hx Hy. apply H; right; assumption.
Qed.

(** On arrays of one length [elementwise] returns when the operation does on
    every pair. *)
Lemma elementwise_returns (A B C : Type) (f : A -> B -> result C)
    (a : list A) (b : list B) :
  Forall2 (fun x y => returns (f x y)) a b -> returns (elementwise f a b).
Proof.
  intro H. unfold elementwise.
  rewrite (proj2 (Nat.eqb_eq _ _) (Forall2_length H)).
  apply forEach_returns. induction H as [ | x y a b Hxy _ IH ]; cbn; constructor; auto.
Qed.

Lemma elementwise_In (A B C : Type) (f : A -> B -> result C)
    (a : list A) (b : list B) (r : list C) :
  length a = length b ->
  elementwise f a b = Ok r ->
  length r = length a
  /\ forall z, In z r -> exists x y, In x a /\ In y b /\ f x y = Ok z.
Proof.
  intros Hlen H. destruct (elementwise_nth _ _ _ _ _ _ _ Hlen H) as [Hl Hnth].
  split; [ exact Hl | ]. intros z Hz. apply In_nth_error in Hz. destruct Hz as [j Hj].
  pose proof (nth_error_lt _ _ _ _ Hj) as Hlt.
  destruct (nth_error a j) as [x | ] eqn:Hx; [ | apply nth_error_None in Hx; lia ].
  destruct (nth_error b j) as [y | ] eqn:Hy; [ | apply nth_error_None in Hy; lia ].
  destruct (Hnth _ _ _ Hx Hy) as (z' & Hz' & Hf).
  exists x, y. repeat split; eauto using nth_error_In. congruence.
Qed.

Lemma putZeros_returns (indices : list nat) (flat : list float) :
  Forall (fun p => (p < length flat)%nat) indices -> returns (putZeros flat indices).
Proof.
  revert flat. induction indices as [ | i rest IH ]; intros flat H; cbn [putZeros].
  - exists flat. reflexivity.
  - inversion H as [ | ? ? Hi Hrest ]; subst.
    destruct (setitem_returns _ flat i 0%float Hi) as [flat' E]. rewrite E. cbn [bind].
    apply IH. destruct (setitem_spec _ _ _ _ _ E) as [L _]. rewrite L. exact Hrest.
Qed.

End Returns.

Section QueriesReturn.

Variable mesh : Mesh.
Variable faces : FaceMesh.

Local Open Scope float_scope.

Local Notation "'dim'" := (getDim mesh).
Local Notation "'N'" := (_getNumberOfFaces faces).
Local Notation "'M'" := (_getMaxFacesPerCell faces).

Lemma interfaceFlag_returns (value : list float) :
  length (fst (_getAdjacentCellIDs faces)) = length (snd (_getAdjacentCellIDs faces)) ->
  Forall (fun c => (c < length value)%nat) (fst (_getAdjacentCellIDs faces)) ->
  Forall (fun c => (c < length value)%nat) (snd (_getAdjacentCellIDs faces)) ->
  returns (_getInterfaceFlag faces value).
Proof.
  unfold _getInterfaceFlag. intros Hlen H0 H1.
  destruct (take_returns _ value _ H0) as [val0 E0].
  destruct (take_returns _ value _ H1) as [val1 E1].
  rewrite E0, E1. cbn [bind]. unfold elementwise.
  rewrite (take_length _ _ _ _ E0), (take_length _ _ _ _ E1), <- Hlen, Nat.eqb_refl.
  rewrite (forEach_pure _ _ (fun ab => fst ab * snd ab <? 0)). eexists. reflexivity.
Qed.

Lemma levelSetNormals_returns (faceGrad : list (list float)) (faceGradMag : list float) :
  length (getExteriorFaceIDs faces) = length (getExteriorFaces faces) ->
  Forall (fun e => (e < N)%nat) (getExteriorFaceIDs faces) ->
  length faceGrad = N ->
  Forall (fun g => length g = dim) faceGrad ->
  length faceGradMag = N ->
  returns (_getLevelSetNormals mesh faces faceGrad faceGradMag).
Proof.
  intros Hext Hrange Hgrad Hdim Hmag. unfold _getLevelSetNormals.
  rewrite rows_resize_arange, <- Hext.
  rewrite (elementwise_repeat_right _ _ _
             (fun id ks => map (fun k => (id * dim + k)%nat) ks)).
  cbn [bind].
  match goal with
  | |- returns (bind (putZeros ?flat ?idx) _) =>
      destruct (putZeros_returns idx flat) as [flat' E]
  end.
  { rewrite (concat_length_rect _ _ _ Hdim), Hgrad.
    apply Forall_forall. intros p Hp. apply in_concat in Hp.
    destruct Hp as (l & Hl & Hp). apply in_map_iff in Hl. destruct Hl as (id & <- & Hid).
    apply in_map_iff in Hp. destruct Hp as (k & <- & Hk). apply in_seq in Hk.
    pose proof (proj1 (Forall_forall _ _) Hrange _ Hid) as Hlt. cbn beta in Hlt.
    pose proof (Nat.mul_le_mono_r (S id) N dim Hlt) as Hmul. lia. }
  rewrite E. cbn [bind]. apply elementwise_returns.
  apply same_length_Forall2.
  - rewrite rows_length, length_map. congruence.
  - intros g m _ _. rewrite (elementwise_scalar _ _ _ PrimFloat.div).
    eexists. reflexivity.
Qed.

Lemma interfaceNormals_returns (value : list float)
    (faceGrad : list (list float)) (faceGradMag : list float) :
  length (fst (_getAdjacentCellIDs faces)) = N ->
  length (snd (_getAdjacentCellIDs faces)) = N ->
  Forall (fun c => (c < length value)%nat) (fst (_getAdjacentCellIDs faces)) ->
  Forall (fun c => (c < length value)%nat) (snd (_getAdjacentCellIDs faces)) ->
  length (getExteriorFaceIDs faces) = length (getExteriorFaces faces) ->
  Forall (fun e => (e < N)%nat) (getExteriorFaceIDs faces) ->
  length faceGrad = N ->
  Forall (fun g => length g = dim) faceGrad ->
  length faceGradMag = N ->
  exists normals,
    _getInterfaceNormals mesh faces value faceGrad faceGradMag = Ok normals
    /\ length normals = N
    /\ Forall (fun row => length row = dim) normals.
Proof.
  intros Hadj0 Hadj1 Hr0 Hr1 Hext Hrange Hgrad Hdim Hmag.
  destruct (interfaceFlag_returns value (eq_trans Hadj0 (eq_sym Hadj1)) Hr0 Hr1)
    as [flags Hflags].
  destruct (levelSetNormals_returns _ _ Hext Hrange Hgrad Hdim Hmag) as [ls Hls].
  destruct (levelSetNormals_shape mesh faces _ _ _ Hext Hgrad Hdim Hmag Hls) as [Lls Hrows].
  assert (length flags = N) as Lflags.
  { destruct (interfaceFlag_faces faces value flags (eq_trans Hadj0 (eq_sym Hadj1)) Hflags)
      as [L _]. congruence. }
  assert (returns (_getInterfaceNormals mesh faces value faceGrad faceGradMag))
    as [normals Hnormals].
  { unfold _getInterfaceNormals. rewrite Hflags, Hls. cbn [bind].
    rewrite <- Lflags at 2. rewrite <- repeatEach_length, resize_exact.
    rewrite <- Lflags, repeatEach_rows.
    apply elementwise_returns, same_length_Forall2.
    - rewrite length_map. congruence.
    - intros x row Hx Hrow. apply in_map_iff in Hx. destruct Hx as (b & <- & _).
      rewrite <- (proj1 (Forall_forall _ _) Hrows _ Hrow).
      rewrite (elementwise_repeat _ _ _ (fun (f : bool) x => if f then x else 0)).
      eexists. reflexivity. }
  exists normals. split; [ exact Hnormals | ].
  destruct (interfaceNormals_rows mesh faces _ _ _ _ Hadj0 Hadj1 Hext Hgrad Hdim Hmag Hnormals)
    as (flags' & ls' & Hflags' & Hls' & Ln & Hnth).
  rewrite Hflags in Hflags'. injection Hflags' as <-.
  rewrite Hls in Hls'. injection Hls' as <-.
  split; [ exact Ln | ].
  apply Forall_forall. intros row Hrow. apply In_nth_error in Hrow. destruct Hrow as [j Hj].
  pose proof (nth_error_lt _ _ _ _ Hj) as Hlt.
  destruct (nth_error flags j) as [b | ] eqn:Hb; [ | apply nth_error_None in Hb; lia ].
  destruct (nth_error ls j) as [row' | ] eqn:Hrow'; [ | apply nth_error_None in Hrow'; lia ].
  rewrite (Hnth j b row' Hb Hrow') in Hj. injection Hj as <-.
  destruct b; [ | apply repeat_length ].
  apply (proj1 (Forall_forall _ _) Hrows), (nth_error_In _ _ Hrow').
Qed.

Lemma cellInterfaceNormals_returns (value : list float)
    (faceGrad : list (list float)) (faceGradMag : list float)
    (normals : list (list float)) :
  _getInterfaceNormals mesh faces value faceGrad faceGradMag = Ok normals ->
  length normals = N ->
  Forall (fun row => length row = dim) normals ->
  length value = getNumberOfCells mesh ->
  length (_getCellFaceIDs faces) = getNumberOfCells mesh ->
  Forall (fun ids => length ids = M
                     /\ Forall (fun o => match o with
                                         | Some f => (f < N)%nat
                                         | None => (0 < N)%nat
                                         end) ids)
         (_getCellFaceIDs faces) ->
  exists cellNormals,
    _getCellInterfaceNormals mesh faces value faceGrad faceGradMag = Ok cellNormals
    /\ length cellNormals = getNumberOfCells mesh
    /\ Forall (fun cell => length cell = M /\ Forall (fun row => length row = dim) cell)
              cellNormals.
Proof.
  intros Hnormals Ln Hrows Hvalue Hids Hslots.
  assert (exists taken,
            forEach (MAtakeRows normals) (_getCellFaceIDs faces) = Ok taken
            /\ length taken = getNumberOfCells mesh
            /\ Forall (fun cell => length cell = M
                                   /\ Forall (fun row => length row = dim) cell) taken)
    as (taken & Htaken & Lt & Hshape).
  { destruct (forEach_returns _ _ (MAtakeRows normals) (_getCellFaceIDs faces))
      as [taken Htaken].
    { apply Forall_forall. intros ids Hin.
      destruct (proj1 (Forall_forall _ _) Hslots _ Hin) as [_ Hok].
      apply forEach_returns. apply Forall_forall. intros o Ho.
      pose proof (proj1 (Forall_forall _ _) Hok _ Ho) as Hlt. cbn beta in Hlt.
      destruct o as [f | ]; rewrite <- Ln in Hlt;
        destruct (getitem_lt _ normals _ Hlt) as [row ->]; cbn [bind];
        eexists; reflexivity. }
    exists taken. split; [ exact Htaken | ].
    split; [ rewrite <- (Forall2_length (forEach_Forall2 _ _ _ _ _ Htaken)); exact Hids | ].
    refine (forEach_Forall _ _ _ (fun ids => length ids = M)
              (fun cell => length cell = M /\ Forall (fun row => length row = dim) cell)
              _ _ _ _ Htaken).
    - intros ids cell Hlen Hcell. unfold MAtakeRows in Hcell. split.
      + rewrite <- (Forall2_length (forEach_Forall2 _ _ _ _ _ Hcell)). exact Hlen.
      + refine (forEach_Forall _ _ _ (fun _ => True)
                  (fun row : list (option float) => length row = dim) _ _ _ _ Hcell).
        * intros o r _ Hr.
          destruct o as [f | ];
            match type of Hr with
            | bind (getitem normals ?k) _ = _ =>
                destruct (getitem normals k) as [row | e] eqn:Erow; cbn [bind] in Hr;
                  [ | discriminate ]
            end;
            injection Hr as <-; rewrite length_map;
            apply getitem_Ok in Erow;
            apply (proj1 (Forall_forall _ _) Hrows), (nth_error_In _ _ Erow).
        * apply Forall_forall. auto.
    - apply Forall_forall. intros ids Hin.
      apply (proj1 (Forall_forall _ _) Hslots _ Hin). }
  assert (_getCellInterfaceNormals mesh faces value faceGrad faceGradMag
          = elementwise
              (elementwise (elementwise (fun v n => Ok (if v <? 0 then Some 0 else n))))
              (map (fun v => repeat (repeat v dim) M) value) taken) as Heq.
  { unfold _getCellInterfaceNormals.
    rewrite (cellValueOverFaces_rows _ _ _ Hvalue). cbn [bind].
    rewrite (valueOverFaces_rows _ _ _ Hvalue), Hnormals. cbn [bind].
    rewrite Htaken. reflexivity. }
  assert (length (map (fun v => repeat (repeat v dim) M) value) = length taken) as Hl
    by (rewrite length_map; congruence).
  destruct (elementwise_returns _ _ _
              (elementwise (elementwise (fun v n => Ok (if v <? 0 then Some 0 else n))))
              (map (fun v => repeat (repeat v dim) M) value) taken) as [cellNormals Hcn].
  { apply same_length_Forall2; [ exact Hl | ].
    intros x y Hx Hy. apply in_map_iff in Hx. destruct Hx as (v & <- & _).
    destruct (proj1 (Forall_forall _ _) Hshape _ Hy) as [Ly Hy'].
    apply elementwise_returns, same_length_Forall2.
    - rewrite repeat_length. congruence.
    - intros x' y' Hx' Hy''. apply repeat_spec in Hx'. subst x'.
      rewrite <- (proj1 (Forall_forall _ _) Hy' _ Hy'').
      rewrite (elementwise_repeat _ _ _
                 (fun (v : float) (n : option float) => if v <? 0 then Some 0 else n)).
      eexists. reflexivity. }
  exists cellNormals. split; [ congruence | ].
  destruct (elementwise_In _ _ _ _ _ _ _ Hl Hcn) as [Lcn Hcells].
  split; [ rewrite Lcn, length_map; exact Hvalue | ].
  apply Forall_forall. intros cell Hcell.
  destruct (Hcells cell Hcell) as (x & y & Hx & Hy & Hf).
  apply in_map_iff in Hx. destruct Hx as (v & <- & _).
  destruct (proj1 (Forall_forall _ _) Hshape _ Hy) as [Ly Hy'].
  assert (length (repeat (repeat v dim) M) = length y) as Hl'
    by (rewrite repeat_length; congruence).
  destruct (elementwise_In _ _ _ _ _ _ _ Hl' Hf) as [Lcell Hrows'].
  split; [ rewrite Lcell; apply repeat_length | ].
  apply Forall_forall. intros row Hrow.
  destruct (Hrows' row Hrow) as (x' & y' & Hx' & Hy'' & Hf').
  apply repeat_spec in Hx'. subst x'.
  assert (length (repeat v dim) = length y') as Hl''
    by (rewrite repeat_length; symmetry;
        apply (proj1 (Forall_forall _ _) Hy' _ Hy'')).
  destruct (elementwise_In _ _ _ _ _ _ _ Hl'' Hf') as [Lrow _].
  rewrite Lrow. apply repeat_length.
Qed.

(** X21: on a mesh whose arrays have consistent shapes and whose IDs are in
    range, [getCellInterfaceAreas] returns, with one area per cell, whatever
    the values and the gradient are. *)
Theorem cell_interface_areas_return (value : list float)
    (faceGrad : list (list float)) (faceGradMag : list float) :
  length (fst (_getAdjacentCellIDs faces)) = N ->
  length (snd (_getAdjacentCellIDs faces)) = N ->
  Forall (fun c => (c < length value)%nat) (fst (_getAdjacentCellIDs faces)) ->
  Forall (fun c => (c < length value)%nat) (snd (_getAdjacentCellIDs faces)) ->
  length (getExteriorFaceIDs faces) = length (getExteriorFaces faces) ->
  Forall (fun e => (e < N)%nat) (getExteriorFaceIDs faces) ->
  length faceGrad = N ->
  Forall (fun g => length g = dim) faceGrad ->
  length faceGradMag = N ->
  length value = getNumberOfCells mesh ->
  length (_getCellFaceIDs faces) = getNumberOfCells mesh ->
  Forall (fun ids => length ids = M
                     /\ Forall (fun o => match o with
                                         | Some f => (f < N)%nat
                                         | None => (0 < N)%nat
                                         end) ids)
         (_getCellFaceIDs faces) ->
  length (_getCellAreaProjections faces) = getNumberOfCells mesh ->
  Forall (fun cell => length cell = M /\ Forall (fun row => length row = dim) cell)
         (_getCellAreaProjections faces) ->
  exists areas,
    getCellInterfaceAreas mesh faces value faceGrad faceGradMag = Ok areas
    /\ length areas = getNumberOfCells mesh.
Proof.
  intros Hadj0 Hadj1 Hr0 Hr1 Hext Hrange Hgrad Hdim Hmag Hvalue Hids Hslots Hproj Hshape.
  destruct (interfaceNormals_returns value faceGrad faceGradMag
              Hadj0 Hadj1 Hr0 Hr1 Hext Hrange Hgrad Hdim Hmag)
    as (normals & Hnormals & Ln & Hrows).
  destruct (cellInterfaceNormals_returns _ _ _ _ Hnormals Ln Hrows Hvalue Hids Hslots)
    as (cellNormals & Hcn & Lcn & Hcells).
  unfold getCellInterfaceAreas. rewrite Hcn. cbn [bind].
  match goal with
  | |- exists areas, bind ?m _ = _ /\ _ => assert (returns m) as [products Hp]
  end.
  { apply elementwise_returns, same_length_Forall2.
    - unfold filled3. rewrite !length_map. congruence.
    - intros x y Hx Hy. unfold filled3 in Hx, Hy.
      apply in_map_iff in Hx. destruct Hx as (cell & <- & Hcell).
      apply in_map_iff in Hy. destruct Hy as (proj & <- & Hproj').
      destruct (proj1 (Forall_forall _ _) Hcells _ Hcell) as [Lc Hc].
      destruct (proj1 (Forall_forall _ _) Hshape _ Hproj') as [Lp Hp].
      apply elementwise_returns, same_length_Forall2.
      + rewrite !length_map. congruence.
      + intros x' y' Hx' Hy'.
        apply in_map_iff in Hx'. destruct Hx' as (row & <- & Hrow).
        apply in_map_iff in Hy'. destruct Hy' as (prow & <- & Hprow).
        apply elementwise_returns, same_length_Forall2.
        * rewrite !length_map.
          rewrite (proj1 (Forall_forall _ _) Hc _ Hrow).
          symmetry. apply (proj1 (Forall_forall _ _) Hp _ Hprow).
        * intros n a _ _. eexists. reflexivity. }
  rewrite Hp. cbn [bind]. eexists. split; [ reflexivity | ].
  assert (length (filled3 cellNormals) = length (filled3 (_getCellAreaProjections faces)))
    as Hl by (unfold filled3; rewrite !length_map; congruence).
  destruct (elementwise_nth _ _ _ _ _ _ _ Hl Hp) as [Lp _].
  rewrite length_map, Lp. unfold filled3. rewrite length_map. exact Lcn.
Qed.

End QueriesReturn.

(** ** The queries on the grid of the docstrings *)

Import QueryInputs.

Lemma interface_flag_sign_change_witness :
  length flagQ = length (fst (_getAdjacentCellIDs faces22))
  /\ forall j c0 c1 b,
       nth_error (fst (_getAdjacentCellIDs faces22)) j = Some c0 ->
       nth_error (snd (_getAdjacentCellIDs faces22)) j = Some c1 ->
       nth_error flagQ j = Some b ->
       (b = true ->
        exists v0 v1,
          nth_error valueQ c0 = Some v0 /\ nth_error valueQ c1 = Some v1
          /\ ((gt0 v0 = true /\ lt0 v1 = true) \/ (lt0 v0 = true /\ gt0 v1 = true)))
       /\ (c0 = c1 -> b = false).
Proof.
  apply (interface_flag_sign_change faces22 valueQ flagQ); vm_compute; reflexivity.
Defined.

Lemma cell_interface_flag_iff_witness :
  exists flags,
    _getInterfaceFlag faces22 valueQ = Ok flags
    /\ length cellFlagQ = length valueQ
    /\ forall i v ids b,
         nth_error valueQ i = Some v ->
         nth_error (_getCellFaceIDs faces22) i = Some ids ->
         nth_error cellFlagQ i = Some b ->
         (b = true <->
          gt0 v = true /\ exists f, In (Some f) ids /\ nth_error flags f = Some true).
Proof.
  apply (cell_interface_flag_iff faces22 valueQ cellFlagQ); vm_compute; reflexivity.
Defined.

Lemma cell_value_over_faces_witness :
  _getCellValueOverFaces meshQ faces22 valueQ
  = Ok (map (fun v => repeat v (_getMaxFacesPerCell faces22)) valueQ).
Proof.
  apply (proj1 (cell_value_over_faces meshQ faces22 valueQ)). vm_compute. reflexivity.
Defined.

Lemma level_set_normals_exterior_witness :
  length levelSetNormalsQ = length faceGradQ
  /\ forall j g m,
       nth_error faceGradQ j = Some g ->
       nth_error faceGradMagQ j = Some m ->
       (In j (getExteriorFaceIDs faces22) ->
        nth_error levelSetNormalsQ j = Some (repeat 0 (getDim meshQ)))
       /\ (~ In j (getExteriorFaceIDs faces22) ->
           nth_error levelSetNormalsQ j
           = Some (map (fun x => x / (if 1e-10 <? m then m else 1e-10)) g)).
Proof.
  apply (level_set_normals_exterior meshQ faces22 faceGradQ faceGradMagQ levelSetNormalsQ);
    vm_compute; first [ reflexivity | repeat constructor ].
Defined.

Lemma interface_normals_on_flagged_faces_witness :
  exists flags normals,
    _getInterfaceFlag faces22 valueQ = Ok flags
    /\ _getLevelSetNormals meshQ faces22 faceGradQ faceGradMagQ = Ok normals
    /\ length interfaceNormalsQ = _getNumberOfFaces faces22
    /\ forall j b row,
         nth_error flags j = Some b ->
         nth_error normals j = Some row ->
         nth_error interfaceNormalsQ j = Some (if b then row else repeat 0 (getDim meshQ)).
Proof.
  apply (interface_normals_on_flagged_faces meshQ faces22 valueQ faceGradQ faceGradMagQ
           interfaceNormalsQ);
    vm_compute; first [ reflexivity | repeat constructor ].
Defined.

Lemma cell_normals_negative_witness :
  length cellNormalsQ = getNumberOfCells meshQ
  /\ forall i v cell,
       nth_error valueQ i = Some v -> lt0 v = true ->
       nth_error cellNormalsQ i = Some cell ->
       Forall (Forall (eq (Some 0))) cell.
Proof.
  apply (cell_normals_negative meshQ faces22 valueQ faceGradQ faceGradMagQ cellNormalsQ);
    vm_compute; reflexivity.
Defined.

Lemma areas_not_negative_witness : Forall (fun a => lt0 a = false) areasQ.
Proof.
  apply (areas_not_negative meshQ faces22 valueQ faceGradQ faceGradMagQ areasQ).
  vm_compute. reflexivity.
Defined.

Lemma area_zero_in_negative_cell_witness :
  length areasQ = getNumberOfCells meshQ
  /\ forall i v projections,
       nth_error valueQ i = Some v -> lt0 v = true ->
       nth_error (_getCellAreaProjections faces22) i = Some projections ->
       Forall (Forall (fun o => match o with
                                | Some a => is_finite a = true
                                | None => True
                                end)) projections ->
       nth_error areasQ i = Some 0.
Proof.
  apply (area_zero_in_negative_cell meshQ faces22 valueQ faceGradQ faceGradMagQ areasQ);
    vm_compute; reflexivity.
Defined.

Lemma area_zero_off_interface_witness : nth_error areasQ 3 = Some 0.
Proof.
  apply (area_zero_off_interface meshQ faces22 valueQ faceGradQ faceGradMagQ flagQ areasQ)
    with (ids := [Some 3; Some 11; Some 5; Some 10]%nat)
         (projections := [ [Some 0; Some (-0.5)]; [Some 0.5; Some 0];
                           [Some 0; Some 0.5]; [Some (-0.5); Some 0] ]);
    try (vm_compute; reflexivity).
  - vm_compute. repeat constructor.
  - intros f [Hf | [Hf | [Hf | [Hf | []]]]]; injection Hf as <-; vm_compute; discriminate.
  - repeat constructor.
Defined.

Lemma interface_flag_index_error_witness :
  _getInterfaceFlag facesBeyond valueQ = Raise IndexError.
Proof.
  apply (proj2 (interface_flag_index_error facesBeyond valueQ)).
  do 3 apply Exists_cons_tl. apply Exists_cons_hd. vm_compute. reflexivity.
Defined.

Lemma constraint_mask_union_witness :
  exists mask,
    ConstraintMask._calcValue 4 constraints4 = Ok mask
    /\ length mask = 4%nat
    /\ forall i b,
         nth_error mask i = Some b ->
         (b = true <-> exists w, In w constraints4 /\ nth_error w i = Some true).
Proof.
  apply (constraint_mask_union 4 constraints4). repeat constructor.
Defined.

Lemma constraint_mask_shape_error_witness :
  ConstraintMask._calcValue 4 constraintsShape = Raise ValueError.
Proof.
  apply (constraint_mask_shape_error 4 [[true; false; false; false]] []
           [false; true; false]); [ repeat constructor | | | ]; cbn; lia.
Defined.


Lemma cell_interface_areas_return_witness :
  exists areas,
    getCellInterfaceAreas meshQ faces22 valueQ faceGradQ faceGradMagQ = Ok areas
    /\ length areas = getNumberOfCells meshQ.
Proof.
  apply (cell_interface_areas_return meshQ faces22 valueQ faceGradQ faceGradMagQ);
    vm_compute; repeat first [ reflexivity | lia | constructor ].
Defined.
